(** * coz: the debug-information index of the profiler (src/lib/inspect.cpp)

    A shallow embedding of [memory_map] and of the functions that fill and
    query it: the module enumerator [get_loaded_files], the debug image
    locator [locate_debug_executable], the line-table walker
    [process_file], the inline attributor [process_inlines], and the two
    [find_line] queries.

    Conventions.  [uintptr_t], [size_t] and [uint64_t] are [Z] reduced modulo
    [2^64]; [std::string] is [string]; a [std::map] is the list of its entries
    in key order; the file system, the ELF and DWARF readers (libelfin) and
    [boost::filesystem] are data or parameters of the functions that call
    them; a C++ exception is a value of the type [exception], carried by the
    result type [outcome]. *)

From Stdlib Require Import ZArith List String Ascii Bool Lia Sorted.
From Stdlib Require OrderedTypeEx.
Import ListNotations.
Open Scope Z_scope.

(* ================================================================== *)
(** ** Machine integers *)

Definition two64 : Z := 2 ^ 64.

(** Arithmetic on [uintptr_t] and [size_t] wraps around. *)
Definition wrap64 (z : Z) : Z := z mod two64.

Definition is_uintptr (z : Z) : Prop := 0 <= z < two64.

(* ================================================================== *)
(** ** std::map

    The entries of a [std::map<K,V>] in key order.  [find] is the lower-bound
    search followed by the equivalence test.  [emplace] inserts at the first
    entry that the key precedes, and only when no entry before that place is
    equivalent to the key, so a map that holds an equivalent key is left as
    it is.  [assign] is [m[k] = v].  The scans agree with the descent in the
    balanced tree whenever the tests [lt k' k] and [lt k k'] are monotone
    along the entries, which is the case for a strict weak ordering and for
    the ranges of [_ranges] as long as none is reversed ([_base <= _limit]
    for the ranges stored and for the key); the statements about what
    [_ranges] holds or finds are made for such ranges. *)

Module StdMap.
Section Ordered.
Variables K V : Type.
Variable lt : K -> K -> bool.

Definition t := list (K * V).

Definition empty : t := [].

Fixpoint find (k : K) (m : t) : option V :=
  match m with
  | [] => None
  | (k', v') :: m' =>
      if lt k' k then find k m'
      else if lt k k' then None
      else Some v'
  end.

Fixpoint emplace (k : K) (v : V) (m : t) : t :=
  match m with
  | [] => [(k, v)]
  | (k', v') :: m' =>
      if lt k k' then (k, v) :: m
      else if lt k' k then (k', v') :: emplace k v m'
      else m
  end.

(** [m[k] = v]: the value of an equivalent key is overwritten. *)
Fixpoint assign (k : K) (v : V) (m : t) : t :=
  match m with
  | [] => [(k, v)]
  | (k', v') :: m' =>
      if lt k k' then (k, v) :: m
      else if lt k' k then (k', v') :: assign k v m'
      else (k', v) :: m'
  end.

(** Mutation, through a shared pointer, of the object stored under [k]. *)
Fixpoint replace (k : K) (v : V) (m : t) : t :=
  match m with
  | [] => []
  | (k', v') :: m' =>
      if lt k' k then (k', v') :: replace k v m'
      else if lt k k' then m
      else (k', v) :: m'
  end.

Definition size (m : t) : Z := Z.of_nat (List.length m).

End Ordered.

Arguments empty {K V}.
Arguments find {K V} lt k m.
Arguments emplace {K V} lt k v m.
Arguments assign {K V} lt k v m.
Arguments replace {K V} lt k v m.
Arguments size {K V} m.
End StdMap.

(* ================================================================== *)
(** ** Intervals, lines, files *)

(** Modelled from the spec: class [interval] of causal/inspect.h, which is
    not among the sources.  A half-open address range [[_base, _limit)];
    [interval(p)] is the unit range [[p, p+1)] of an address, the conversion
    that [_ranges.find(addr)] applies to its argument; [r + x] shifts both
    ends by a load base.  The order that keys [_ranges] puts [a] before [b]
    when [a] ends at or before the start of [b]: ranges that share no
    address are ordered by their low bounds, ranges that share an address
    are equivalent keys, and the point query of [find_line] finds the range
    that contains the address. *)
Record interval := mk_interval { _base : Z; _limit : Z }.

Definition unit_interval (p : Z) : interval := mk_interval p (wrap64 (p + 1)).

Definition interval_shift (r : interval) (x : Z) : interval :=
  mk_interval (wrap64 (_base r + x)) (wrap64 (_limit r + x)).

Definition interval_lt (a b : interval) : bool := _limit a <=? _base b.

Definition contains (r : interval) (x : Z) : Prop := _base r <= x < _limit r.

(** Modelled from the spec: classes [line] and [file] of causal/inspect.h.
    A Line is a (File, line number) pair; a File has one Line per number,
    created on first reference. *)
Record line := mk_line { line_file : string; line_number : Z }.

Record file := mk_file { file_name : string; _lines : StdMap.t Z line }.

Definition has_line (f : file) (line_no : Z) : bool :=
  match StdMap.find Z.ltb line_no (_lines f) with Some _ => true | None => false end.

Definition get_line (f : file) (line_no : Z) : file * line :=
  match StdMap.find Z.ltb line_no (_lines f) with
  | Some l => (f, l)
  | None =>
      let l := mk_line (file_name f) line_no in
      (mk_file (file_name f) (StdMap.emplace Z.ltb line_no l (_lines f)), l)
  end.

(** ** The index *)

Record memory_map := mk_memory_map {
  _files : StdMap.t string file;
  _ranges : StdMap.t interval line
}.

Definition empty_map : memory_map := mk_memory_map StdMap.empty StdMap.empty.

(** Modelled from the spec: [memory_map::get_file] of causal/inspect.h,
    obtain or create the File stored under the given path. *)
Definition get_file (m : memory_map) (filename : string) : memory_map * file :=
  match StdMap.find String.ltb filename (_files m) with
  | Some f => (m, f)
  | None =>
      let f := mk_file filename StdMap.empty in
      (mk_memory_map (StdMap.emplace String.ltb filename f (_files m)) (_ranges m), f)
  end.

(** [memory_map::add_range].  [f] is shared with [_files], so the Line that
    [f->get_line] creates is seen there. *)
Definition add_range (m : memory_map) (filename : string) (line_no : Z)
    (range : interval) : memory_map :=
  let '(m1, f) := get_file m filename in
  let '(f', l) := get_line f line_no in
  mk_memory_map (StdMap.replace String.ltb filename f' (_files m1))
                (StdMap.emplace interval_lt range l (_ranges m1)).

(** [memory_map::find_line(uintptr_t)] *)
Definition find_line_addr (m : memory_map) (addr : Z) : option line :=
  StdMap.find interval_lt (unit_interval addr) (_ranges m).

(** A call of [add_range]: file name, line number, range. *)
Definition range_entry : Type := string * Z * interval.

Definition add_entry (m : memory_map) (e : range_entry) : memory_map :=
  let '(filename, line_no, range) := e in add_range m filename line_no range.

Definition add_ranges (m : memory_map) (es : list range_entry) : memory_map :=
  fold_left add_entry es m.

(* ================================================================== *)
(** ** std::string

    Positions are [nat]; [npos] is [None]. *)

Definition strlen (s : string) : nat := String.length s.

(** [s.find(pat)]: the first position at which [pat] occurs. *)
Fixpoint string_find (pat s : string) : option nat :=
  if String.prefix pat s then Some 0%nat
  else match s with
       | EmptyString => None
       | String _ s' => option_map S (string_find pat s')
       end.

(** [s.rfind(pat)]: the last position at which [pat] occurs. *)
Fixpoint string_rfind (pat s : string) : option nat :=
  match s with
  | EmptyString => if String.prefix pat s then Some 0%nat else None
  | String _ s' =>
      match string_rfind pat s' with
      | Some p => Some (S p)
      | None => if String.prefix pat s then Some 0%nat else None
      end
  end.

(** [s.find(c)] and [s.find_first_of(c)] for a character. *)
Fixpoint find_char (c : ascii) (s : string) : option nat :=
  match s with
  | EmptyString => None
  | String a s' => if Ascii.eqb a c then Some 0%nat else option_map S (find_char c s')
  end.

(** [s.find_last_of(c)] *)
Fixpoint find_last_of (c : ascii) (s : string) : option nat :=
  match s with
  | EmptyString => None
  | String a s' =>
      match find_last_of c s' with
      | Some p => Some (S p)
      | None => if Ascii.eqb a c then Some 0%nat else None
      end
  end.

(** [s.substr(pos)] and [s.substr(0, n)] *)
Fixpoint substr_from (pos : nat) (s : string) : string :=
  match pos, s with
  | O, _ => s
  | S p, String _ s' => substr_from p s'
  | S _, EmptyString => EmptyString
  end.

Fixpoint substr_to (n : nat) (s : string) : string :=
  match n, s with
  | S k, String a s' => String a (substr_to k s')
  | _, _ => EmptyString
  end.

(** [s[0] == c]; the character at the end of an empty string is NUL. *)
Definition first_char_is (c : ascii) (s : string) : bool :=
  match s with
  | String a _ => Ascii.eqb a c
  | EmptyString => Ascii.eqb Ascii.zero c
  end.

Fixpoint last_char_is (c : ascii) (s : string) : bool :=
  match s with
  | EmptyString => false
  | String a EmptyString => Ascii.eqb a c
  | String _ s' => last_char_is c s'
  end.

(** [boost::split(out, s, is_any_of(c))]: empty tokens are kept. *)
Fixpoint split_on (c : ascii) (s : string) : list string :=
  match s with
  | EmptyString => [EmptyString]
  | String a s' =>
      if Ascii.eqb a c then EmptyString :: split_on c s'
      else match split_on c s' with
           | tok :: toks => String a tok :: toks
           | [] => [String a EmptyString]
           end
  end.

(** [stringstream(s) >> n] for a [size_t] variable [n].  The stream first
    skips white space.  When nothing is left it fails at that point and [n]
    is not written: [parse_size_t] gives [None].  Otherwise a sign is
    accepted, the decimal digits that follow are read and a value is stored
    in [n]: 0 without a digit, the largest [size_t] for a value too large,
    and a minus sign negates modulo [2^64]. *)
Definition is_space (a : ascii) : bool :=
  let n := N_of_ascii a in
  (N.eqb n 32 || (N.leb 9 n && N.leb n 13))%bool.

Definition digit_of (a : ascii) : option Z :=
  let n := Z.of_N (N_of_ascii a) in
  if (48 <=? n) && (n <=? 57) then Some (n - 48) else None.

Fixpoint skip_spaces (s : string) : string :=
  match s with
  | String a s' => if is_space a then skip_spaces s' else s
  | EmptyString => s
  end.

(** The digits at the front of [s], accumulated on [acc]; the flag says
    whether a digit was read. *)
Fixpoint read_digits (s : string) (acc : Z) (seen : bool) : Z * bool :=
  match s with
  | String a s' =>
      match digit_of a with
      | Some d => read_digits s' (10 * acc + d) true
      | None => (acc, seen)
      end
  | EmptyString => (acc, seen)
  end.

Definition parse_size_t (s : string) : option Z :=
  match skip_spaces s with
  | EmptyString => None
  | String c r =>
      let '(negative, s2) :=
        if Ascii.eqb c "-"%char then (true, r)
        else if Ascii.eqb c "+"%char then (false, r)
        else (false, String c r) in
      let '(v, seen) := read_digits s2 0 false in
      Some (if negb seen then 0
            else if two64 <=? v then two64 - 1
            else if negative then wrap64 (- v) else v)
  end.

(* ================================================================== *)
(** ** Exceptions *)

(** The exceptions that the libraries called here raise. *)
Inductive exception :=
| std_system_error        (* std::system_error, from elf::create_mmap_loader *)
| elf_format_error        (* elf::format_error, a std::runtime_error *)
| dwarf_format_error      (* dwarf::format_error, a std::runtime_error *)
| dwarf_value_type_mismatch (* dwarf::value_type_mismatch, a std::logic_error *)
| std_out_of_range        (* std::out_of_range, from line_table::get_file *)
| filesystem_error.       (* boost::filesystem::filesystem_error *)

(** [catch(const system_error&)] handles [std::system_error] and nothing
    else in this list. *)
Definition is_system_error (e : exception) : bool :=
  match e with std_system_error => true | _ => false end.

(** The result of a call: a value, an exception, or undefined behaviour (the
    C++ standard gives the call no meaning). *)
Inductive outcome (A : Type) :=
| Returns (a : A)
| Throws (e : exception)
| Undefined.
Arguments Returns {A} a.
Arguments Throws {A} e.
Arguments Undefined {A}.

Definition obind {A B} (x : outcome A) (k : A -> outcome B) : outcome B :=
  match x with
  | Returns a => k a
  | Throws e => Throws e
  | Undefined => Undefined
  end.

Declare Scope outcome_scope.
Delimit Scope outcome_scope with outcome.
Notation "x <- c ;; k" := (obind c (fun x => k))
  (at level 61, c at next level, right associativity) : outcome_scope.

(* ================================================================== *)
(** ** DWARF data

    What libelfin hands to the walker: attribute values, debug-info entries,
    line tables, compilation units. *)

Inductive DW_TAG := TAG_inlined_subroutine | TAG_subprogram | TAG_compile_unit | TAG_other.

Inductive DW_AT :=
| AT_name | AT_decl_file | AT_decl_line | AT_call_file | AT_call_line
| AT_ranges | AT_low_pc | AT_high_pc | AT_other.

Definition DW_AT_eqb (a b : DW_AT) : bool :=
  match a, b with
  | AT_name, AT_name | AT_decl_file, AT_decl_file | AT_decl_line, AT_decl_line
  | AT_call_file, AT_call_file | AT_call_line, AT_call_line
  | AT_ranges, AT_ranges | AT_low_pc, AT_low_pc | AT_high_pc, AT_high_pc
  | AT_other, AT_other => true
  | _, _ => false
  end.

(** A [dwarf::value] that is [valid()]; the invalid value is [None] of
    [option value]. *)
Inductive value :=
| V_address (a : Z)
| V_uconstant (n : Z)
| V_sconstant (n : Z)
| V_string (s : string)
| V_rangelist (rs : list (Z * Z))
| V_flag (b : bool).

(** A [dwarf::die].  [DW_AT_abstract_origin] and [DW_AT_specification], the
    two reference attributes that the code follows, are fields that hold the
    entry the reference resolves to; the other attributes are in [attrs].
    References do not form cycles, as in the output of a compiler. *)
#[local] Unset Elimination Schemes.
Inductive die :=
| invalid_die
| Die (tag : DW_TAG) (attrs : list (DW_AT * value))
      (abstract_origin : option die) (specification : option die)
      (children : list die).
#[local] Set Elimination Schemes.

(** [d.has(attr)] and [d[attr]] on the attributes of the entry itself. *)
Fixpoint lookup_attr (attr : DW_AT) (attrs : list (DW_AT * value)) : option value :=
  match attrs with
  | [] => None
  | (a, v) :: rest => if DW_AT_eqb a attr then Some v else lookup_attr attr rest
  end.

Definition own_attr (d : die) (attr : DW_AT) : option value :=
  match d with invalid_die => None | Die _ attrs _ _ _ => lookup_attr attr attrs end.

(** The accessors raise [value_type_mismatch] on a value of another type. *)
Definition as_uconstant (v : value) : outcome Z :=
  match v with V_uconstant n => Returns n | _ => Throws dwarf_value_type_mismatch end.
Definition as_string (v : value) : outcome string :=
  match v with V_string s => Returns s | _ => Throws dwarf_value_type_mismatch end.
Definition as_rangelist (v : value) : outcome (list (Z * Z)) :=
  match v with V_rangelist rs => Returns rs | _ => Throws dwarf_value_type_mismatch end.

(** A row of the line table. *)
Record line_entry := mk_row {
  row_address : Z;
  row_file_path : string;      (* line_info.file->path *)
  row_line : Z;
  row_end_sequence : bool
}.

(** A [dwarf::line_table]: whether it is [valid()], its file names, and its
    rows (none when it is not valid). *)
Record line_table := mk_table {
  table_valid : bool;
  table_files : list string;
  table_rows : list line_entry
}.

(** [table.get_file(index)->path] *)
Definition table_get_file (t : line_table) (index : Z) : outcome string :=
  match nth_error (table_files t) (Z.to_nat index) with
  | Some p => Returns p
  | None => Throws std_out_of_range
  end.

Record compilation_unit := mk_unit {
  unit_line_table : line_table;
  unit_root : die
}.

(* ================================================================== *)
(** ** ELF images and the file system *)

Inductive sht := sht_note | sht_other.

(** A section: name, type, and contents as bytes [0..255]. *)
Record section := mk_section {
  sec_name : string;
  sec_type : sht;
  sec_data : list Z
}.

(** The [uint8_t] at offset [i] of a section, for [i] below its size.  The
    functions below test the offsets they read against the size first. *)
Definition byte_at (data : list Z) (i : nat) : Z := (nth i data 0) mod 256.

(** A little-endian [Elf64_Word] at offset [i], for [i + 4] at most the
    size of the section. *)
Definition word_at (data : list Z) (i : nat) : Z :=
  byte_at data i + 256 * byte_at data (i + 1) + 65536 * byte_at data (i + 2)
  + 16777216 * byte_at data (i + 3).

Definition sizeof_Nhdr : nat := 12.
Definition NT_GNU_BUILD_ID : Z := 3.

Definition hex_digit (n : Z) : ascii :=
  if n <? 10 then ascii_of_N (Z.to_N (48 + n)) else ascii_of_N (Z.to_N (87 + n)).

(** [ss.flags(ios::hex); ss.width(2); ss.fill('0'); ss << size_t(b)] *)
Definition hex_byte (b : Z) : string :=
  String (hex_digit (b / 16)) (String (hex_digit (b mod 16)) EmptyString).

Fixpoint hex_bytes (data : list Z) (from : nat) (count : nat) : string :=
  match count with
  | O => EmptyString
  | S c => hex_byte (byte_at data from) ++ hex_bytes data (S from) c
  end.

(** The [while] loop over the notes of one section; [Returns None] when the
    loop ends without a build-id note.  The loop tests [offset] against the
    size of the section and then reads, through pointers into the section,
    the header at [offset] and, for a build-id note, the bytes of the
    descriptor.  A read that passes the end of the section reaches memory
    that the section does not describe: the result is [Undefined].  Every
    iteration advances [offset] by at least the header size, so [fuel] =
    section size never runs out. *)
Fixpoint scan_notes (fuel : nat) (data : list Z) (offset : nat)
    : outcome (option string) :=
  match fuel with
  | O => Returns None
  | S fuel' =>
      if (offset <? List.length data)%nat then
        if (offset + sizeof_Nhdr <=? List.length data)%nat then
          let n_namesz := Z.to_nat (word_at data offset) in
          let n_descsz := Z.to_nat (word_at data (offset + 4)) in
          let n_type := word_at data (offset + 8) in
          if n_type =? NT_GNU_BUILD_ID then
            if (n_descsz =? 0)%nat
               || (offset + sizeof_Nhdr + n_namesz + n_descsz <=? List.length data)%nat
            then Returns (Some (hex_bytes data (offset + sizeof_Nhdr + n_namesz) n_descsz))
            else Undefined
          else scan_notes fuel' data (offset + sizeof_Nhdr + n_namesz + n_descsz)
        else Undefined
      else Returns None
  end.

(** An [elf::elf]: its sections, and what [dwarf::dwarf] reads from it (the
    compilation units, or the exception the reader raises). *)
Record elf := mk_elf {
  elf_sections : list section;
  elf_dwarf : outcome (list compilation_unit)
}.

Section Locate.
Local Open Scope string_scope.

Fixpoint find_build_id_in (secs : list section) : outcome string :=
  match secs with
  | [] => Returns EmptyString
  | s :: rest =>
      match sec_type s with
      | sht_note =>
          (found <- scan_notes (List.length (sec_data s)) (sec_data s) 0 ;;
           match found with
           | Some id => Returns id
           | None => find_build_id_in rest
           end)%outcome
      | sht_other => find_build_id_in rest
      end
  end.

Definition find_build_id (f : elf) : outcome string :=
  find_build_id_in (elf_sections f).

(** [f.get_section(name)]; [None] is the section that is not [valid()]. *)
Definition get_section (f : elf) (name : string) : option section :=
  List.find (fun s => String.eqb (sec_name s) name) (elf_sections f).

Definition has_debug_info (f : elf) : bool :=
  match get_section f ".debug_info" with Some _ => true | None => false end.

(** The bytes of a section read as a C string: the characters before the
    first NUL.  In a section without a NUL the read passes the end of the
    section and the result is [Undefined]. *)
Fixpoint c_string (data : list Z) : outcome string :=
  match data with
  | [] => Undefined
  | b :: rest =>
      if (b =? 0)%Z then Returns EmptyString
      else (s <- c_string rest ;; Returns (String (ascii_of_N (Z.to_N b)) s))%outcome
  end.

(** What the process sees of its environment. *)
Record world := mk_world {
  (** [open(path, O_RDONLY)] then [elf::elf(elf::create_mmap_loader(fd))];
      [None] when [open] fails. *)
  fs_open : string -> option (outcome elf);
  fs_exists : string -> bool;                 (* boost::filesystem::exists *)
  fs_canonical : string -> outcome string;    (* boost::filesystem::canonical *)
  env_PATH : string                           (* getenv("PATH"), taken as set *)
}.

(** [path(a) / b] *)
Definition path_append (a b : string) : string :=
  if (strlen a =? 0)%nat then b
  else if (strlen b =? 0)%nat then a
  else if last_char_is "/"%char a || first_char_is "/"%char b then a ++ b
  else a ++ "/" ++ b.

Fixpoint search_PATH (w : world) (dirs : list string) (filename : string) : string :=
  match dirs with
  | [] => EmptyString
  | dir :: rest =>
      let p := path_append dir filename in
      if fs_exists w p then p else search_PATH w rest filename
  end.

Definition get_full_path (w : world) (filename : string) : outcome string :=
  if first_char_is "/"%char filename then Returns filename
  else match find_char "/"%char filename with
       | Some _ => fs_canonical w filename
       | None => Returns (search_PATH w (split_on ":"%char (env_PATH w)) filename)
       end.

(** The paths at which a separate debug file is looked for. *)
Definition build_id_paths (build_id : string) : list string :=
  if (0 <? strlen build_id)%nat then
    let prefix := substr_to 2 build_id in
    let suffix := substr_from 2 build_id in
    [path_append (path_append "/usr/lib/debug/.build-id" prefix) (suffix ++ ".debug")]
  else [].

Definition debug_link_paths (directory : string) (link_section : option section)
    : outcome (list string) :=
  match link_section with
  | Some sec =>
      (link_name <- c_string (sec_data sec) ;;
       Returns [directory ++ "/" ++ link_name;
                directory ++ "/.debug/" ++ link_name;
                "/usr/lib/debug" ++ directory ++ "/" ++ link_name])%outcome
  | None => Returns []
  end.

(** The loop over [search_paths]. *)
Fixpoint try_search_paths (w : world) (paths : list string) : outcome (option elf) :=
  match paths with
  | [] => Returns None
  | path :: rest =>
      match fs_open w path with
      | Some loaded =>
          (f <- loaded ;;
           if has_debug_info f then Returns (Some f) else try_search_paths w rest)%outcome
      | None => try_search_paths w rest
      end
  end.

(** The result is [None] for the ELF file that is not [valid()]. *)
Definition locate_debug_executable (w : world) (filename : string)
    : outcome (option elf) :=
  (full_path <- get_full_path w filename ;;
   if (strlen full_path =? 0)%nat then Returns None
   else match fs_open w full_path with
        | None => Returns None
        | Some loaded =>
            f <- loaded ;;
            if has_debug_info f then Returns (Some f)
            else
              let link_section := get_section f ".gnu_debuglink" in
              let directory :=
                match find_last_of "/"%char full_path with
                | Some p => substr_to p full_path
                | None => full_path
                end in
              build_id <- find_build_id f ;;
              link_paths <- debug_link_paths directory link_section ;;
              let search_paths := (build_id_paths build_id ++ link_paths)%list in
              try_search_paths w search_paths
        end)%outcome.
End Locate.


(* ================================================================== *)
(** ** Scope test, attribute search, walkers *)

(** The state of the index after a call, with the way the call ended: an
    exception leaves the ranges added so far in place. *)
Definition effect (A : Type) : Type := outcome A * memory_map.

Section Walkers.
Local Open Scope string_scope.

(** [path(p).normalize().string()] of boost::filesystem. *)
Variable normalize : string -> string.

Fixpoint in_scope (file : string) (scope : list string) : bool :=
  match scope with
  | [] => false
  | s :: rest =>
      match string_find s (normalize file) with
      | Some O => true
      | _ => in_scope file rest
      end
  end.

Fixpoint find_attribute (d : die) (attr : DW_AT) : option value :=
  match d with
  | invalid_die => None
  | Die _ attrs origin spec _ =>
      match lookup_attr attr attrs with
      | Some v => Some v
      | None =>
          let via_origin :=
            match origin with
            | Some child => find_attribute child attr
            | None => None
            end in
          match via_origin with
          | Some v => Some v
          | None =>
              match spec with
              | Some child => find_attribute child attr
              | None => None
              end
          end
      end
  end.

(** The attributes of an inlined subroutine as [process_inlines] reads
    them. *)
Record inline_site := mk_site {
  site_name : string;
  site_decl_file : string;
  site_decl_line : Z;
  site_call_file : string;
  site_call_line : Z
}.

Definition file_of_index (table : line_table) (v : option value) : outcome string :=
  match v with
  | Some fv =>
      if table_valid table
      then (i <- as_uconstant fv ;; table_get_file table i)%outcome
      else Returns EmptyString
  | None => Returns EmptyString
  end.

Definition resolve_inline (d : die) (table : line_table) : outcome inline_site :=
  (name <- match find_attribute d AT_name with
           | Some v => as_string v
           | None => Returns EmptyString
           end ;;
   decl_file <- file_of_index table (find_attribute d AT_decl_file) ;;
   decl_line <- match find_attribute d AT_decl_line with
                | Some v => as_uconstant v
                | None => Returns 0
                end ;;
   call_file <- file_of_index table (own_attr d AT_call_file) ;;
   call_line <- match own_attr d AT_call_line with
                | Some v => as_uconstant v
                | None => Returns 0
                end ;;
   Returns (mk_site name decl_file decl_line call_file call_line))%outcome.

(** A program-counter bound in one of its three encodings; with any other
    type the variable is read without having been set. *)
Definition pc_of_value (v : value) : outcome Z :=
  match v with
  | V_address a => Returns a
  | V_uconstant n => Returns n
  | V_sconstant n => Returns (wrap64 n)
  | _ => Undefined
  end.

(** The calls of [add_range] that one inlined subroutine gives rise to.
    Every accessor that can raise runs before the first call. *)
Definition inline_entries (d : die) (table : line_table) (scope : list string)
    (load_address : Z) : outcome (list range_entry) :=
  (site <- resolve_inline d table ;;
   let decl_file := site_decl_file site in
   let call_file := site_call_file site in
   let call_line := site_call_line site in
   if (0 <? strlen decl_file)%nat && (0 <? strlen call_file)%nat then
     if negb (in_scope decl_file scope) && in_scope call_file scope then
       match find_attribute d AT_ranges with
       | Some ranges_val =>
           rs <- as_rangelist ranges_val ;;
           Returns (List.map (fun r =>
                      (call_file, call_line,
                       interval_shift (mk_interval (fst r) (snd r)) load_address)) rs)
       | None =>
           match find_attribute d AT_low_pc, find_attribute d AT_high_pc with
           | Some low_pc_val, Some high_pc_val =>
               low_pc <- pc_of_value low_pc_val ;;
               high_pc <- pc_of_value high_pc_val ;;
               Returns [(call_file, call_line,
                         interval_shift (mk_interval low_pc high_pc) load_address)]
           | _, _ => Returns []
           end
       end
     else Returns []
   else Returns [])%outcome.

Fixpoint process_inlines (d : die) (table : line_table) (scope : list string)
    (load_address : Z) (m : memory_map) {struct d} : effect unit :=
  match d with
  | invalid_die => (Returns tt, m)
  | Die tag _ _ _ children =>
      let here :=
        match tag with
        | TAG_inlined_subroutine => inline_entries d table scope load_address
        | _ => Returns []
        end in
      match here with
      | Returns es =>
          (fix each (cs : list die) (m : memory_map) {struct cs} : effect unit :=
             match cs with
             | [] => (Returns tt, m)
             | child :: cs' =>
                 match process_inlines child table scope load_address m with
                 | (Returns _, m') => each cs' m'
                 | stopped => stopped
                 end
             end) children (add_ranges m es)
      | Throws e => (Throws e, m)
      | Undefined => (Undefined, m)
      end
  end.

(** The variables of the loop over the rows of a line table. *)
Record walk_state := mk_walk {
  prev_filename : string;
  prev_line : Z;
  prev_address : Z
}.

Definition walk_start : walk_state := mk_walk EmptyString 0 0.

(** The range that the row [cur] closes, if any. *)
Definition row_entry (scope : list string) (load_address : Z) (st : walk_state)
    (cur : line_entry) : list range_entry :=
  if negb (prev_address st =? 0)%Z && in_scope (prev_filename st) scope then
    [(prev_filename st, prev_line st,
      interval_shift (mk_interval (prev_address st) (row_address cur)) load_address)]
  else [].

Definition next_state (st : walk_state) (cur : line_entry) : walk_state :=
  if row_end_sequence cur then mk_walk (prev_filename st) (prev_line st) 0
  else mk_walk (normalize (row_file_path cur)) (row_line cur) (row_address cur).

Fixpoint walk_rows (scope : list string) (load_address : Z) (st : walk_state)
    (rows : list line_entry) (m : memory_map) : memory_map :=
  match rows with
  | [] => m
  | cur :: rest =>
      walk_rows scope load_address (next_state st cur) rest
                (add_ranges m (row_entry scope load_address st cur))
  end.

(** The calls of [add_range] made over the rows, in order. *)
Fixpoint line_table_entries (scope : list string) (load_address : Z)
    (st : walk_state) (rows : list line_entry) : list range_entry :=
  match rows with
  | [] => []
  | cur :: rest =>
      (row_entry scope load_address st cur
       ++ line_table_entries scope load_address (next_state st cur) rest)%list
  end.

Definition process_unit (scope : list string) (load_address : Z)
    (cu : compilation_unit) (m : memory_map) : effect unit :=
  let table := unit_line_table cu in
  process_inlines (unit_root cu) table scope load_address
    (walk_rows scope load_address walk_start (table_rows table) m).

Fixpoint process_units (scope : list string) (load_address : Z)
    (units : list compilation_unit) (m : memory_map) : effect unit :=
  match units with
  | [] => (Returns tt, m)
  | cu :: rest =>
      match process_unit scope load_address cu m with
      | (Returns _, m') => process_units scope load_address rest m'
      | stopped => stopped
      end
  end.

Definition process_file (w : world) (name : string) (load_address : Z)
    (scope : list string) (m : memory_map) : effect bool :=
  match locate_debug_executable w name with
  | Returns None => (Returns false, m)
  | Returns (Some f) =>
      match elf_dwarf f with
      | Returns units =>
          match process_units scope load_address units m with
          | (Returns _, m') => (Returns true, m')
          | (Throws e, m') => (Throws e, m')
          | (Undefined, m') => (Undefined, m')
          end
      | Throws e => (Throws e, m)
      | Undefined => (Undefined, m)
      end
  | Throws e => (Throws e, m)
  | Undefined => (Undefined, m)
  end.
End Walkers.

(* ================================================================== *)
(** ** The module enumerator *)

(** The fields that one call of [fscanf] on /proc/self/maps stores. *)
Record mapping := mk_mapping {
  map_base : Z;
  map_limit : Z;
  map_perms : string;
  map_offset : Z;
  map_dev_major : Z;
  map_dev_minor : Z;
  map_inode : Z;
  map_path : string
}.

(** One call of [fscanf]: the count it returns and the fields it stored.
    The stream is the list of the calls that can be made on it; at its end
    [fscanf] returns [EOF]. *)
Definition scan_result : Type := Z * mapping.

Definition char_at (n : nat) (s : string) : ascii :=
  match String.get n s with Some c => c | None => Ascii.zero end.

Definition is_executable_mapping (rc : Z) (r : mapping) : bool :=
  (rc =? 8) && (map_offset r =? 0)
  && Ascii.eqb (char_at 2 (map_perms r)) "x"%char
  && first_char_is "/"%char (map_path r).

(** The [do ... while(rc == 8)] loop. *)
Fixpoint read_mappings (include_libs : bool) (stream : list scan_result)
    (result : StdMap.t string Z) : StdMap.t string Z :=
  if negb include_libs && (StdMap.size result =? 1) then result
  else match stream with
       | [] => result
       | (rc, r) :: rest =>
           let result' :=
             if is_executable_mapping rc r
             then StdMap.assign String.ltb (map_path r) (map_base r) result
             else result in
           if rc =? 8 then read_mappings include_libs rest result' else result'
       end.

(** [maps] is what [fopen("/proc/self/maps", "r")] gives: [None] is the null
    pointer, which the code hands to [fscanf] and [fclose] unchecked. *)
Definition get_loaded_files (maps : option (list scan_result)) (include_libs : bool)
    : outcome (StdMap.t string Z) :=
  match maps with
  | None => Undefined
  | Some stream => Returns (read_mappings include_libs stream StdMap.empty)
  end.

(* ================================================================== *)
(** ** build *)

Section Build.
Variable normalize : string -> string.

(** The loop of [build]: only [std::system_error] is caught. *)
Fixpoint process_modules (w : world) (scope : list string)
    (modules : list (string * Z)) (m : memory_map) : effect unit :=
  match modules with
  | [] => (Returns tt, m)
  | (name, base) :: rest =>
      match process_file normalize w name base scope m with
      | (Returns _, m') => process_modules w scope rest m'
      | (Throws e, m') =>
          if is_system_error e then process_modules w scope rest m'
          else (Throws e, m')
      | (Undefined, m') => (Undefined, m')
      end
  end.

Definition build (w : world) (maps : option (list scan_result))
    (scope : list string) (include_libs : bool) (m : memory_map) : effect unit :=
  match get_loaded_files maps include_libs with
  | Returns modules => process_modules w scope modules m
  | Throws e => (Throws e, m)
  | Undefined => (Undefined, m)
  end.
End Build.

(* ================================================================== *)
(** ** find_line by name *)

(** The loop over [files()].  [line_no] is [None] while the variable has not
    been written; the loop reads it, to pass it to [has_line], at the first
    File whose path ends with [filename], and reading it unwritten has no
    defined result. *)
Fixpoint find_in_files (files : StdMap.t string file) (filename : string)
    (line_no : option Z) : outcome (option line) :=
  match files with
  | [] => Returns None
  | (path, f) :: rest =>
      match string_rfind filename path with
      | Some last_pos =>
          if (last_pos + strlen filename =? strlen path)%nat then
            match line_no with
            | Some n =>
                if has_line f n then Returns (Some (snd (get_line f n)))
                else find_in_files rest filename line_no
            | None => Undefined
            end
          else find_in_files rest filename line_no
      | None => find_in_files rest filename line_no
      end
  end.

(** [memory_map::find_line(const string&)].  [size_t line_no;] has no
    initializer, and the extraction writes it only when the text after the
    colon holds something other than white space. *)
Definition find_line_name (m : memory_map) (name : string) : outcome (option line) :=
  match find_char ":"%char name with
  | None => Returns None
  | Some colon_pos =>
      let filename := substr_to colon_pos name in
      let line_no_str := substr_from (colon_pos + 1) name in
      let line_no := parse_size_t line_no_str in
      find_in_files (_files m) filename line_no
  end.

(* ================================================================== *)
(** ** A lexical normalisation

    A reading of [path::normalize] for the worked inputs below: empty and
    [.] components are dropped, a [..] removes the component before it, and
    the leading separator of an absolute path is kept. *)

Section LexicallyNormal.
Local Open Scope string_scope.

Definition normal_step (absolute : bool) (acc : list string) (c : string)
    : list string :=
  if (c =? EmptyString) || (c =? ".") then acc
  else if c =? ".." then
    match acc with
    | x :: acc' => if x =? ".." then c :: acc else acc'
    | [] => if absolute then [] else [c]
    end
  else c :: acc.

Definition lexically_normal (p : string) : string :=
  let absolute := first_char_is "/"%char p in
  let kept := rev (fold_left (normal_step absolute) (split_on "/"%char p) []) in
  let body := String.concat "/" kept in
  if absolute then "/" ++ body
  else if body =? EmptyString then "." else body.
End LexicallyNormal.

(* ================================================================== *)
(** ** Predicates used in the statements *)

(** A range whose ends are addresses, the lower one first. *)
Definition well_formed (r : interval) : Prop :=
  0 <= _base r /\ _base r <= _limit r /\ _limit r < two64.

(** Two ranges that the order of [_ranges] tells apart: one ends at or
    before the start of the other. *)
Definition disjoint (a b : interval) : Prop :=
  interval_lt a b = true \/ interval_lt b a = true.

Definition entry_range (e : range_entry) : interval := snd e.

(** The insertions that [_ranges] retains, in the order of the calls: an
    insertion is kept when the order tells its range apart from the range
    of every insertion kept before it, and is dropped otherwise. *)
Definition ordered_against (kept : list range_entry) (r : interval) : bool :=
  forallb (fun e => interval_lt (entry_range e) r || interval_lt r (entry_range e)) kept.

Fixpoint retained_after (kept es : list range_entry) : list range_entry :=
  match es with
  | [] => kept
  | e :: rest =>
      if ordered_against kept (entry_range e) then retained_after (kept ++ [e]) rest
      else retained_after kept rest
  end.

Definition retained (es : list range_entry) : list range_entry := retained_after [] es.

(** Every File is stored under its own name and every Line under its own
    number. *)
Definition lines_named (m : memory_map) : Prop :=
  forall path f, In (path, f) (_files m) ->
    file_name f = path /\
    forall n l, In (n, l) (_lines f) -> l = mk_line path n.

(** The entries of [_ranges] are in ascending order and none is reversed. *)
Definition ranges_sorted (rs : StdMap.t interval line) : Prop :=
  StronglySorted (fun x y => interval_lt (fst x) (fst y) = true) rs /\
  Forall (fun x => well_formed (fst x)) rs.

Definition is_suffix (pat s : string) : Prop := exists pre, s = (pre ++ pat)%string.

(** A decimal numeral: a non-empty list of digits, most significant first,
    the text that spells it, and the number that it denotes. *)
Definition is_numeral (digits : list Z) : Prop :=
  digits <> [] /\ Forall (fun d => 0 <= d <= 9) digits.

Definition digit_char (d : Z) : ascii := ascii_of_N (Z.to_N (48 + d)).

Fixpoint numeral_string (digits : list Z) : string :=
  match digits with
  | [] => EmptyString
  | d :: rest => String (digit_char d) (numeral_string rest)
  end.

Definition numeral_value (digits : list Z) : Z :=
  fold_left (fun acc d => 10 * acc + d) digits 0.

(** Two insertions of ranges that share addresses. *)
Definition overlapping_entries : list range_entry :=
  [("/src/a.c"%string, 10, mk_interval 4096 4128);
   ("/src/b.c"%string, 20, mk_interval 4112 4144)].

(** The File /src/project/foo.cpp with its line 10. *)
Definition foo_index : memory_map :=
  add_range empty_map "/src/project/foo.cpp" 10 (mk_interval 4096 4128).

(** The order in which [find_attribute] visits entries: the entry, what its
    abstract origin leads to, then what its specification leads to. *)
Fixpoint search_order (d : die) : list die :=
  match d with
  | invalid_die => []
  | Die _ _ origin spec _ =>
      d :: (match origin with Some c => search_order c | None => [] end)
        ++ (match spec with Some c => search_order c | None => [] end)
  end.

(** The attribute of the first entry of a list that bears it. *)
Fixpoint first_bearer (attr : DW_AT) (ds : list die) : option value :=
  match ds with
  | [] => None
  | d :: rest =>
      match own_attr d attr with
      | Some v => Some v
      | None => first_bearer attr rest
      end
  end.

(** An inlined call of [vec_get], declared at /usr/include/v.h:42.  The
    call-line attribute sits on the abstract origin, not on the entry. *)
Definition vec_get_origin : die :=
  Die TAG_subprogram
      [(AT_name, V_string "vec_get"); (AT_decl_file, V_uconstant 1);
       (AT_decl_line, V_uconstant 42); (AT_call_line, V_uconstant 7)]
      None None [].

Definition inlined_without_call_line : die :=
  Die TAG_inlined_subroutine
      [(AT_low_pc, V_address 4104); (AT_high_pc, V_address 4112)]
      (Some vec_get_origin) None [].

(** A compilation unit of /src/./a.c loaded at 0x400000: line 10 at
    [0x1000, 0x1008), the inlined body of [vec_get] at [0x1008, 0x1010),
    line 11 at [0x1010, 0x1020). *)
Definition sample_rows : list line_entry :=
  [mk_row 4096 "/src/./a.c" 10 false;
   mk_row 4104 "/usr/include/v.h" 42 false;
   mk_row 4112 "/src/./a.c" 11 false;
   mk_row 4128 "/src/./a.c" 11 true].

Definition sample_table : line_table :=
  mk_table true ["/src/./a.c"%string; "/usr/include/v.h"%string] sample_rows.

Definition inlined_vec_get : die :=
  Die TAG_inlined_subroutine
      [(AT_call_file, V_uconstant 0); (AT_call_line, V_uconstant 10);
       (AT_low_pc, V_address 4104); (AT_high_pc, V_address 4112)]
      (Some vec_get_origin) None [].

Definition sample_unit : compilation_unit :=
  mk_unit sample_table (Die TAG_compile_unit [] None None [inlined_vec_get]).

(** The entry that the row [cur] closes when [p] is the row before it. *)
Definition closes (normalize : string -> string) (scope : list string)
    (load_address : Z) (p cur : line_entry) (e : range_entry) : Prop :=
  row_end_sequence p = false /\ row_address p <> 0 /\
  in_scope normalize (normalize (row_file_path p)) scope = true /\
  e = (normalize (row_file_path p), row_line p,
       interval_shift (mk_interval (row_address p) (row_address cur)) load_address).

(** The directory part of a path, as [locate_debug_executable] cuts it. *)
Definition directory_of (full_path : string) : string :=
  match find_last_of "/"%char full_path with
  | Some p => substr_to p full_path
  | None => full_path
  end.

(** The bytes of the characters of a text. *)
Definition string_bytes (s : string) : list Z :=
  List.map (fun c => Z.of_N (N_of_ascii c)) (list_ascii_of_string s).

(** The name that the debug-link section of an image holds: the section
    starts with the characters of the name, none of them NUL, and a NUL
    byte; an image without the section holds no name. *)
Definition debug_link_name (f : elf) (link : option string) : Prop :=
  match get_section f ".gnu_debuglink" with
  | Some sec =>
      exists name tail,
        link = Some name /\ ~ In Ascii.zero (list_ascii_of_string name) /\
        sec_data sec = string_bytes name ++ 0 :: tail
  | None => link = None
  end.

(** The fallback candidates in the words of the specification: the build-id
    path when there is a build id, then the three debug-link paths when
    there is a link name. *)
Definition fallback_candidates (build_id directory : string)
    (link_name : option string) : list string :=
  let build_id_candidate : list string :=
    match build_id with
    | EmptyString => []
    | _ => [("/usr/lib/debug/.build-id/" ++ substr_to 2 build_id ++ "/"
             ++ substr_from 2 build_id ++ ".debug")%string]
    end in
  let debug_link_candidates : list string :=
    match link_name with
    | Some name =>
        [(directory ++ "/" ++ name)%string;
         (directory ++ "/.debug/" ++ name)%string;
         ("/usr/lib/debug" ++ directory ++ "/" ++ name)%string]
    | None => []
    end in
  build_id_candidate ++ debug_link_candidates.

(** The first candidate that opens and contains a debug-info section. *)
Fixpoint first_usable (w : world) (paths : list string) : option elf :=
  match paths with
  | [] => None
  | p :: rest =>
      match fs_open w p with
      | Some (Returns f) => if has_debug_info f then Some f else first_usable w rest
      | _ => first_usable w rest
      end
  end.

(** A candidate that the loop over the search paths passes over: it does
    not open, or it loads and holds no debug-info section. *)
Definition passed_over (w : world) (p : string) : Prop :=
  fs_open w p = None \/
  exists g, fs_open w p = Some (Returns g) /\ has_debug_info g = false.

(** A note of a note section: its type, the bytes of its name and the bytes
    of its descriptor.  A note is laid out as three little-endian words (the
    size of the name, the size of the descriptor, the type) followed by the
    name and the descriptor, and the notes of a section follow one another;
    this is the layout of the ELF format for names and descriptors whose
    sizes are multiples of 4, which the format does not pad. *)
Record note := mk_note {
  note_type : Z;
  note_name : list Z;
  note_desc : list Z
}.

Definition two32 : Z := 2 ^ 32.

Definition is_byte (b : Z) : Prop := 0 <= b < 256.

Definition le32 (v : Z) : list Z :=
  [v mod 256; v / 256 mod 256; v / 256 / 256 mod 256; v / 256 / 256 / 256 mod 256].

Definition encode_note (n : note) : list Z :=
  le32 (Z.of_nat (List.length (note_name n)))
  ++ le32 (Z.of_nat (List.length (note_desc n)))
  ++ le32 (note_type n)
  ++ note_name n ++ note_desc n.

Definition encode_notes (ns : list note) : list Z := flat_map encode_note ns.

Definition note_ok (n : note) : Prop :=
  0 <= note_type n < two32 /\
  Z.of_nat (List.length (note_name n)) < two32 /\
  Z.of_nat (List.length (note_desc n)) < two32 /\
  Forall is_byte (note_name n) /\ Forall is_byte (note_desc n).

(** The notes that a section holds: none for a section of another type. *)
Definition section_notes (s : section) (ns : list note) : Prop :=
  match sec_type s with
  | sht_note => sec_data s = encode_notes ns /\ Forall note_ok ns
  | sht_other => ns = []
  end.

(** The notes of an image, section by section in the order of the sections. *)
Definition image_notes (f : elf) (notes : list (list note)) : Prop :=
  Forall2 section_notes (elf_sections f) notes.

(** The descriptor of the first build-id note of a list of notes. *)
Fixpoint first_build_id (ns : list note) : option (list Z) :=
  match ns with
  | [] => None
  | n :: rest =>
      if note_type n =? NT_GNU_BUILD_ID then Some (note_desc n)
      else first_build_id rest
  end.

(** Bytes in lowercase hexadecimal, two digits to a byte. *)
Fixpoint hex_string (bytes : list Z) : string :=
  match bytes with
  | [] => EmptyString
  | b :: rest => (hex_byte b ++ hex_string rest)%string
  end.

(** The build id of an image in the words of the specification: the
    descriptor of the first build-id note in hexadecimal, the empty text
    when no section holds a build-id note. *)
Definition build_id_text (notes : list (list note)) : string :=
  match first_build_id (List.concat notes) with
  | Some desc => hex_string desc
  | None => EmptyString
  end.

(** A build id: empty, or two characters that are no separators followed by
    a rest that starts with none. *)
Definition hex_shaped (s : string) : Prop :=
  s = EmptyString \/
  exists c1 c2 rest,
    s = String c1 (String c2 rest) /\
    Ascii.eqb c1 "/"%char = false /\ Ascii.eqb c2 "/"%char = false /\
    first_char_is "/"%char (rest ++ ".debug") = false.

(** A stripped executable with a build-id note (ab cd ef) and a debug link
    to tool.debug; the debug file beside it in .debug/; a file without
    debug information; the file system that holds them. *)
Definition stripped_tool : elf :=
  mk_elf [mk_section ".note.gnu.build-id" sht_note
            [4; 0; 0; 0; 3; 0; 0; 0; 3; 0; 0; 0; 71; 78; 85; 0; 171; 205; 239];
          mk_section ".gnu_debuglink" sht_other
            [116; 111; 111; 108; 46; 100; 101; 98; 117; 103; 0; 0; 18; 52; 86; 120]]
         (Throws dwarf_format_error).

Definition tool_debug : elf :=
  mk_elf [mk_section ".debug_info" sht_other []] (Returns [sample_unit]).

Definition no_debug : elf := mk_elf [] (Throws dwarf_format_error).

Definition sample_world : world :=
  mk_world
    (fun path =>
       if path =? "/opt/app/bin/tool" then Some (Returns stripped_tool)
       else if path =? "/opt/app/bin/tool.debug" then Some (Returns no_debug)
       else if path =? "/opt/app/bin/.debug/tool.debug" then Some (Returns tool_debug)
       else if path =? "/opt/app/bin/bad" then Some (Throws elf_format_error)
       else if path =? "/opt/app/bin/mmapfail" then Some (Throws std_system_error)
       else None)%string
    (fun _ => false)
    (fun path => Throws filesystem_error)
    "/usr/bin:/bin".

(** The notes of [stripped_tool], section by section. *)
Definition stripped_tool_notes : list (list note) :=
  [[mk_note 3 [71; 78; 85; 0] [171; 205; 239]]; []].

(** The file system of [sample_world] with, beside the executable, a file
    tool.debug that opens and that the ELF reader rejects. *)
Definition raising_world : world :=
  mk_world
    (fun path =>
       if path =? "/opt/app/bin/tool" then Some (Returns stripped_tool)
       else if path =? "/opt/app/bin/tool.debug" then Some (Throws elf_format_error)
       else if path =? "/opt/app/bin/.debug/tool.debug" then Some (Returns tool_debug)
       else None)%string
    (fun _ => false)
    (fun path => Throws filesystem_error)
    "/usr/bin:/bin".

(** An image as a linker writes it: the null section, a note section with
    the ABI tag, a note section with a property note and the build-id
    note (ab cd ef 01 23 45 67 89). *)
Definition abi_tag_note : note :=
  mk_note 1 [71; 78; 85; 0] [0; 0; 0; 0; 3; 0; 0; 0; 2; 0; 0; 0; 0; 0; 0; 0].

Definition property_note : note :=
  mk_note 5 [71; 78; 85; 0] [2; 0; 0; 192; 4; 0; 0; 0; 3; 0; 0; 0; 0; 0; 0; 0].

Definition build_id_note : note :=
  mk_note 3 [71; 78; 85; 0] [171; 205; 239; 1; 35; 69; 103; 137].

Definition linked_image_notes : list (list note) :=
  [[]; [abi_tag_note]; [property_note; build_id_note]; []].

Definition linked_image : elf :=
  mk_elf [mk_section EmptyString sht_other [];
          mk_section ".note.ABI-tag" sht_note (encode_notes [abi_tag_note]);
          mk_section ".note.gnu" sht_note (encode_notes [property_note; build_id_note]);
          mk_section ".text" sht_other [85; 72; 137; 229]]
         (Throws dwarf_format_error).

(** The (path, base) pairs that the loop of [get_loaded_files] stores, in
    the order of the stream; the loop ends at the first record that
    [fscanf] does not read in full. *)
Fixpoint candidates (stream : list scan_result) : list (string * Z) :=
  match stream with
  | [] => []
  | (rc, r) :: rest =>
      if rc =? 8 then
        (if is_executable_mapping rc r then [(map_path r, map_base r)] else [])
        ++ candidates rest
      else []
  end.

(** The enumeration in the words of the specification: insertion order of
    the first occurrence of each path, with the base of that occurrence. *)
Fixpoint first_occurrences (cs : list (string * Z)) : list (string * Z) :=
  match cs with
  | [] => []
  | (path, base) :: rest =>
      (path, base)
      :: List.filter (fun c => negb (String.eqb (fst c) path)) (first_occurrences rest)
  end.

(** The base of the last occurrence of a path. *)
Definition last_base (path : string) (cs : list (string * Z)) : option Z :=
  option_map snd (List.find (fun c => String.eqb (fst c) path) (rev cs)).

Definition paths_ascending (ms : StdMap.t string Z) : Prop :=
  StronglySorted (fun x y => String.ltb (fst x) (fst y) = true) ms.

(** A mapping table in which /usr/bin/app is mapped twice. *)
Definition executable_mapping (base : Z) (path : string) : scan_result :=
  (8, mk_mapping base (base + 4096) "r-xp" 0 8 1 1234 path).

Definition sample_maps : list scan_result :=
  [executable_mapping 4194304 "/usr/bin/app";
   executable_mapping 8323072 "/lib/libc.so";
   executable_mapping 6291456 "/usr/bin/app"].

(** Mapping tables over [sample_world]: a module that is no ELF file, or
    one that cannot be mapped, ahead of a module with debug information. *)
Definition bad_then_tool : list scan_result :=
  [executable_mapping 4194304 "/opt/app/bin/bad";
   executable_mapping 8323072 "/opt/app/bin/tool"].

Definition mmapfail_then_tool : list scan_result :=
  [executable_mapping 4194304 "/opt/app/bin/mmapfail";
   executable_mapping 8323072 "/opt/app/bin/tool"].

(** The file name of a call of [add_range]. *)
Definition entry_file (e : range_entry) : string := fst (fst e).

(** A File stored under [path]: it bears that name, holds every line number
    once, in ascending order, and every Line records the name and its
    number. *)
Definition file_ok (path : string) (f : file) : Prop :=
  file_name f = path /\
  StronglySorted (fun x y => Z.ltb (fst x) (fst y) = true) (_lines f) /\
  forall n l, In (n, l) (_lines f) -> l = mk_line path n.

(** The File and Line records of an index: every File is stored once, under
    its own name, in ascending order of the names. *)
Definition registry_ok (m : memory_map) : Prop :=
  StronglySorted (fun x y => String.ltb (fst x) (fst y) = true) (_files m) /\
  forall path f, In (path, f) (_files m) -> file_ok path f.

(** Every Line that a range maps to is the Line that its File holds under
    its number. *)
Definition ranges_registered (m : memory_map) : Prop :=
  forall r l, In (r, l) (_ranges m) ->
    exists f, StdMap.find String.ltb (line_file l) (_files m) = Some f /\
              StdMap.find Z.ltb (line_number l) (_lines f) = Some l.

(** A line table whose addresses never decrease and stay, once shifted by
    the load base, within the address space. *)
Definition ascending_rows (load_address : Z) (rows : list line_entry) : Prop :=
  StronglySorted (fun a b => row_address a <= row_address b) rows /\
  Forall (fun r => 0 <= row_address r /\ row_address r + load_address < two64) rows.

(** The value of a lowercase hexadecimal digit, and the bytes that a string
    of such digits spells, two digits to a byte. *)
Definition hex_value (c : ascii) : option Z :=
  let n := Z.of_N (N_of_ascii c) in
  if (48 <=? n) && (n <=? 57) then Some (n - 48)
  else if (97 <=? n) && (n <=? 102) then Some (n - 87)
  else None.

Fixpoint decode_hex (s : string) : option (list Z) :=
  match s with
  | EmptyString => Some []
  | String hi (String lo rest) =>
      match hex_value hi, hex_value lo, decode_hex rest with
      | Some h, Some l, Some bytes => Some (16 * h + l :: bytes)
      | _, _, _ => None
      end
  | String _ EmptyString => None
  end.

(** The index [m'] is [m] after calls of [add_range] for files that pass
    the scope test. *)
Definition grows_in_scope (normalize : string -> string) (scope : list string)
    (m m' : memory_map) : Prop :=
  exists es, m' = add_ranges m es /\
             Forall (fun e => in_scope normalize (entry_file e) scope = true) es.

(** The inlined subroutines of a tree of entries, in document order
    (an entry before its children, the children from first to last). *)
Fixpoint inlined_nodes (d : die) : list die :=
  match d with
  | invalid_die => []
  | Die tag _ _ _ children =>
      (match tag with TAG_inlined_subroutine => [d] | _ => [] end)
      ++ (fix each (cs : list die) : list die :=
            match cs with
            | [] => []
            | child :: cs' => inlined_nodes child ++ each cs'
            end) children
  end.

(** The entries of one inlined subroutine, none when reading it raises. *)
Definition entries_of (normalize : string -> string) (table : line_table)
    (scope : list string) (load_address : Z) (d : die) : list range_entry :=
  match inline_entries normalize d table scope load_address with
  | Returns es => es
  | _ => []
  end.

(** A subprogram that holds, inside a lexical block, the inlined call of
    [vec_get] of [sample_unit]. *)
Definition nested_root : die :=
  Die TAG_compile_unit [] None None
      [Die TAG_subprogram [(AT_name, V_string "main")] None None
           [Die TAG_other [] None None [inlined_vec_get]]].

(* ================================================================== *)
(** * Properties *)

(** ** std::map *)

Section StdMapFacts.
Variables K V : Type.
Variable lt : K -> K -> bool.
Implicit Types (k : K) (v : V) (m : StdMap.t K V) (x : K * V).

Lemma find_Some_In k v m :
  StdMap.find lt k m = Some v ->
  exists k', In (k', v) m /\ lt k' k = false /\ lt k k' = false.
Proof.
  induction m as [|[k' v'] m IH]; simpl; [discriminate|].
  destruct (lt k' k) eqn:E1.
  - intros H. destruct (IH H) as (k0 & Hin & H1 & H2). eauto.
  - destruct (lt k k') eqn:E2; [discriminate|].
    intros [= ->]. exists k'. auto.
Qed.

Lemma In_emplace k v m x :
  In x (StdMap.emplace lt k v m) -> x = (k, v) \/ In x m.
Proof.
  induction m as [|[k' v'] m IH]; simpl.
  - intros [<-|[]]. now left.
  - destruct (lt k k'); [|destruct (lt k' k)]; simpl.
    + intros [<-|[<-|H]]; auto.
    + intros [<-|H]; auto. destruct (IH H); auto.
    + intros [<-|H]; auto.
Qed.

Lemma emplace_keeps k v m x : In x m -> In x (StdMap.emplace lt k v m).
Proof.
  induction m as [|[k' v'] m IH]; simpl; [tauto|].
  destruct (lt k k'); [|destruct (lt k' k)]; simpl; intuition.
Qed.

(** A key that is ordered against every entry is inserted. *)
Lemma emplace_new k v m :
  (forall x, In x m -> lt k (fst x) = true \/ lt (fst x) k = true) ->
  In (k, v) (StdMap.emplace lt k v m).
Proof.
  induction m as [|[k' v'] m IH]; simpl; intros H; [now left|].
  destruct (lt k k') eqn:E1; [now left|].
  destruct (H (k', v')) as [E|E]; [now left| |]; simpl in E.
  - congruence.
  - rewrite E. right. apply IH. intros x Hx. apply H. now right.
Qed.

Lemma In_replace k v m x :
  In x (StdMap.replace lt k v m) ->
  In x m \/ exists k', x = (k', v) /\ lt k' k = false /\ lt k k' = false.
Proof.
  induction m as [|[k' v'] m IH]; simpl; [tauto|].
  destruct (lt k' k) eqn:E1; [|destruct (lt k k') eqn:E2]; simpl.
  - intros [<-|H]; auto. destruct (IH H) as [?|?]; auto.
  - intros [<-|H]; auto.
  - intros [<-|H]; auto. right. eauto.
Qed.
End StdMapFacts.

(** ** Orders on the keys *)

Lemma string_ltb_irrefl (s : string) : String.ltb s s = false.
Proof.
  unfold String.ltb.
  destruct (String.compare s s) eqn:E; auto.
  pose proof (String.compare_antisym s s) as H. rewrite E in H. discriminate.
Qed.

Lemma string_ltb_total (a b : string) :
  String.ltb a b = false -> String.ltb b a = false -> a = b.
Proof.
  unfold String.ltb. rewrite (String.compare_antisym b a).
  destruct (String.compare a b) eqn:E; simpl; try discriminate.
  intros _ _. now apply String.compare_eq_iff.
Qed.

Lemma Z_ltb_total (a b : Z) : (a <? b) = false -> (b <? a) = false -> a = b.
Proof. intros H1 H2. apply Z.ltb_ge in H1, H2. lia. Qed.

Lemma two64_pos : 0 < two64.
Proof. reflexivity. Qed.

Lemma wrap64_small (z : Z) : is_uintptr z -> wrap64 z = z.
Proof. intros H. apply Z.mod_small. exact H. Qed.

(** ** add_range *)

Lemma get_file_named (m : memory_map) (filename : string) :
  lines_named m ->
  lines_named (fst (get_file m filename)) /\
  _ranges (fst (get_file m filename)) = _ranges m /\
  file_name (snd (get_file m filename)) = filename /\
  forall n l, In (n, l) (_lines (snd (get_file m filename))) -> l = mk_line filename n.
Proof.
  intros Hm. unfold get_file.
  destruct (StdMap.find String.ltb filename (_files m)) as [f|] eqn:E; simpl.
  - apply find_Some_In in E. destruct E as (k' & Hin & H1 & H2).
    assert (k' = filename) by now apply string_ltb_total. subst k'.
    destruct (Hm _ _ Hin) as [Hn Hl]. auto.
  - split; [|split; [reflexivity|split; [reflexivity|intros n l []]]].
    intros path f Hin. simpl in Hin.
    apply In_emplace in Hin. destruct Hin as [[= -> ->]|Hin].
    + split; auto. intros n l [].
    + now apply Hm.
Qed.

Lemma get_line_named (f : file) (line_no : Z) :
  (forall n l, In (n, l) (_lines f) -> l = mk_line (file_name f) n) ->
  snd (get_line f line_no) = mk_line (file_name f) line_no /\
  file_name (fst (get_line f line_no)) = file_name f /\
  forall n l, In (n, l) (_lines (fst (get_line f line_no))) ->
              l = mk_line (file_name f) n.
Proof.
  intros Hf. unfold get_line.
  destruct (StdMap.find Z.ltb line_no (_lines f)) as [l0|] eqn:E; simpl.
  - apply find_Some_In in E. destruct E as (k' & Hin & H1 & H2).
    assert (k' = line_no) by now apply Z_ltb_total. subst k'.
    rewrite (Hf _ _ Hin). auto.
  - repeat split; auto. intros n l Hin.
    apply In_emplace in Hin. destruct Hin as [[= -> ->]|Hin]; auto.
Qed.

Lemma add_range_ranges (m : memory_map) filename line_no range :
  lines_named m ->
  _ranges (add_range m filename line_no range)
  = StdMap.emplace interval_lt range (mk_line filename line_no) (_ranges m).
Proof.
  intros Hm. unfold add_range.
  destruct (get_file_named m filename Hm) as (_ & Hr & Hn & Hl).
  destruct (get_file m filename) as [m1 f]. simpl in *.
  assert (Hl' : forall n l, In (n, l) (_lines f) -> l = mk_line (file_name f) n)
    by (rewrite Hn; exact Hl).
  destruct (get_line_named f line_no Hl') as (Hs & _ & _).
  destruct (get_line f line_no) as [f' l]. simpl in *.
  now rewrite Hs, Hn, Hr.
Qed.

Lemma add_range_named (m : memory_map) filename line_no range :
  lines_named m -> lines_named (add_range m filename line_no range).
Proof.
  intros Hm. unfold add_range.
  destruct (get_file_named m filename Hm) as (Hm1 & _ & Hn & Hl).
  destruct (get_file m filename) as [m1 f]. simpl in *.
  assert (Hl' : forall n l, In (n, l) (_lines f) -> l = mk_line (file_name f) n)
    by (rewrite Hn; exact Hl).
  destruct (get_line_named f line_no Hl') as (_ & Hn' & Hl'').
  destruct (get_line f line_no) as [f' l]. simpl in *.
  intros path g Hin. simpl in Hin.
  apply In_replace in Hin. destruct Hin as [Hin|(k' & [= -> ->] & H1 & H2)].
  - now apply Hm1.
  - assert (k' = filename) by now apply string_ltb_total. subst k'.
    split; [congruence|]. intros n l0 Hin. rewrite <- Hn. now apply Hl''.
Qed.

Lemma add_ranges_named (es : list range_entry) (m : memory_map) :
  lines_named m -> lines_named (add_ranges m es).
Proof.
  revert m. induction es as [|[[f n] r] es IH]; simpl; intros m Hm; auto.
  apply IH. now apply add_range_named.
Qed.

Lemma empty_map_named : lines_named empty_map.
Proof. intros path f []. Qed.

(** ** The order of _ranges *)

Lemma interval_lt_trans (a b c : interval) :
  _base b <= _limit b ->
  interval_lt a b = true -> interval_lt b c = true -> interval_lt a c = true.
Proof. unfold interval_lt. rewrite !Z.leb_le. lia. Qed.

Lemma emplace_sorted (k : interval) (v : line) (rs : StdMap.t interval line) :
  well_formed k -> ranges_sorted rs ->
  ranges_sorted (StdMap.emplace interval_lt k v rs).
Proof.
  intros Hk. induction rs as [|[k' v'] rs IH]; intros [Hs Hw].
  - simpl. split; constructor; auto; constructor.
  - simpl. inversion Hs as [|? ? Hs' Hall]; subst. inversion Hw as [|? ? Hk' Hw']; subst.
    destruct (interval_lt k k') eqn:E1.
    + split; [|constructor; auto]. constructor; auto.
      constructor; auto. simpl.
      rewrite Forall_forall in *. intros x Hx. simpl.
      apply (interval_lt_trans k k' (fst x)); auto.
      apply Hk'.
    + destruct (interval_lt k' k) eqn:E2; [|split; auto].
      destruct (IH (conj Hs' Hw')) as [IHs IHw].
      split; constructor; auto.
      rewrite Forall_forall in *. intros x Hx.
      apply In_emplace in Hx. destruct Hx as [->|Hx]; auto.
Qed.

(** A point query finds the range that contains the address. *)
Lemma find_sorted_contains (rs : StdMap.t interval line) (r : interval) (l : line) (a : Z) :
  ranges_sorted rs -> In (r, l) rs -> contains r a ->
  StdMap.find interval_lt (unit_interval a) rs = Some l.
Proof.
  intros [Hs Hw] Hin [Ha1 Ha2].
  assert (Hr : well_formed r).
  { rewrite Forall_forall in Hw. exact (Hw _ Hin). }
  destruct Hr as (Hr0 & Hr1 & Hr2).
  assert (Hu : wrap64 (a + 1) = a + 1).
  { apply wrap64_small. unfold is_uintptr. lia. }
  induction rs as [|[k' v'] rs IH]; [destruct Hin|].
  inversion Hs as [|? ? Hs' Hall]; subst. inversion Hw as [|? ? Hk' Hw']; subst.
  simpl.
  destruct Hin as [[= -> ->]|Hin].
  - assert (E1 : interval_lt r (unit_interval a) = false)
      by (unfold interval_lt, unit_interval; simpl; apply Z.leb_gt; lia).
    assert (E2 : interval_lt (unit_interval a) r = false)
      by (unfold interval_lt, unit_interval; simpl; rewrite Hu; apply Z.leb_gt; lia).
    now rewrite E1, E2.
  - rewrite Forall_forall in Hall. specialize (Hall _ Hin).
    unfold interval_lt in Hall. simpl in Hall. apply Z.leb_le in Hall.
    assert (E1 : interval_lt k' (unit_interval a) = true)
      by (unfold interval_lt, unit_interval; simpl; apply Z.leb_le; lia).
    rewrite E1. now apply IH.
Qed.

(** What a point query finds contains the address. *)
Lemma find_unit_contains (rs : StdMap.t interval line) (l : line) (a : Z) :
  is_uintptr a -> Forall (fun x => well_formed (fst x)) rs ->
  StdMap.find interval_lt (unit_interval a) rs = Some l ->
  exists r, In (r, l) rs /\ contains r a.
Proof.
  intros Ha Hw Hf. apply find_Some_In in Hf.
  destruct Hf as (r & Hin & H1 & H2). exists r. split; auto.
  rewrite Forall_forall in Hw. destruct (Hw _ Hin) as (Hr0 & Hr1 & Hr2). simpl in *.
  unfold interval_lt in H1, H2. simpl in H1, H2.
  apply Z.leb_gt in H1, H2. unfold contains. split; [|lia].
  unfold wrap64, is_uintptr in *.
  destruct (Z.eq_dec (a + 1) two64) as [E|E].
  - rewrite E, Z.mod_same in H2 by (pose proof two64_pos; lia). lia.
  - rewrite Z.mod_small in H2 by lia. lia.
Qed.

(** The state of the index after a run of insertions. *)
Lemma add_ranges_invariant (es : list range_entry) (m : memory_map) :
  Forall (fun e => well_formed (entry_range e)) es ->
  lines_named m -> ranges_sorted (_ranges m) ->
  ranges_sorted (_ranges (add_ranges m es)) /\
  (forall x, In x (_ranges m) -> In x (_ranges (add_ranges m es))) /\
  (forall r l, In (r, l) (_ranges (add_ranges m es)) ->
     In (r, l) (_ranges m) \/
     exists f n, In (f, n, r) es /\ l = mk_line f n).
Proof.
  revert m. induction es as [|[[f n] r] es IH]; simpl; intros m Hes Hm Hs.
  - repeat split; auto; apply Hs.
  - inversion Hes as [|? ? He Hes']; subst. unfold entry_range in He. simpl in He.
    pose proof (add_range_named m f n r Hm) as Hm'.
    pose proof (add_range_ranges m f n r Hm) as Hr.
    assert (Hs' : ranges_sorted (_ranges (add_range m f n r))).
    { rewrite Hr. now apply emplace_sorted. }
    destruct (IH _ Hes' Hm' Hs') as (I1 & I2 & I3).
    split; [exact I1|]. split.
    + intros x Hx. apply I2. rewrite Hr. now apply emplace_keeps.
    + intros r0 l Hin. destruct (I3 _ _ Hin) as [Hin'|(f0 & n0 & Hin' & ->)].
      * rewrite Hr in Hin'. apply In_emplace in Hin'.
        destruct Hin' as [[= -> ->]|Hin']; auto.
        right. exists f, n. auto.
      * right. exists f0, n0. auto.
Qed.

(** A key that some entry is equivalent to is not inserted. *)
Lemma emplace_equivalent (k : interval) (v : line) (rs : StdMap.t interval line)
    (x : interval * line) :
  ranges_sorted rs -> In x rs ->
  interval_lt k (fst x) = false -> interval_lt (fst x) k = false ->
  StdMap.emplace interval_lt k v rs = rs.
Proof.
  intros Hs Hin H1 H2. induction rs as [|[k' v'] rs IH]; [destruct Hin|].
  destruct Hs as [Hs Hw].
  inversion Hs as [|? ? Hs' Hall]; subst. inversion Hw as [|? ? Hk' Hw']; subst.
  simpl. rewrite Forall_forall in Hall.
  destruct (interval_lt k k') eqn:E1.
  - exfalso. destruct Hin as [<-|Hin]; [simpl in H1; congruence|].
    specialize (Hall _ Hin). simpl in Hall.
    rewrite (interval_lt_trans k k' (fst x)) in H1; auto; [discriminate|apply Hk'].
  - destruct (interval_lt k' k) eqn:E2; auto.
    destruct Hin as [<-|Hin]; [simpl in H2; congruence|].
    f_equal. apply IH; auto. now split.
Qed.

Lemma ordered_against_true (kept : list range_entry) (r : interval) :
  ordered_against kept r = true ->
  forall e, In e kept ->
    interval_lt r (entry_range e) = true \/ interval_lt (entry_range e) r = true.
Proof.
  unfold ordered_against. rewrite forallb_forall. intros H e Hin.
  specialize (H e Hin). apply orb_true_iff in H. tauto.
Qed.

Lemma ordered_against_false (kept : list range_entry) (r : interval) :
  ordered_against kept r = false ->
  exists e, In e kept /\
    interval_lt r (entry_range e) = false /\ interval_lt (entry_range e) r = false.
Proof.
  unfold ordered_against. induction kept as [|e kept IH]; simpl; [discriminate|].
  intros H. apply andb_false_iff in H. destruct H as [H|H].
  - apply orb_false_iff in H. exists e. tauto.
  - destruct (IH H) as (e0 & Hin & H1 & H2). exists e0. auto.
Qed.

(** The entries of [_ranges] after a run of insertions are the retained
    insertions. *)
Lemma add_ranges_retained (es : list range_entry) (m : memory_map)
    (kept : list range_entry) :
  Forall (fun e => well_formed (entry_range e)) es ->
  lines_named m -> ranges_sorted (_ranges m) ->
  (forall r l, In (r, l) (_ranges m) <->
               exists f n, In (f, n, r) kept /\ l = mk_line f n) ->
  ranges_sorted (_ranges (add_ranges m es)) /\
  (forall r l, In (r, l) (_ranges (add_ranges m es)) <->
               exists f n, In (f, n, r) (retained_after kept es) /\ l = mk_line f n).
Proof.
  revert m kept. induction es as [|[[f n] r] es IH]; intros m kept Hes Hm Hs Hk.
  - simpl. auto.
  - inversion Hes as [|? ? He Hes']; subst. unfold entry_range in He. simpl in He.
    pose proof (add_range_named m f n r Hm) as Hm'.
    pose proof (add_range_ranges m f n r Hm) as Hr.
    assert (Hs' : ranges_sorted (_ranges (add_range m f n r))).
    { rewrite Hr. now apply emplace_sorted. }
    cbn [add_ranges fold_left add_entry retained_after].
    fold (add_ranges (add_range m f n r) es).
    change (entry_range (f, n, r)) with r.
    destruct (ordered_against kept r) eqn:E.
    + apply IH; auto. intros r0 l0. rewrite Hr. split.
      * intros Hin. apply In_emplace in Hin. destruct Hin as [[= -> ->]|Hin].
        -- exists f, n. split; auto. apply in_or_app. right. now left.
        -- apply Hk in Hin. destruct Hin as (f0 & n0 & Hin & ->).
           exists f0, n0. split; auto. apply in_or_app. now left.
      * intros (f0 & n0 & Hin & ->). apply in_app_or in Hin.
        destruct Hin as [Hin|[[= <- <- <-]|[]]].
        -- apply emplace_keeps. apply Hk. eauto.
        -- apply emplace_new. intros [r1 l1] Hin. simpl.
           apply Hk in Hin. destruct Hin as (f1 & n1 & Hin & _).
           exact (ordered_against_true kept r E _ Hin).
    + apply IH; auto. intros r0 l0. rewrite Hr.
      destruct (ordered_against_false kept r E) as ([[f1 n1] r1] & Hin & H1 & H2).
      rewrite (emplace_equivalent r (mk_line f n) (_ranges m) (r1, mk_line f1 n1));
        auto.
      apply Hk. eauto.
Qed.

(* ================================================================== *)
(** ** Point queries (C1) *)

(** C1 as stated fails.  Two ranges that share addresses are inserted:
    [0x1010, 0x1030) for /src/b.c:20 after [0x1000, 0x1020) for /src/a.c:10.
    The second insertion is dropped by [emplace], so the address 0x1028,
    inside the second range, finds nothing, and 0x1018 finds the Line of the
    first range. *)
Lemma find_line_addr_overlap_counterexample :
  In ("/src/b.c"%string, 20, mk_interval 4112 4144) overlapping_entries /\
  contains (mk_interval 4112 4144) 4136 /\
  find_line_addr (add_ranges empty_map overlapping_entries) 4136 = None /\
  contains (mk_interval 4112 4144) 4120 /\
  find_line_addr (add_ranges empty_map overlapping_entries) 4120
  = Some (mk_line "/src/a.c" 10).
Proof.
  unfold contains; simpl.
  repeat split; try lia; try reflexivity.
  right; left; reflexivity.
Qed.

(** C1, amended: over insertions of ranges [0 <= base <= limit < 2^64], an
    address outside every inserted range finds nothing; an address inside
    an inserted range finds the Line of that insertion when, for every
    range inserted before it, one of the two ranges ends at or before the
    start of the other; and in general a query returns a Line exactly when
    a retained insertion contains the address, the Line being the one of
    that insertion, where an insertion is retained when, against every
    insertion retained before it, one of the two ranges ends at or before
    the start of the other. *)
Theorem find_line_addr_first_writer (entries : list range_entry) (a : Z) :
  is_uintptr a ->
  Forall (fun e => well_formed (entry_range e)) entries ->
  ((forall f n r, In (f, n, r) entries -> ~ contains r a) ->
   find_line_addr (add_ranges empty_map entries) a = None) /\
  (forall before f n r after,
     entries = before ++ (f, n, r) :: after ->
     Forall (fun e => disjoint (entry_range e) r) before ->
     contains r a ->
     find_line_addr (add_ranges empty_map entries) a = Some (mk_line f n)) /\
  (forall l,
     find_line_addr (add_ranges empty_map entries) a = Some l <->
     exists f n r, In (f, n, r) (retained entries) /\ contains r a /\ l = mk_line f n).
Proof.
  intros Ha Hes.
  assert (H0 : ranges_sorted (_ranges empty_map)) by (split; constructor).
  split; [|split].
  - intros Hout.
    destruct (add_ranges_invariant entries empty_map Hes empty_map_named H0)
      as ([_ Hw] & _ & Hsrc).
    unfold find_line_addr.
    destruct (StdMap.find interval_lt (unit_interval a)
                (_ranges (add_ranges empty_map entries))) as [l|] eqn:E; auto.
    destruct (find_unit_contains _ _ _ Ha Hw E) as (r & Hin & Hc).
    destruct (Hsrc _ _ Hin) as [[]|(f & n & Hin' & _)].
    exfalso. exact (Hout _ _ _ Hin' Hc).
  - intros before f n r after -> Hdis Hc.
    apply Forall_app in Hes. destruct Hes as [Hb He].
    inversion He as [|? ? Hr Hafter]; subst.
    unfold add_ranges. rewrite fold_left_app. simpl.
    fold (add_ranges empty_map before).
    destruct (add_ranges_invariant before empty_map Hb empty_map_named H0)
      as (Hs1 & _ & Hsrc1).
    pose proof (add_ranges_named before empty_map empty_map_named) as Hn1.
    set (m1 := add_ranges empty_map before) in *.
    pose proof (add_range_named m1 f n r Hn1) as Hn2.
    pose proof (add_range_ranges m1 f n r Hn1) as Hr2.
    assert (Hs2 : ranges_sorted (_ranges (add_range m1 f n r))).
    { rewrite Hr2. now apply emplace_sorted. }
    assert (Hin2 : In (r, mk_line f n) (_ranges (add_range m1 f n r))).
    { rewrite Hr2. apply emplace_new. intros [r0 l0] Hin0. simpl.
      destruct (Hsrc1 _ _ Hin0) as [[]|(f0 & n0 & Hin' & _)].
      rewrite Forall_forall in Hdis. specialize (Hdis _ Hin').
      unfold disjoint, entry_range in Hdis. simpl in Hdis. tauto. }
    fold (add_ranges (add_range m1 f n r) after).
    destruct (add_ranges_invariant after _ Hafter Hn2 Hs2) as (Hs3 & Hkeep & _).
    unfold find_line_addr.
    apply (find_sorted_contains _ r); auto.
  - assert (Hk0 : forall r l, In (r, l) (_ranges empty_map) <->
                    exists f n, In (f, n, r) (@nil range_entry) /\ l = mk_line f n).
    { intros r l. split; [intros []|intros (f & n & [] & _)]. }
    destruct (add_ranges_retained entries empty_map [] Hes empty_map_named H0 Hk0)
      as (Hs & Hiff).
    fold (retained entries) in Hiff.
    intros l. unfold find_line_addr. split.
    + intros E. destruct (find_unit_contains _ _ _ Ha (proj2 Hs) E) as (r & Hin & Hc).
      apply Hiff in Hin. destruct Hin as (f & n & Hin & ->). exists f, n, r. auto.
    + intros (f & n & r & Hin & Hc & ->).
      apply (find_sorted_contains _ r); auto. apply Hiff. eauto.
Qed.

Lemma find_line_addr_first_writer_witness :
  find_line_addr (add_ranges empty_map overlapping_entries) 4100
  = Some (mk_line "/src/a.c" 10).
Proof.
  refine (proj1 (proj2 (find_line_addr_first_writer overlapping_entries 4100 _ _))
            [] "/src/a.c"%string 10 (mk_interval 4096 4128) _ eq_refl _ _).
  - unfold is_uintptr, two64. lia.
  - unfold overlapping_entries.
    repeat constructor; unfold entry_range, two64; simpl; lia.
  - constructor.
  - unfold contains; simpl; lia.
Defined.

(* ================================================================== *)
(** ** std::string facts *)

Lemma prefix_empty (s : string) : String.prefix EmptyString s = true.
Proof. destruct s; reflexivity. Qed.

Lemma prefix_refl (s : string) : String.prefix s s = true.
Proof.
  induction s as [|c s IH]; simpl; auto.
  destruct (ascii_dec c c); [exact IH|congruence].
Qed.

Lemma prefix_length (pat s : string) :
  String.prefix pat s = true -> (String.length pat <= String.length s)%nat.
Proof.
  revert s. induction pat as [|c pat IH]; simpl; intros s H; [lia|].
  destruct s as [|d s]; [discriminate|]. simpl in *.
  destruct (ascii_dec c d); [|discriminate]. apply IH in H. lia.
Qed.

Lemma prefix_same_length (pat s : string) :
  String.prefix pat s = true -> String.length pat = String.length s -> pat = s.
Proof.
  revert s. induction pat as [|c pat IH]; simpl; intros s H L.
  - destruct s; [reflexivity|discriminate].
  - destruct s as [|d s]; [discriminate|]. simpl in *.
    destruct (ascii_dec c d); [|discriminate]. subst. f_equal. apply IH; auto.
Qed.

Lemma is_suffix_cons (pat s : string) (c : ascii) :
  is_suffix pat s -> is_suffix pat (String c s).
Proof. intros [pre ->]. now exists (String c pre). Qed.

Lemma is_suffix_uncons (pat s : string) (c : ascii) :
  is_suffix pat (String c s) -> pat = String c s \/ is_suffix pat s.
Proof.
  intros [[|d pre] H]; simpl in H.
  - now left.
  - injection H as _ ->. right. now exists pre.
Qed.

(** [rfind] followed by the test on the position is the suffix test. *)
Lemma rfind_suffix (pat s : string) :
  match string_rfind pat s with
  | Some p =>
      (p + String.length pat <= String.length s)%nat /\
      ((p + String.length pat = String.length s)%nat <-> is_suffix pat s)
  | None => ~ is_suffix pat s
  end.
Proof.
  induction s as [|c s IH].
  - simpl. destruct pat as [|d pat]; simpl.
    + split; [lia|]. split; auto. intros _. now exists EmptyString.
    + intros [pre H]. destruct pre; discriminate.
  - cbn [string_rfind]. destruct (string_rfind pat s) as [p|].
    + destruct IH as [Hle Hiff]. split; [simpl; lia|]. simpl.
      split.
      * intros H. apply is_suffix_cons, Hiff. lia.
      * intros H. apply is_suffix_uncons in H. destruct H as [->|H].
        -- simpl in Hle. lia.
        -- apply Hiff in H. lia.
    + destruct (String.prefix pat (String c s)) eqn:E.
      * split; [apply prefix_length in E; simpl in *; lia|].
        split.
        -- intros H. apply prefix_same_length in E; [|exact H].
           subst. now exists EmptyString.
        -- intros H. apply is_suffix_uncons in H. destruct H as [->|H]; [reflexivity|].
           contradiction.
      * intros H. apply is_suffix_uncons in H. destruct H as [->|H]; [|contradiction].
        rewrite prefix_refl in E. discriminate.
Qed.

Lemma find_char_app (c : ascii) (a rest : string) :
  find_char c a = None ->
  find_char c (a ++ String c rest) = Some (String.length a).
Proof.
  induction a as [|d a IH]; simpl.
  - now rewrite Ascii.eqb_refl.
  - destruct (Ascii.eqb d c); [discriminate|].
    destruct (find_char c a); [discriminate|]. intros _. now rewrite IH.
Qed.

Lemma substr_to_app (a b : string) : substr_to (String.length a) (a ++ b) = a.
Proof.
  induction a as [|c a IH]; simpl.
  - destruct b; reflexivity.
  - now rewrite IH.
Qed.

Lemma substr_from_app_cons (a b : string) (c : ascii) :
  substr_from (S (String.length a)) (a ++ String c b) = b.
Proof. induction a as [|d a IH]; simpl; auto. Qed.

(* ================================================================== *)
(** ** Queries by name (C3, C10) *)

Lemma get_line_present (f : file) (n : Z) (l : line) :
  StdMap.find Z.ltb n (_lines f) = Some l -> snd (get_line f n) = l.
Proof. intros H. unfold get_line. now rewrite H. Qed.

Lemma has_line_find (f : file) (n : Z) :
  has_line f n = true <-> exists l, StdMap.find Z.ltb n (_lines f) = Some l.
Proof.
  unfold has_line. destruct (StdMap.find Z.ltb n (_lines f)) as [l|].
  - split; eauto.
  - split; [discriminate|]. intros [l H]. discriminate.
Qed.

(** The test of the loop over [files()] is the plain suffix test. *)
Lemma suffix_test (filename path : string) :
  match string_rfind filename path with
  | Some last_pos => (last_pos + strlen filename =? strlen path)%nat
  | None => false
  end = true <-> is_suffix filename path.
Proof.
  pose proof (rfind_suffix filename path) as H. unfold strlen.
  destruct (string_rfind filename path) as [p|].
  - destruct H as [_ H]. now rewrite Nat.eqb_eq.
  - split; [discriminate|]. intros Hs. contradiction.
Qed.

Lemma find_in_files_sound files filename n l :
  find_in_files files filename (Some n) = Returns (Some l) ->
  exists path f, In (path, f) files /\ is_suffix filename path /\
                 StdMap.find Z.ltb n (_lines f) = Some l.
Proof.
  induction files as [|[path f] files IH]; simpl; [discriminate|].
  pose proof (suffix_test filename path) as Ht.
  destruct (string_rfind filename path) as [p|].
  - destruct ((p + strlen filename =? strlen path)%nat) eqn:E1.
    + destruct (has_line f n) eqn:E2.
      * intros [= <-]. apply has_line_find in E2. destruct E2 as [l0 E2].
        exists path, f. rewrite (get_line_present _ _ _ E2).
        repeat split; auto. now apply Ht.
      * intros H. destruct (IH H) as (p0 & f0 & ? & ? & ?). exists p0, f0. auto.
    + intros H. destruct (IH H) as (p0 & f0 & ? & ? & ?). exists p0, f0. auto.
  - intros H. destruct (IH H) as (p0 & f0 & ? & ? & ?). exists p0, f0. auto.
Qed.

Lemma find_in_files_complete files filename n :
  (exists path f, In (path, f) files /\ is_suffix filename path /\
                  has_line f n = true) ->
  exists l, find_in_files files filename (Some n) = Returns (Some l).
Proof.
  induction files as [|[path f] files IH]; intros (p0 & f0 & Hin & Hs & Hl).
  - destruct Hin.
  - simpl. pose proof (suffix_test filename path) as Ht.
    destruct Hin as [[= -> ->]|Hin].
    + apply Ht in Hs. destruct (string_rfind filename p0) as [p|]; [|discriminate].
      rewrite Hs, Hl. eauto.
    + assert (IH' : exists l, find_in_files files filename (Some n) = Returns (Some l))
        by (apply IH; eauto).
      destruct (string_rfind filename path) as [p|]; auto.
      destruct ((p + strlen filename =? strlen path)%nat); auto.
      destruct (has_line f n); eauto.
Qed.

(** With a line number that was written, the loop ends and returns nothing
    when no File whose path ends with the name has the line. *)
Lemma find_in_files_absent files filename n :
  (forall path f, In (path, f) files -> is_suffix filename path ->
                  has_line f n = false) ->
  find_in_files files filename (Some n) = Returns None.
Proof.
  induction files as [|[path f] files IH]; intros Hno; [reflexivity|].
  simpl. pose proof (suffix_test filename path) as Ht.
  assert (Hrest : find_in_files files filename (Some n) = Returns None).
  { apply IH. intros p0 f0 Hin. apply Hno. now right. }
  destruct (string_rfind filename path) as [p|]; auto.
  destruct ((p + strlen filename =? strlen path)%nat) eqn:E1; auto.
  rewrite (Hno path f); auto. now left. now apply Ht.
Qed.

(** The parts of a query [<filename>:<line>] as the code cuts them. *)
Lemma find_line_name_parts (m : memory_map) (filename line_str : string) :
  find_char ":"%char filename = None ->
  find_line_name m (filename ++ String ":"%char line_str)
  = find_in_files (_files m) filename (parse_size_t line_str).
Proof.
  intros H. unfold find_line_name. rewrite (find_char_app _ _ _ H).
  rewrite substr_to_app, Nat.add_1_r.
  now rewrite substr_from_app_cons.
Qed.

(** *** The extraction reads a numeral as the number it denotes *)

Lemma digit_char_code (d : Z) :
  0 <= d <= 9 -> N_of_ascii (digit_char d) = Z.to_N (48 + d).
Proof. intros H. unfold digit_char. apply N_ascii_embedding. lia. Qed.

Lemma digit_char_differs (d : Z) (c : ascii) :
  0 <= d <= 9 -> (N_of_ascii c < 48)%N -> Ascii.eqb (digit_char d) c = false.
Proof.
  intros H Hc. destruct (Ascii.eqb_spec (digit_char d) c) as [E|]; auto.
  apply (f_equal N_of_ascii) in E. rewrite (digit_char_code d H) in E. lia.
Qed.

Lemma digit_char_no_space (d : Z) : 0 <= d <= 9 -> is_space (digit_char d) = false.
Proof.
  intros H. unfold is_space. rewrite (digit_char_code d H).
  apply orb_false_iff. split.
  - apply N.eqb_neq. lia.
  - apply andb_false_iff. right. apply N.leb_gt. lia.
Qed.

Lemma digit_of_digit_char (d : Z) : 0 <= d <= 9 -> digit_of (digit_char d) = Some d.
Proof.
  intros H. unfold digit_of. rewrite (digit_char_code d H).
  rewrite Z2N.id by lia.
  replace (48 <=? 48 + d) with true by (symmetry; apply Z.leb_le; lia).
  replace (48 + d <=? 57) with true by (symmetry; apply Z.leb_le; lia).
  cbn [andb]. f_equal. lia.
Qed.

Lemma read_digits_numeral (digits : list Z) (acc : Z) :
  Forall (fun d => 0 <= d <= 9) digits ->
  read_digits (numeral_string digits) acc true
  = (fold_left (fun a d => 10 * a + d) digits acc, true).
Proof.
  intros H. revert acc. induction H as [|d ds Hd _ IH]; intros acc; [reflexivity|].
  cbn [numeral_string read_digits fold_left].
  now rewrite (digit_of_digit_char d Hd).
Qed.

Lemma parse_size_t_numeral (digits : list Z) :
  is_numeral digits -> numeral_value digits < two64 ->
  parse_size_t (numeral_string digits) = Some (numeral_value digits).
Proof.
  intros [Hne Hall] Hlt. destruct digits as [|d ds]; [congruence|].
  inversion Hall as [|? ? Hd Hds]; subst.
  unfold parse_size_t. cbn [numeral_string skip_spaces].
  rewrite (digit_char_no_space d Hd).
  rewrite (digit_char_differs d "-"%char Hd) by (simpl; lia).
  rewrite (digit_char_differs d "+"%char Hd) by (simpl; lia).
  cbn [read_digits]. rewrite (digit_of_digit_char d Hd).
  rewrite (read_digits_numeral ds _ Hds). cbn [negb].
  change (fold_left (fun a d0 => 10 * a + d0) ds (10 * 0 + d)) with (numeral_value (d :: ds)).
  now replace (two64 <=? numeral_value (d :: ds)) with false
    by (symmetry; apply Z.leb_gt; exact Hlt).
Qed.

(** The query [<filename>:<numeral>] runs the loop over [files()] with the
    number that the numeral denotes. *)
Lemma find_line_name_numeral (m : memory_map) (filename : string) (digits : list Z) :
  find_char ":"%char filename = None ->
  is_numeral digits -> numeral_value digits < two64 ->
  find_line_name m (filename ++ String ":"%char (numeral_string digits))
  = find_in_files (_files m) filename (Some (numeral_value digits)).
Proof.
  intros Hc Hn Hlt. rewrite (find_line_name_parts m filename _ Hc).
  now rewrite (parse_size_t_numeral digits Hn Hlt).
Qed.

(** C3 as stated fails: the query oo.cpp:10 does not start at a separator
    of /src/project/foo.cpp, and it succeeds. *)
Lemma find_line_name_boundary_counterexample :
  find_line_name foo_index "oo.cpp:10"
  = Returns (Some (mk_line "/src/project/foo.cpp" 10)).
Proof. reflexivity. Qed.

(** C3, amended: a query [<filename>:<n>], with [<n>] the decimal numeral
    of a number below [2^64], succeeds exactly when [<filename>] is a
    suffix, at any position, of the path of a stored File that has line
    [n]; the Line returned is the one that File holds under [n], and the
    query returns nothing when no such File has the line. *)
Theorem find_line_name_plain_suffix (m : memory_map) (filename : string)
    (digits : list Z) :
  find_char ":"%char filename = None ->
  is_numeral digits -> numeral_value digits < two64 ->
  (forall l,
     find_line_name m (filename ++ String ":"%char (numeral_string digits))
     = Returns (Some l) ->
     exists path f, In (path, f) (_files m) /\ is_suffix filename path /\
       StdMap.find Z.ltb (numeral_value digits) (_lines f) = Some l) /\
  ((exists path f, In (path, f) (_files m) /\ is_suffix filename path /\
       has_line f (numeral_value digits) = true) ->
   exists l,
     find_line_name m (filename ++ String ":"%char (numeral_string digits))
     = Returns (Some l)) /\
  ((forall path f, In (path, f) (_files m) -> is_suffix filename path ->
       has_line f (numeral_value digits) = false) ->
   find_line_name m (filename ++ String ":"%char (numeral_string digits))
   = Returns None).
Proof.
  intros H Hn Hlt. rewrite (find_line_name_numeral m filename digits H Hn Hlt).
  split; [|split].
  - intros l. apply find_in_files_sound.
  - apply find_in_files_complete.
  - apply find_in_files_absent.
Qed.

Lemma find_line_name_plain_suffix_witness :
  (exists l, find_line_name foo_index "foo.cpp:10" = Returns (Some l)) /\
  find_line_name foo_index "bar.cpp:10" = Returns None.
Proof.
  assert (Hn : is_numeral [1; 0]).
  { split; [discriminate|]. repeat constructor; lia. }
  assert (Hlt : numeral_value [1; 0] < two64) by reflexivity.
  split.
  - apply (proj1 (proj2 (find_line_name_plain_suffix foo_index "foo.cpp" [1; 0]
                           eq_refl Hn Hlt))).
    exists "/src/project/foo.cpp"%string.
    exists (mk_file "/src/project/foo.cpp"
              [(10, mk_line "/src/project/foo.cpp" 10)]).
    split; [left; reflexivity|]. split; [|reflexivity].
    now exists "/src/project/"%string.
  - apply (proj2 (proj2 (find_line_name_plain_suffix foo_index "bar.cpp" [1; 0]
                           eq_refl Hn Hlt))).
    intros path f [[= <- <-]|[]] Hs. apply suffix_test in Hs. discriminate.
Defined.

(** C10: with nothing before the colon the file name is empty, every stored
    path has it as a suffix, and the query [:<n>], with [<n>] the decimal
    numeral of a number below [2^64], succeeds exactly when some File has
    line [n]. *)
Theorem find_line_name_empty_file (m : memory_map) (digits : list Z) :
  is_numeral digits -> numeral_value digits < two64 ->
  ((exists l,
      find_line_name m (String ":"%char (numeral_string digits)) = Returns (Some l)) <->
   (exists path f, In (path, f) (_files m) /\
                   has_line f (numeral_value digits) = true)).
Proof.
  intros Hn Hlt.
  change (String ":"%char (numeral_string digits))
    with (EmptyString ++ String ":"%char (numeral_string digits))%string.
  rewrite (find_line_name_numeral m EmptyString digits eq_refl Hn Hlt). split.
  - intros [l H]. apply find_in_files_sound in H.
    destruct H as (path & f & Hin & _ & Hf). exists path, f. split; auto.
    apply has_line_find. eauto.
  - intros (path & f & Hin & Hl). apply find_in_files_complete.
    exists path, f. repeat split; auto. exists path.
    clear. induction path; simpl; congruence.
Qed.

Lemma find_line_name_empty_file_witness :
  (exists l, find_line_name foo_index ":10" = Returns (Some l)) <->
  (exists path f, In (path, f) (_files foo_index) /\ has_line f 10 = true).
Proof.
  apply (find_line_name_empty_file foo_index [1; 0]).
  - split; [discriminate|]. repeat constructor; lia.
  - reflexivity.
Defined.

(* ================================================================== *)
(** ** The line-table walker (C5) *)

Lemma add_ranges_app (m : memory_map) (a b : list range_entry) :
  add_ranges m (a ++ b) = add_ranges (add_ranges m a) b.
Proof. unfold add_ranges. apply fold_left_app. Qed.

Lemma string_find_prefix (s t : string) :
  string_find s t = Some 0%nat <-> String.prefix s t = true.
Proof.
  destruct t as [|c t]; cbn [string_find].
  - destruct (String.prefix s EmptyString); split; congruence.
  - destruct (String.prefix s (String c t)); [split; congruence|].
    destruct (string_find s t); simpl; split; congruence.
Qed.

Section WalkerFacts.
Variable normalize : string -> string.
Variable scope : list string.
Variable load_address : Z.

Lemma in_scope_prefix (file : string) :
  in_scope normalize file scope = true <->
  exists s, In s scope /\ String.prefix s (normalize file) = true.
Proof.
  induction scope as [|s0 rest IH]; simpl.
  - split; [discriminate|]. intros (s & [] & _).
  - pose proof (string_find_prefix s0 (normalize file)) as Hp.
    destruct (string_find s0 (normalize file)) as [[|k]|].
    + split; auto. intros _. exists s0. split; auto. now apply Hp.
    + rewrite IH. split.
      * intros (s & Hin & H). eauto.
      * intros (s & [<-|Hin] & H); eauto.
        apply Hp in H. discriminate.
    + rewrite IH. split.
      * intros (s & Hin & H). eauto.
      * intros (s & [<-|Hin] & H); eauto.
        apply Hp in H. discriminate.
Qed.

(** The walker adds to the index the entries of [line_table_entries], in
    order. *)
Lemma walk_rows_entries (rows : list line_entry) (st : walk_state) (m : memory_map) :
  walk_rows normalize scope load_address st rows m
  = add_ranges m (line_table_entries normalize scope load_address st rows).
Proof.
  revert st m. induction rows as [|cur rest IH]; intros st m; simpl; auto.
  now rewrite IH, add_ranges_app.
Qed.

Lemma row_entry_In (st : walk_state) (cur : line_entry) (e : range_entry) :
  In e (row_entry normalize scope load_address st cur) <->
  prev_address st <> 0 /\ in_scope normalize (prev_filename st) scope = true /\
  e = (prev_filename st, prev_line st,
       interval_shift (mk_interval (prev_address st) (row_address cur)) load_address).
Proof.
  unfold row_entry.
  destruct (prev_address st =? 0) eqn:E1; simpl.
  - apply Z.eqb_eq in E1. split; [intros []|]. intros (H & _). contradiction.
  - apply Z.eqb_neq in E1.
    destruct (in_scope normalize (prev_filename st) scope); simpl.
    + split.
      * intros [<-|[]]. auto.
      * intros (_ & _ & ->). now left.
    + split; [intros []|]. intros (_ & H & _). discriminate.
Qed.

Lemma next_state_closes (st : walk_state) (p cur : line_entry) (e : range_entry) :
  In e (row_entry normalize scope load_address (next_state normalize st p) cur)
  <-> closes normalize scope load_address p cur e.
Proof.
  rewrite row_entry_In. unfold next_state, closes.
  destruct (row_end_sequence p); simpl.
  - split.
    + intros (H & _). contradiction.
    + intros (H & _). discriminate.
  - tauto.
Qed.

Lemma line_table_entries_In (rows : list line_entry) (st : walk_state) (e : range_entry) :
  In e (line_table_entries normalize scope load_address st rows) <->
  (exists cur post, rows = cur :: post /\
     In e (row_entry normalize scope load_address st cur)) \/
  (exists pre p cur post, rows = pre ++ p :: cur :: post /\ closes normalize scope load_address p cur e).
Proof.
  revert st. induction rows as [|r rest IH]; intros st; simpl.
  - split; [intros []|].
    intros [(cur & post & H & _)|(pre & p & cur & post & H & _)].
    + discriminate.
    + destruct pre; discriminate.
  - rewrite in_app_iff, IH. split.
    + intros [H|[(cur & post & -> & H)|(pre & p & cur & post & -> & H)]].
      * left. exists r, rest. auto.
      * right. exists [], r, cur, post. split; auto.
        now apply (next_state_closes st).
      * right. exists (r :: pre), p, cur, post. auto.
    + intros [(cur & post & [= <- <-] & H)|(pre & p & cur & post & Heq & H)].
      * now left.
      * right. destruct pre as [|r0 pre]; simpl in Heq; injection Heq as <- ->.
        -- left. exists cur, post. split; auto. now apply next_state_closes.
        -- right. exists pre, p, cur, post. auto.
Qed.

(** C5: the walker adds to the index exactly the entries listed by
    [line_table_entries]; an entry is listed exactly when a row [cur] directly
    follows a row [p] that does not end a sequence (and has a non-null
    address), the normalized path of [p] starts with a scope prefix, and the
    entry is the range from the address of [p] to the address of [cur],
    shifted by the load base, for the normalized file and the line of [p].
    The scope test normalizes the stored path once more, which leaves it as
    it is. *)
Theorem line_table_entries_scope (rows : list line_entry) (m : memory_map)
    (e : range_entry) :
  (forall p, In p rows ->
     normalize (normalize (row_file_path p)) = normalize (row_file_path p)) ->
  walk_rows normalize scope load_address walk_start rows m
  = add_ranges m (line_table_entries normalize scope load_address walk_start rows) /\
  (In e (line_table_entries normalize scope load_address walk_start rows) <->
   exists pre p cur post,
     rows = pre ++ p :: cur :: post /\
     row_end_sequence p = false /\ row_address p <> 0 /\
     (exists s, In s scope /\ String.prefix s (normalize (row_file_path p)) = true) /\
     e = (normalize (row_file_path p), row_line p,
          interval_shift (mk_interval (row_address p) (row_address cur))
                         load_address)).
Proof.
  intros Hidem. split; [apply walk_rows_entries|].
  rewrite line_table_entries_In. split.
  - intros [(cur & post & _ & H)|(pre & p & cur & post & -> & H1 & H2 & H3 & H4)].
    + apply row_entry_In in H. simpl in H. destruct H as (H & _). contradiction.
    + exists pre, p, cur, post. repeat split; auto.
      apply in_scope_prefix in H3. rewrite Hidem in H3; auto.
      apply in_or_app. right. now left.
  - intros (pre & p & cur & post & -> & H1 & H2 & H3 & H4).
    right. exists pre, p, cur, post. split; auto. repeat split; auto.
    apply in_scope_prefix. rewrite Hidem; auto.
    apply in_or_app. right. now left.
Qed.
End WalkerFacts.

Lemma line_table_entries_scope_witness :
  In ("/src/a.c"%string, 10, mk_interval 4198400 4198408)
     (line_table_entries lexically_normal ["/src"%string] 4194304 walk_start
        sample_rows).
Proof.
  refine (proj2 (proj2 (line_table_entries_scope lexically_normal ["/src"%string]
                          4194304 sample_rows empty_map _ _)) _).
  - intros p [<-|[<-|[<-|[<-|[]]]]]; reflexivity.
  - exists [], (mk_row 4096 "/src/./a.c" 10 false),
      (mk_row 4104 "/usr/include/v.h" 42 false),
      [mk_row 4112 "/src/./a.c" 11 false; mk_row 4128 "/src/./a.c" 11 true].
    split; [reflexivity|]. split; [reflexivity|]. split; [simpl; lia|].
    split; [exists "/src"%string; split; [now left|reflexivity]|reflexivity].
Defined.

(* ================================================================== *)
(** ** Attribute resolution (C4) *)

(** Induction along the references of an entry. *)
Lemma die_refs_ind (P : die -> Prop) :
  P invalid_die ->
  (forall tag attrs origin spec children,
     match origin with Some c => P c | None => True end ->
     match spec with Some c => P c | None => True end ->
     P (Die tag attrs origin spec children)) ->
  forall d, P d.
Proof.
  intros Hinv Hdie. fix IH 1.
  intros [|tag attrs origin spec children]; [exact Hinv|].
  apply Hdie.
  - destruct origin as [c|]; [apply IH|exact I].
  - destruct spec as [c|]; [apply IH|exact I].
Qed.

Lemma first_bearer_app (attr : DW_AT) (a b : list die) :
  first_bearer attr (a ++ b)
  = match first_bearer attr a with
    | Some v => Some v
    | None => first_bearer attr b
    end.
Proof.
  induction a as [|d a IH]; simpl; auto.
  destruct (own_attr d attr); auto.
Qed.

(** [find_attribute] returns the attribute of the first entry that bears
    it, in the order: the entry, its abstract origin (searched the same
    way), its specification (searched the same way). *)
Lemma find_attribute_search_order (attr : DW_AT) (d : die) :
  find_attribute d attr = first_bearer attr (search_order d).
Proof.
  induction d as [|tag attrs origin spec children IHo IHs] using die_refs_ind;
    [reflexivity|].
  cbn [find_attribute search_order first_bearer own_attr].
  destruct (lookup_attr attr attrs) as [v|]; [reflexivity|].
  rewrite first_bearer_app.
  destruct origin as [c|]; destruct spec as [c'|]; simpl;
    rewrite <- ?IHo, <- ?IHs; try reflexivity;
    destruct (find_attribute c attr); reflexivity.
Qed.

(** C4 as stated fails for the call line: the entry bears no call-line
    attribute, its abstract origin bears one with value 7, and the code
    reads 0, although the search along the references finds 7. *)
Lemma resolve_inline_call_line_counterexample :
  resolve_inline inlined_without_call_line sample_table
  = Returns (mk_site "vec_get" "/usr/include/v.h" 42 EmptyString 0) /\
  find_attribute inlined_without_call_line AT_call_line = Some (V_uconstant 7).
Proof. split; reflexivity. Qed.

(** C4, amended: for an inlined subroutine, the name, the declaration file
    and the declaration line are those of the first entry that bears the
    attribute among the entry itself, what its abstract origin leads to and
    what its specification leads to, in this order; the call file and the
    call line are read from the entry itself and no reference is followed
    for them. *)
Theorem resolve_inline_sources (d : die) (table : line_table) (site : inline_site) :
  resolve_inline d table = Returns site ->
  match first_bearer AT_name (search_order d) with
  | Some v => as_string v = Returns (site_name site)
  | None => site_name site = EmptyString
  end /\
  file_of_index table (first_bearer AT_decl_file (search_order d))
  = Returns (site_decl_file site) /\
  match first_bearer AT_decl_line (search_order d) with
  | Some v => as_uconstant v = Returns (site_decl_line site)
  | None => site_decl_line site = 0
  end /\
  file_of_index table (own_attr d AT_call_file) = Returns (site_call_file site) /\
  match own_attr d AT_call_line with
  | Some v => as_uconstant v = Returns (site_call_line site)
  | None => site_call_line site = 0
  end.
Proof.
  unfold resolve_inline. rewrite !find_attribute_search_order.
  set (name_val := first_bearer AT_name (search_order d)).
  set (decl_file_val := first_bearer AT_decl_file (search_order d)).
  set (decl_line_val := first_bearer AT_decl_line (search_order d)).
  intros H.
  destruct (match name_val with Some v => as_string v | None => Returns EmptyString end)
    as [name| |] eqn:E1; simpl in H; try discriminate.
  destruct (file_of_index table decl_file_val) as [decl_file| |] eqn:E2;
    simpl in H; try discriminate.
  destruct (match decl_line_val with Some v => as_uconstant v | None => Returns 0 end)
    as [decl_line| |] eqn:E3; simpl in H; try discriminate.
  destruct (file_of_index table (own_attr d AT_call_file)) as [call_file| |] eqn:E4;
    simpl in H; try discriminate.
  destruct (match own_attr d AT_call_line with
            | Some v => as_uconstant v | None => Returns 0 end)
    as [call_line| |] eqn:E5; simpl in H; try discriminate.
  injection H as <-. simpl.
  repeat split; auto.
  - destruct name_val; [exact E1|congruence].
  - destruct decl_line_val; [exact E3|congruence].
  - destruct (own_attr d AT_call_line); [exact E5|congruence].
Qed.

Lemma resolve_inline_sources_witness :
  file_of_index sample_table (own_attr inlined_vec_get AT_call_file)
  = Returns "/src/./a.c"%string /\
  file_of_index sample_table (first_bearer AT_decl_file (search_order inlined_vec_get))
  = Returns "/usr/include/v.h"%string.
Proof.
  pose proof (resolve_inline_sources inlined_vec_get sample_table
                (mk_site "vec_get" "/usr/include/v.h" 42 "/src/./a.c" 10) eq_refl)
    as (_ & H2 & _ & H4 & _).
  split; [exact H4|exact H2].
Defined.

(* ================================================================== *)
(** ** File keys of the inline attributor (C7) *)

(** The walker stores every path normalized. *)
Lemma line_table_entries_normalized (normalize : string -> string)
    (scope : list string) (load_address : Z) (rows : list line_entry)
    (f : string) (n : Z) (r : interval) :
  In (f, n, r) (line_table_entries normalize scope load_address walk_start rows) ->
  exists p, In p rows /\ f = normalize (row_file_path p).
Proof.
  intros H. apply line_table_entries_In in H.
  destruct H as [(cur & post & _ & H)|(pre & p & cur & post & -> & _ & _ & _ & H)].
  - apply row_entry_In in H. simpl in H. destruct H as (H & _). contradiction.
  - injection H as -> _ _. exists p. split; auto.
    apply in_or_app. right. now left.
Qed.

Lemma resolve_inline_call_file (d : die) (table : line_table) (site : inline_site) :
  resolve_inline d table = Returns site ->
  file_of_index table (own_attr d AT_call_file) = Returns (site_call_file site).
Proof.
  unfold resolve_inline. intros H.
  destruct (match find_attribute d AT_name with
            | Some v => as_string v | None => Returns EmptyString end);
    simpl in H; try discriminate.
  destruct (file_of_index table (find_attribute d AT_decl_file));
    simpl in H; try discriminate.
  destruct (match find_attribute d AT_decl_line with
            | Some v => as_uconstant v | None => Returns 0 end);
    simpl in H; try discriminate.
  destruct (file_of_index table (own_attr d AT_call_file)) as [call_file| |];
    simpl in H; try discriminate.
  destruct (match own_attr d AT_call_line with
            | Some v => as_uconstant v | None => Returns 0 end);
    simpl in H; try discriminate.
  now injection H as <-.
Qed.

(** The inline attributor stores the call file as the line table spells it:
    the path is normalized inside the scope test only. *)
Lemma inline_entries_raw_call_file (normalize : string -> string) (d : die)
    (table : line_table) (scope : list string) (load_address : Z)
    (es : list range_entry) (f : string) (n : Z) (r : interval) :
  inline_entries normalize d table scope load_address = Returns es ->
  In (f, n, r) es ->
  file_of_index table (own_attr d AT_call_file) = Returns f.
Proof.
  unfold inline_entries. intros H Hin.
  destruct (resolve_inline d table) as [site| |] eqn:Es; simpl in H; try discriminate.
  rewrite (resolve_inline_call_file d table site Es). f_equal.
  destruct ((0 <? strlen (site_decl_file site))%nat
            && (0 <? strlen (site_call_file site))%nat);
    [|injection H as <-; destruct Hin].
  destruct (negb (in_scope normalize (site_decl_file site) scope)
            && in_scope normalize (site_call_file site) scope);
    [|injection H as <-; destruct Hin].
  destruct (find_attribute d AT_ranges) as [rv|].
  - destruct (as_rangelist rv) as [rs| |]; simpl in H; try discriminate.
    injection H as <-. apply in_map_iff in Hin.
    destruct Hin as (x & [= <- _ _] & _). reflexivity.
  - destruct (find_attribute d AT_low_pc) as [lo|];
      [|injection H as <-; destruct Hin].
    destruct (find_attribute d AT_high_pc) as [hi|];
      [|injection H as <-; destruct Hin].
    destruct (pc_of_value lo) as [low| |]; simpl in H; try discriminate.
    destruct (pc_of_value hi) as [high| |]; simpl in H; try discriminate.
    injection H as <-. destruct Hin as [[= <- _ _]|[]]. reflexivity.
Qed.

(** C7 fails on the code for the inline attributor.  In [sample_unit] the
    line table and the call-file attribute spell the same file /src/./a.c.
    The walker stores it as /src/a.c, the inline attributor as /src/./a.c:
    the index ends with two Files and two Lines for line 10 of one file. *)
Theorem inline_call_file_not_normalized :
  lexically_normal "/src/./a.c" = "/src/a.c"%string /\
  inline_entries lexically_normal inlined_vec_get sample_table ["/src"%string] 4194304
  = Returns [("/src/./a.c"%string, 10, mk_interval 4198408 4198416)] /\
  List.map fst (_files (snd (process_unit lexically_normal ["/src"%string] 4194304
                               sample_unit empty_map)))
  = ["/src/./a.c"%string; "/src/a.c"%string] /\
  find_line_addr (snd (process_unit lexically_normal ["/src"%string] 4194304
                         sample_unit empty_map)) 4198402
  = Some (mk_line "/src/a.c" 10) /\
  find_line_addr (snd (process_unit lexically_normal ["/src"%string] 4194304
                         sample_unit empty_map)) 4198410
  = Some (mk_line "/src/./a.c" 10).
Proof. repeat split; reflexivity. Qed.

(* ================================================================== *)
(** ** The debug image locator (C6) *)

Lemma ascii_of_N_not_slash (k : N) :
  (k < 256)%N -> k <> 47%N -> Ascii.eqb (ascii_of_N k) "/"%char = false.
Proof.
  intros Hk Hne. apply Ascii.eqb_neq. intros E.
  apply (f_equal N_of_ascii) in E. rewrite N_ascii_embedding in E by exact Hk.
  now apply Hne.
Qed.

Lemma hex_digit_not_slash (n : Z) :
  0 <= n < 16 -> Ascii.eqb (hex_digit n) "/"%char = false.
Proof.
  intros H. unfold hex_digit.
  destruct (n <? 10); apply ascii_of_N_not_slash; lia.
Qed.

Lemma byte_at_range (data : list Z) (i : nat) : 0 <= byte_at data i < 256.
Proof. unfold byte_at. apply Z.mod_pos_bound. lia. Qed.

Lemma hex_bytes_shaped (data : list Z) (from count : nat) :
  hex_shaped (hex_bytes data from count).
Proof.
  destruct count as [|count]; [now left|]. right.
  pose proof (byte_at_range data from) as Hb.
  exists (hex_digit (byte_at data from / 16)), (hex_digit (byte_at data from mod 16)),
    (hex_bytes data (S from) count).
  split; [reflexivity|].
  split; [apply hex_digit_not_slash; split;
          [apply Z.div_pos; lia|apply Z.div_lt_upper_bound; lia]|].
  split; [apply hex_digit_not_slash; apply Z.mod_pos_bound; lia|].
  destruct count as [|count]; [reflexivity|].
  pose proof (byte_at_range data (S from)) as Hb'.
  cbn [hex_bytes hex_byte append first_char_is].
  apply hex_digit_not_slash. split;
    [apply Z.div_pos; lia|apply Z.div_lt_upper_bound; lia].
Qed.

Lemma scan_notes_shaped (fuel : nat) (data : list Z) (offset : nat) (id : string) :
  scan_notes fuel data offset = Returns (Some id) -> hex_shaped id.
Proof.
  revert offset. induction fuel as [|fuel IH]; intros offset; simpl; [discriminate|].
  destruct (offset <? List.length data)%nat; [|discriminate].
  destruct (offset + sizeof_Nhdr <=? List.length data)%nat; [|discriminate].
  destruct (word_at data (offset + 8) =? NT_GNU_BUILD_ID).
  - match goal with |- context [if ?c then _ else _] => destruct c end;
      [|discriminate].
    intros [= <-]. apply hex_bytes_shaped.
  - apply IH.
Qed.

Lemma find_build_id_shaped (f : elf) (id : string) :
  find_build_id f = Returns id -> hex_shaped id.
Proof.
  unfold find_build_id. induction (elf_sections f) as [|s secs IH]; simpl.
  - intros [= <-]. now left.
  - destruct (sec_type s); auto.
    destruct (scan_notes (List.length (sec_data s)) (sec_data s) 0)
      as [[id0|]| |] eqn:E; cbn [obind]; try discriminate; auto.
    intros [= <-]. now apply scan_notes_shaped in E.
Qed.

Lemma last_char_is_app (c : ascii) (a b : string) :
  b <> EmptyString -> last_char_is c (a ++ b) = last_char_is c b.
Proof.
  intros Hb. induction a as [|d a IH]; simpl; auto.
  rewrite IH. destruct (a ++ b)%string eqn:E; auto.
  destruct a; simpl in E; [contradiction|discriminate].
Qed.

(** The build-id candidate is spelled as the specification has it. *)
Lemma build_id_paths_candidates (id directory : string) :
  hex_shaped id ->
  build_id_paths id = fallback_candidates id directory None.
Proof.
  intros [->|(c1 & c2 & rest & -> & H1 & H2 & H3)]; [reflexivity|].
  unfold build_id_paths, fallback_candidates. rewrite app_nil_r.
  cbn [strlen String.length Nat.ltb Nat.leb substr_to substr_from].
  f_equal. unfold path_append at 2.
  cbn [strlen String.length Nat.eqb first_char_is]. rewrite H1, orb_false_r.
  change (last_char_is "/" "/usr/lib/debug/.build-id") with false.
  cbn iota. unfold path_append.
  set (a := ("/usr/lib/debug/.build-id" ++ "/" ++ String c1 (String c2 EmptyString))%string).
  assert (Ha : (strlen a =? 0)%nat = false) by reflexivity.
  assert (Hb : (strlen (rest ++ ".debug") =? 0)%nat = false)
    by (destruct rest; reflexivity).
  assert (Hl : last_char_is "/" a = false).
  { unfold a. rewrite last_char_is_app by discriminate.
    rewrite last_char_is_app by discriminate. simpl. exact H2. }
  rewrite Ha, Hb, Hl, H3. reflexivity.
Qed.

Lemma fallback_candidates_app (id directory : string) (link : option string) :
  fallback_candidates id directory link
  = fallback_candidates id directory None
    ++ fallback_candidates EmptyString directory link.
Proof. unfold fallback_candidates. now rewrite app_nil_r. Qed.

(** The loop over the search paths goes past the candidates that do not
    open and those that load without a debug-info section. *)
Lemma try_search_paths_passed_over (w : world) (before rest : list string) :
  Forall (passed_over w) before ->
  try_search_paths w (before ++ rest) = try_search_paths w rest.
Proof.
  induction 1 as [|p before Hp _ IH]; [reflexivity|].
  cbn [app try_search_paths].
  destruct Hp as [->|(g & -> & Hg)]; [exact IH|].
  cbn [obind]. now rewrite Hg.
Qed.

(** The iterations of the loop over the notes never outnumber the bytes of
    the section. *)
Lemma scan_notes_fuel (fuel fuel' : nat) (data : list Z) (offset : nat) :
  (List.length data - offset <= fuel)%nat ->
  (List.length data - offset <= fuel')%nat ->
  scan_notes fuel data offset = scan_notes fuel' data offset.
Proof.
  revert fuel' offset. induction fuel as [|fuel IH]; intros [|fuel'] offset H H';
    cbn [scan_notes]; auto.
  - destruct (offset <? List.length data)%nat eqn:E; auto.
    apply Nat.ltb_lt in E. lia.
  - destruct (offset <? List.length data)%nat eqn:E; auto.
    apply Nat.ltb_lt in E. lia.
  - destruct (offset <? List.length data)%nat eqn:E; auto.
    destruct (offset + sizeof_Nhdr <=? List.length data)%nat; auto.
    destruct (word_at data (offset + 8) =? NT_GNU_BUILD_ID); auto.
    apply IH; unfold sizeof_Nhdr; lia.
Qed.

(** *** Reading a section that holds notes *)

Lemma le32_bytes (v : Z) : Forall is_byte (le32 v).
Proof. unfold le32, is_byte. repeat constructor; apply Z.mod_pos_bound; lia. Qed.

Lemma byte_at_app (P B C : list Z) (k : nat) :
  Forall is_byte B ->
  (List.length P <= k)%nat -> (k < List.length P + List.length B)%nat ->
  byte_at (P ++ B ++ C) k = nth (k - List.length P) B 0.
Proof.
  intros HB H1 H2. unfold byte_at.
  rewrite app_nth2 by lia. rewrite app_nth1 by lia.
  apply Z.mod_small. rewrite Forall_forall in HB. apply HB, nth_In. lia.
Qed.

Lemma word_at_le32 (P C : list Z) (v : Z) :
  0 <= v < two32 -> word_at (P ++ le32 v ++ C) (List.length P) = v.
Proof.
  intros Hv. unfold word_at.
  rewrite !(byte_at_app P (le32 v) C) by (try apply le32_bytes; simpl; lia).
  replace (List.length P - List.length P)%nat with 0%nat by lia.
  replace (List.length P + 1 - List.length P)%nat with 1%nat by lia.
  replace (List.length P + 2 - List.length P)%nat with 2%nat by lia.
  replace (List.length P + 3 - List.length P)%nat with 3%nat by lia.
  cbn [le32 nth]. unfold two32 in Hv.
  change (2 ^ 32) with 4294967296 in Hv.
  Z.div_mod_to_equations. lia.
Qed.

(** The three words of the header of a note that starts after [P]. *)
Lemma header_words (P R : list Z) (a b t : Z) :
  0 <= a < two32 -> 0 <= b < two32 -> 0 <= t < two32 ->
  word_at (P ++ le32 a ++ le32 b ++ le32 t ++ R) (List.length P) = a /\
  word_at (P ++ le32 a ++ le32 b ++ le32 t ++ R) (List.length P + 4) = b /\
  word_at (P ++ le32 a ++ le32 b ++ le32 t ++ R) (List.length P + 8) = t.
Proof.
  intros Ha Hb Ht. split; [|split].
  - now apply word_at_le32.
  - rewrite (app_assoc P (le32 a)).
    replace (List.length P + 4)%nat with (List.length (P ++ le32 a))
      by (rewrite length_app; reflexivity).
    now apply word_at_le32.
  - rewrite (app_assoc P (le32 a)), (app_assoc (P ++ le32 a) (le32 b)).
    replace (List.length P + 8)%nat with (List.length ((P ++ le32 a) ++ le32 b))
      by (rewrite !length_app; simpl; lia).
    now apply word_at_le32.
Qed.

Lemma hex_bytes_app (A B C : list Z) :
  Forall is_byte B ->
  hex_bytes (A ++ B ++ C) (List.length A) (List.length B) = hex_string B.
Proof.
  intros HB. revert A. induction HB as [|b B Hb HB IH]; intros A; [reflexivity|].
  cbn [List.length hex_bytes hex_string]. f_equal.
  - f_equal. rewrite (byte_at_app A (b :: B) C);
      [now rewrite Nat.sub_diag|now constructor|lia|simpl; lia].
  - replace (A ++ (b :: B) ++ C) with ((A ++ [b]) ++ B ++ C)
      by (now rewrite <- app_assoc).
    replace (S (List.length A)) with (List.length (A ++ [b]))
      by (rewrite length_app; simpl; lia).
    apply IH.
Qed.

Lemma encode_note_length (n : note) :
  List.length (encode_note n)
  = (sizeof_Nhdr + List.length (note_name n) + List.length (note_desc n))%nat.
Proof. unfold encode_note, sizeof_Nhdr. rewrite !length_app. simpl. lia. Qed.

(** One iteration of the loop at a note that is no build-id note: the loop
    goes on at the note that follows. *)
Lemma scan_notes_skip (fuel : nat) (P T : list Z) (n : note) :
  note_ok n -> note_type n <> NT_GNU_BUILD_ID ->
  scan_notes (S fuel) (P ++ encode_note n ++ T) (List.length P)
  = scan_notes fuel (P ++ encode_note n ++ T) (List.length (P ++ encode_note n)).
Proof.
  intros (Ht & Hn & Hd & _ & _) Hty.
  pose proof (encode_note_length n) as Hlen. unfold sizeof_Nhdr in Hlen.
  assert (Hdata : List.length (P ++ encode_note n ++ T)
                  = (List.length P + List.length (encode_note n) + List.length T)%nat)
    by (rewrite !length_app; lia).
  cbn [scan_notes]. unfold sizeof_Nhdr.
  replace (List.length P <? List.length (P ++ encode_note n ++ T))%nat with true
    by (symmetry; apply Nat.ltb_lt; lia).
  replace (List.length P + 12 <=? List.length (P ++ encode_note n ++ T))%nat with true
    by (symmetry; apply Nat.leb_le; lia).
  assert (Hw : word_at (P ++ encode_note n ++ T) (List.length P)
               = Z.of_nat (List.length (note_name n)) /\
               word_at (P ++ encode_note n ++ T) (List.length P + 4)
               = Z.of_nat (List.length (note_desc n)) /\
               word_at (P ++ encode_note n ++ T) (List.length P + 8) = note_type n).
  { unfold encode_note. rewrite <- !app_assoc. apply header_words; auto; lia. }
  destruct Hw as (-> & -> & ->). rewrite !Nat2Z.id.
  replace (note_type n =? NT_GNU_BUILD_ID) with false
    by (symmetry; now apply Z.eqb_neq).
  f_equal. rewrite length_app. lia.
Qed.

(** One iteration of the loop at a build-id note: the descriptor in
    hexadecimal. *)
Lemma scan_notes_hit (fuel : nat) (P T : list Z) (n : note) :
  note_ok n -> note_type n = NT_GNU_BUILD_ID ->
  scan_notes (S fuel) (P ++ encode_note n ++ T) (List.length P)
  = Returns (Some (hex_string (note_desc n))).
Proof.
  intros (Ht & Hn & Hd & _ & Hbytes) Hty.
  pose proof (encode_note_length n) as Hlen. unfold sizeof_Nhdr in Hlen.
  assert (Hdata : List.length (P ++ encode_note n ++ T)
                  = (List.length P + List.length (encode_note n) + List.length T)%nat)
    by (rewrite !length_app; lia).
  cbn [scan_notes]. unfold sizeof_Nhdr.
  replace (List.length P <? List.length (P ++ encode_note n ++ T))%nat with true
    by (symmetry; apply Nat.ltb_lt; lia).
  replace (List.length P + 12 <=? List.length (P ++ encode_note n ++ T))%nat with true
    by (symmetry; apply Nat.leb_le; lia).
  assert (Hw : word_at (P ++ encode_note n ++ T) (List.length P)
               = Z.of_nat (List.length (note_name n)) /\
               word_at (P ++ encode_note n ++ T) (List.length P + 4)
               = Z.of_nat (List.length (note_desc n)) /\
               word_at (P ++ encode_note n ++ T) (List.length P + 8) = note_type n).
  { unfold encode_note. rewrite <- !app_assoc. apply header_words; auto; lia. }
  destruct Hw as (-> & -> & ->). rewrite !Nat2Z.id.
  rewrite Hty, Z.eqb_refl.
  replace (List.length P + 12 + List.length (note_name n) + List.length (note_desc n)
           <=? List.length (P ++ encode_note n ++ T))%nat with true
    by (symmetry; apply Nat.leb_le; lia).
  rewrite orb_true_r. do 2 f_equal.
  replace (P ++ encode_note n ++ T)
    with ((P ++ le32 (Z.of_nat (List.length (note_name n)))
             ++ le32 (Z.of_nat (List.length (note_desc n)))
             ++ le32 (note_type n) ++ note_name n) ++ note_desc n ++ T)
    by (unfold encode_note; now rewrite <- !app_assoc).
  match goal with
  | |- hex_bytes (?A ++ _ ++ _) ?k _ = _ =>
      replace k with (List.length A) by (rewrite !length_app; simpl; lia)
  end.
  now apply hex_bytes_app.
Qed.

(** The loop over a section that holds notes returns the descriptor of the
    first build-id note among them. *)
Lemma scan_notes_layout (ns : list note) (P : list Z) (fuel : nat) :
  Forall note_ok ns ->
  (List.length (encode_notes ns) <= fuel)%nat ->
  scan_notes fuel (P ++ encode_notes ns) (List.length P)
  = Returns (option_map hex_string (first_build_id ns)).
Proof.
  intros Hns. revert P fuel. induction Hns as [|n ns Hn _ IH]; intros P fuel Hfuel.
  - cbn [encode_notes flat_map first_build_id option_map]. rewrite app_nil_r.
    destruct fuel; cbn [scan_notes]; auto. now rewrite Nat.ltb_irrefl.
  - change (encode_notes (n :: ns)) with (encode_note n ++ encode_notes ns) in *.
    rewrite length_app, encode_note_length in Hfuel. unfold sizeof_Nhdr in Hfuel.
    destruct fuel as [|fuel]; [lia|].
    cbn [first_build_id]. destruct (note_type n =? NT_GNU_BUILD_ID) eqn:E.
    + apply Z.eqb_eq in E. now apply scan_notes_hit.
    + apply Z.eqb_neq in E. rewrite (scan_notes_skip fuel P _ n Hn E).
      rewrite app_assoc. apply IH. lia.
Qed.

Lemma first_build_id_app (a b : list note) :
  first_build_id (a ++ b)
  = match first_build_id a with Some d => Some d | None => first_build_id b end.
Proof.
  induction a as [|n a IH]; [reflexivity|]. cbn [app first_build_id].
  now destruct (note_type n =? NT_GNU_BUILD_ID).
Qed.

(** [find_build_id] on an image whose note sections hold notes. *)
Lemma find_build_id_layout (f : elf) (notes : list (list note)) :
  image_notes f notes -> find_build_id f = Returns (build_id_text notes).
Proof.
  unfold image_notes, find_build_id, build_id_text.
  induction 1 as [|s ns secs notes Hs _ IH]; [reflexivity|].
  cbn [find_build_id_in List.concat]. unfold section_notes in Hs.
  rewrite first_build_id_app.
  destruct (sec_type s).
  - destruct Hs as [Hdata Hok]. rewrite Hdata.
    pose proof (scan_notes_layout ns [] _ Hok (Nat.le_refl _)) as Hscan.
    cbn [app List.length] in Hscan. rewrite Hscan. cbn [obind].
    destruct (first_build_id ns); [reflexivity|exact IH].
  - subst ns. exact IH.
Qed.

(** C6 as stated fails.  The executable /opt/app/bin/tool lacks a debug-info
    section; of its four candidates the first does not open, the second
    opens and is rejected by the ELF reader, the third opens and contains a
    debug-info section.  The third is the first candidate that opens and
    contains a debug-info section, and the locator returns no image: the
    exception raised on the second candidate leaves it. *)
Lemma locate_fallback_raise_counterexample :
  get_full_path raising_world "/opt/app/bin/tool" = Returns "/opt/app/bin/tool"%string /\
  fs_open raising_world "/opt/app/bin/tool" = Some (Returns stripped_tool) /\
  has_debug_info stripped_tool = false /\
  image_notes stripped_tool stripped_tool_notes /\
  debug_link_name stripped_tool (Some "tool.debug"%string) /\
  fallback_candidates (build_id_text stripped_tool_notes) (directory_of "/opt/app/bin/tool")
    (Some "tool.debug"%string)
  = ["/usr/lib/debug/.build-id/ab/cdef.debug"%string;
     "/opt/app/bin/tool.debug"%string;
     "/opt/app/bin/.debug/tool.debug"%string;
     "/usr/lib/debug/opt/app/bin/tool.debug"%string] /\
  fs_open raising_world "/usr/lib/debug/.build-id/ab/cdef.debug" = None /\
  fs_open raising_world "/opt/app/bin/tool.debug" = Some (Throws elf_format_error) /\
  fs_open raising_world "/opt/app/bin/.debug/tool.debug" = Some (Returns tool_debug) /\
  has_debug_info tool_debug = true /\
  first_usable raising_world
    ["/usr/lib/debug/.build-id/ab/cdef.debug"%string;
     "/opt/app/bin/tool.debug"%string;
     "/opt/app/bin/.debug/tool.debug"%string;
     "/usr/lib/debug/opt/app/bin/tool.debug"%string] = Some tool_debug /\
  locate_debug_executable raising_world "/opt/app/bin/tool" = Throws elf_format_error.
Proof.
  repeat split; try reflexivity.
  - repeat constructor; repeat split; unfold is_byte, two32; simpl; try lia;
      repeat constructor; lia.
  - exists "tool.debug"%string, [0; 18; 52; 86; 120].
    split; [reflexivity|]. split; [|reflexivity].
    simpl. intuition discriminate.
Qed.

(** [c_string] on a section that starts with a name and a NUL. *)
Lemma c_string_name (name : string) (tail : list Z) :
  ~ In Ascii.zero (list_ascii_of_string name) ->
  c_string (string_bytes name ++ 0 :: tail) = Returns name.
Proof.
  unfold string_bytes. induction name as [|c name IH]; intros Hz; [reflexivity|].
  cbn [list_ascii_of_string List.map app c_string].
  assert (Hc : N_of_ascii c <> 0%N).
  { intros E. apply Hz. left. rewrite <- (ascii_N_embedding c), E. reflexivity. }
  replace (Z.of_N (N_of_ascii c) =? 0) with false by (symmetry; apply Z.eqb_neq; lia).
  rewrite IH by (intros H; apply Hz; now right). cbn [obind].
  now rewrite N2Z.id, ascii_N_embedding.
Qed.

Lemma debug_link_paths_candidates (f : elf) (link : option string) (directory : string) :
  debug_link_name f link ->
  debug_link_paths directory (get_section f ".gnu_debuglink")
  = Returns (fallback_candidates EmptyString directory link).
Proof.
  unfold debug_link_name, debug_link_paths.
  destruct (get_section f ".gnu_debuglink") as [sec|].
  - intros (name & tail & -> & Hz & ->). now rewrite (c_string_name name tail Hz).
  - now intros ->.
Qed.

(** C6, amended: when the located image opens and lacks a debug-info
    section, its note sections hold notes and its debug-link section, if
    any, holds a name, the candidates are the build-id path (when the first
    build-id note, in the order of the sections, has a descriptor that is
    not empty), then the three debug-link paths (when there is a debug-link
    section).  They are tried in this order.  A candidate that does not
    open, or that loads without a debug-info section, is passed over.  The
    first candidate that is not passed over decides: when it loads, it is
    returned; when the ELF reader raises on it, the exception leaves the
    locator; when the reader has no defined result, neither has the
    locator.  When every candidate is passed over, no image is returned. *)
Theorem locate_fallback_order (w : world) (filename full_path : string) (f : elf)
    (notes : list (list note)) (link : option string) (candidates : list string) :
  get_full_path w filename = Returns full_path ->
  full_path <> EmptyString ->
  fs_open w full_path = Some (Returns f) ->
  has_debug_info f = false ->
  image_notes f notes ->
  debug_link_name f link ->
  candidates
  = fallback_candidates (build_id_text notes) (directory_of full_path) link ->
  (forall before p after g,
     candidates = before ++ p :: after -> Forall (passed_over w) before ->
     fs_open w p = Some (Returns g) -> has_debug_info g = true ->
     locate_debug_executable w filename = Returns (Some g)) /\
  (forall before p after e,
     candidates = before ++ p :: after -> Forall (passed_over w) before ->
     fs_open w p = Some (Throws e) ->
     locate_debug_executable w filename = Throws e) /\
  (forall before p after,
     candidates = before ++ p :: after -> Forall (passed_over w) before ->
     fs_open w p = Some Undefined ->
     locate_debug_executable w filename = Undefined) /\
  (Forall (passed_over w) candidates ->
   locate_debug_executable w filename = Returns None).
Proof.
  intros Hfull Hne Hopen Hdbg Hnotes Hlink Hcand.
  assert (Hrun : locate_debug_executable w filename = try_search_paths w candidates).
  { unfold locate_debug_executable. rewrite Hfull. cbn [obind].
    destruct full_path as [|c rest]; [contradiction|].
    cbn [strlen String.length Nat.eqb]. rewrite Hopen. cbn [obind]. rewrite Hdbg.
    fold (directory_of (String c rest)).
    pose proof (find_build_id_layout f notes Hnotes) as Hid.
    rewrite Hid. cbn [obind].
    rewrite (debug_link_paths_candidates f link _ Hlink). cbn [obind].
    rewrite (build_id_paths_candidates _ (directory_of (String c rest))
               (find_build_id_shaped f _ Hid)).
    now rewrite <- fallback_candidates_app, <- Hcand. }
  rewrite Hrun. clear Hrun Hcand. repeat split.
  - intros before p after g -> Hb Hp Hg.
    rewrite (try_search_paths_passed_over w before _ Hb).
    cbn [try_search_paths]. rewrite Hp. cbn [obind]. now rewrite Hg.
  - intros before p after e -> Hb Hp.
    rewrite (try_search_paths_passed_over w before _ Hb).
    cbn [try_search_paths]. now rewrite Hp.
  - intros before p after -> Hb Hp.
    rewrite (try_search_paths_passed_over w before _ Hb).
    cbn [try_search_paths]. now rewrite Hp.
  - intros Hall. rewrite <- (app_nil_r candidates).
    now rewrite (try_search_paths_passed_over w candidates [] Hall).
Qed.

Lemma locate_fallback_order_witness :
  locate_debug_executable sample_world "/opt/app/bin/tool" = Returns (Some tool_debug) /\
  locate_debug_executable raising_world "/opt/app/bin/tool" = Throws elf_format_error.
Proof.
  assert (Hnotes : image_notes stripped_tool stripped_tool_notes).
  { repeat constructor; repeat split; unfold is_byte, two32; simpl; try lia;
      repeat constructor; lia. }
  assert (Hlink : debug_link_name stripped_tool (Some "tool.debug"%string)).
  { exists "tool.debug"%string, [0; 18; 52; 86; 120].
    split; [reflexivity|]. split; [|reflexivity].
    simpl. intuition discriminate. }
  split.
  - refine (proj1 (locate_fallback_order sample_world "/opt/app/bin/tool"
                     "/opt/app/bin/tool" stripped_tool stripped_tool_notes
                     (Some "tool.debug"%string) _
                     eq_refl _ eq_refl eq_refl Hnotes Hlink eq_refl)
              ["/usr/lib/debug/.build-id/ab/cdef.debug"%string;
               "/opt/app/bin/tool.debug"%string]
              "/opt/app/bin/.debug/tool.debug"%string
              ["/usr/lib/debug/opt/app/bin/tool.debug"%string]
              tool_debug eq_refl _ eq_refl eq_refl).
    + discriminate.
    + constructor; [now left|]. constructor; [|constructor].
      right. exists no_debug. now split.
  - refine (proj1 (proj2 (locate_fallback_order raising_world "/opt/app/bin/tool"
                     "/opt/app/bin/tool" stripped_tool stripped_tool_notes
                     (Some "tool.debug"%string) _
                     eq_refl _ eq_refl eq_refl Hnotes Hlink eq_refl))
              ["/usr/lib/debug/.build-id/ab/cdef.debug"%string]
              "/opt/app/bin/tool.debug"%string
              ["/opt/app/bin/.debug/tool.debug"%string;
               "/usr/lib/debug/opt/app/bin/tool.debug"%string]
              elf_format_error eq_refl _ eq_refl).
    + discriminate.
    + constructor; [now left|constructor].
Defined.

(* ================================================================== *)
(** ** std::map over a strict total order *)

Section StdMapOrdered.
Variables K V : Type.
Variable lt : K -> K -> bool.
Hypothesis lt_irrefl : forall a, lt a a = false.
Hypothesis lt_trans : forall a b c, lt a b = true -> lt b c = true -> lt a c = true.
Hypothesis lt_total : forall a b, lt a b = false -> lt b a = false -> a = b.
Implicit Types (k : K) (v : V) (m : StdMap.t K V) (x : K * V).

Lemma lt_asym a b : lt a b = true -> lt b a = false.
Proof.
  intros H. destruct (lt b a) eqn:E; auto.
  rewrite <- (lt_irrefl a). symmetry. now apply (lt_trans a b a).
Qed.

Lemma In_assign k v m x :
  In x (StdMap.assign lt k v m) -> x = (k, v) \/ In x m.
Proof.
  induction m as [|[k' v'] m IH]; simpl.
  - intros [<-|[]]. now left.
  - destruct (lt k k') eqn:E1; [|destruct (lt k' k) eqn:E2]; simpl.
    + intros [<-|[<-|H]]; auto.
    + intros [<-|H]; auto. destruct (IH H); auto.
    + intros [<-|H]; auto. left. f_equal. now apply lt_total.
Qed.

Lemma assign_sorted k v m :
  StronglySorted (fun x y => lt (fst x) (fst y) = true) m ->
  StronglySorted (fun x y => lt (fst x) (fst y) = true) (StdMap.assign lt k v m).
Proof.
  induction m as [|[k' v'] m IH]; intros Hs; simpl.
  - repeat constructor.
  - inversion Hs as [|? ? Hs' Hall]; subst.
    destruct (lt k k') eqn:E1; [|destruct (lt k' k) eqn:E2].
    + constructor; auto. constructor; auto.
      rewrite Forall_forall in *. intros x Hx. simpl.
      apply (lt_trans k k' (fst x)); auto.
    + constructor; auto.
      rewrite Forall_forall in *. intros x Hx.
      apply In_assign in Hx. destruct Hx as [->|Hx]; auto.
    + constructor; auto.
Qed.

Lemma find_assign_same k v m : StdMap.find lt k (StdMap.assign lt k v m) = Some v.
Proof.
  induction m as [|[k' v'] m IH]; simpl.
  - now rewrite lt_irrefl.
  - destruct (lt k k') eqn:E1; [|destruct (lt k' k) eqn:E2]; simpl.
    + now rewrite lt_irrefl.
    + now rewrite E2.
    + now rewrite E2, E1.
Qed.

Lemma find_assign_other k k0 v m :
  k0 <> k -> StdMap.find lt k0 (StdMap.assign lt k v m) = StdMap.find lt k0 m.
Proof.
  intros Hne. induction m as [|[k' v'] m IH]; simpl.
  - destruct (lt k k0) eqn:E1; auto. destruct (lt k0 k) eqn:E2; auto.
    exfalso. apply Hne. now apply lt_total.
  - destruct (lt k k') eqn:E1; [|destruct (lt k' k) eqn:E2]; simpl.
    + destruct (lt k k0) eqn:E3; auto.
      destruct (lt k0 k) eqn:E4.
      * rewrite (lt_asym k0 k') by (now apply (lt_trans k0 k k')).
        now rewrite (lt_trans k0 k k').
      * exfalso. apply Hne. now apply lt_total.
    + destruct (lt k' k0); auto.
    + assert (k' = k) by (now apply lt_total). subst k'.
      destruct (lt k k0) eqn:E3; auto. destruct (lt k0 k) eqn:E4; auto.
      exfalso. apply Hne. now apply lt_total.
Qed.

Lemma find_sorted_In k v m :
  StronglySorted (fun x y => lt (fst x) (fst y) = true) m ->
  (StdMap.find lt k m = Some v <-> In (k, v) m).
Proof.
  intros Hs. split.
  - intros H. apply find_Some_In in H. destruct H as (k' & Hin & H1 & H2).
    now rewrite (lt_total k k').
  - induction m as [|[k' v'] m IH]; intros Hin; [destruct Hin|].
    inversion Hs as [|? ? Hs' Hall]; subst. simpl.
    destruct Hin as [[= -> ->]|Hin].
    + now rewrite lt_irrefl.
    + rewrite Forall_forall in Hall. specialize (Hall _ Hin). simpl in Hall.
      rewrite Hall. auto.
Qed.
End StdMapOrdered.

Lemma string_ltb_trans (a b c : string) :
  String.ltb a b = true -> String.ltb b c = true -> String.ltb a c = true.
Proof.
  unfold String.ltb. intros H1 H2.
  assert (L1 : String.compare a b = Lt) by (destruct (String.compare a b); congruence).
  assert (L2 : String.compare b c = Lt) by (destruct (String.compare b c); congruence).
  apply OrderedTypeEx.String_as_OT.cmp_lt in L1, L2.
  pose proof (OrderedTypeEx.String_as_OT.lt_trans _ _ _ L1 L2) as L.
  apply OrderedTypeEx.String_as_OT.cmp_lt in L.
  unfold OrderedTypeEx.String_as_OT.cmp in L. now rewrite L.
Qed.

(* ================================================================== *)
(** ** The module enumerator (C8, C9) *)

Lemma read_mappings_candidates (stream : list scan_result) (result : StdMap.t string Z) :
  read_mappings true stream result
  = fold_left (fun m c => StdMap.assign String.ltb (fst c) (snd c) m)
              (candidates stream) result.
Proof.
  revert result. induction stream as [|[rc r] rest IH]; intros result; simpl; auto.
  unfold is_executable_mapping. destruct (rc =? 8); simpl; auto.
  rewrite IH.
  destruct ((map_offset r =? 0) && (char_at 2 (map_perms r) =? "x")%char
            && first_char_is "/" (map_path r)); reflexivity.
Qed.

Lemma read_mappings_first (stream : list scan_result) :
  read_mappings false stream StdMap.empty = firstn 1 (candidates stream).
Proof.
  induction stream as [|[rc r] rest IH]; simpl; auto.
  unfold is_executable_mapping. destruct (rc =? 8); simpl; auto.
  destruct ((map_offset r =? 0) && (char_at 2 (map_perms r) =? "x")%char
            && first_char_is "/" (map_path r)); simpl.
  - destruct rest; reflexivity.
  - exact IH.
Qed.

Lemma find_app_last {A : Type} (p : A -> bool) (a b : list A) :
  List.find p (a ++ b)
  = match List.find p a with Some x => Some x | None => List.find p b end.
Proof. induction a as [|x a IH]; simpl; auto. destruct (p x); auto. Qed.

Lemma fold_assign_sorted (cs : list (string * Z)) (m : StdMap.t string Z) :
  paths_ascending m ->
  paths_ascending (fold_left (fun m c => StdMap.assign String.ltb (fst c) (snd c) m) cs m).
Proof.
  revert m. induction cs as [|c cs IH]; intros m Hm; simpl; auto.
  apply IH. unfold paths_ascending in *.
  apply assign_sorted;
    [exact string_ltb_trans | exact string_ltb_total | exact Hm].
Qed.

Lemma fold_assign_find (path : string) (cs : list (string * Z)) (m : StdMap.t string Z) :
  StdMap.find String.ltb path
    (fold_left (fun m c => StdMap.assign String.ltb (fst c) (snd c) m) cs m)
  = match last_base path cs with
    | Some base => Some base
    | None => StdMap.find String.ltb path m
    end.
Proof.
  revert m. induction cs as [|[p b] cs IH]; intros m; simpl; auto.
  rewrite IH. unfold last_base. simpl. rewrite find_app_last.
  destruct (List.find (fun c => (fst c =? path)%string) (rev cs)); simpl; auto.
  destruct (String.eqb_spec p path) as [->|Hne]; simpl.
  - apply find_assign_same. exact string_ltb_irrefl.
  - apply find_assign_other;
      [exact string_ltb_irrefl | exact string_ltb_trans | exact string_ltb_total
      | congruence].
Qed.

(** C8 as stated fails.  /usr/bin/app is mapped at 0x400000, then
    /lib/libc.so, then /usr/bin/app again at 0x600000: the enumerator lists
    /lib/libc.so first and keeps 0x600000, where the first occurrences are
    /usr/bin/app at 0x400000, then /lib/libc.so. *)
Lemma get_loaded_files_order_counterexample :
  get_loaded_files (Some sample_maps) true
  = Returns [("/lib/libc.so"%string, 8323072); ("/usr/bin/app"%string, 6291456)] /\
  first_occurrences (candidates sample_maps)
  = [("/usr/bin/app"%string, 4194304); ("/lib/libc.so"%string, 8323072)].
Proof. split; reflexivity. Qed.

(** C8, amended: with libraries included the enumerator returns one entry
    per path, in ascending order of the paths, and the base of a path is the
    one of its last occurrence among the mappings read; without libraries
    it returns the first candidate alone. *)
Theorem get_loaded_files_order (stream : list scan_result) (include_libs : bool)
    (result : StdMap.t string Z) :
  get_loaded_files (Some stream) include_libs = Returns result ->
  if include_libs then
    paths_ascending result /\
    forall path base,
      In (path, base) result <-> last_base path (candidates stream) = Some base
  else result = firstn 1 (candidates stream).
Proof.
  unfold get_loaded_files. intros [= <-]. destruct include_libs.
  - rewrite read_mappings_candidates.
    assert (Hs : paths_ascending
                   (fold_left (fun m c => StdMap.assign String.ltb (fst c) (snd c) m)
                              (candidates stream) StdMap.empty))
      by (apply fold_assign_sorted; constructor).
    split; auto. intros path base.
    rewrite <- (find_sorted_In _ _ String.ltb string_ltb_irrefl string_ltb_total
                  path base _ Hs).
    rewrite fold_assign_find. simpl.
    destruct (last_base path (candidates stream)); split; congruence.
  - apply read_mappings_first.
Qed.

Lemma get_loaded_files_order_witness :
  In ("/usr/bin/app"%string, 6291456) (read_mappings true sample_maps StdMap.empty) /\
  last_base "/usr/bin/app" (candidates sample_maps) = Some 6291456.
Proof.
  split; [|reflexivity].
  exact (proj2 (proj2 (get_loaded_files_order sample_maps true _ eq_refl)
                  "/usr/bin/app"%string 6291456) eq_refl).
Defined.

(** C9 fails on the code: when [fopen] fails the null stream is handed to
    [fscanf] and [fclose], and no empty sequence is returned; [build] has no
    defined result either. *)
Theorem get_loaded_files_null_stream (include_libs : bool)
    (normalize : string -> string) (w : world) (scope : list string)
    (m : memory_map) :
  get_loaded_files None include_libs = Undefined /\
  build normalize w None scope include_libs m = (Undefined, m).
Proof. split; reflexivity. Qed.

(* ================================================================== *)
(** ** build (C2) *)

Section BuildFacts.
Variable normalize : string -> string.
Variable w : world.
Variable scope : list string.

Lemma process_modules_system_errors (modules : list (string * Z)) (m : memory_map) :
  (forall name base m0 e,
     In (name, base) modules ->
     fst (process_file normalize w name base scope m0) = Throws e ->
     is_system_error e = true) ->
  (forall name base m0,
     In (name, base) modules ->
     fst (process_file normalize w name base scope m0) <> Undefined) ->
  process_modules normalize w scope modules m
  = (Returns tt,
     fold_left (fun acc mb =>
                  snd (process_file normalize w (fst mb) (snd mb) scope acc))
               modules m).
Proof.
  revert m. induction modules as [|[name base] rest IH]; intros m Hsys Hdef; simpl; auto.
  assert (IH' : forall m', process_modules normalize w scope rest m'
                = (Returns tt,
                   fold_left (fun acc mb =>
                                snd (process_file normalize w (fst mb) (snd mb) scope acc))
                             rest m')).
  { intros m'. apply IH.
    - intros n b m0 e Hin. apply Hsys. now right.
    - intros n b m0 Hin. apply Hdef. now right. }
  pose proof (Hsys name base m) as Hs. pose proof (Hdef name base m) as Hd.
  destruct (process_file normalize w name base scope m) as [[b|e|] m']; simpl in *.
  - apply IH'.
  - rewrite (Hs e (or_introl eq_refl) eq_refl). apply IH'.
  - exfalso. now apply Hd; [left|].
Qed.

(** C2, amended: when the mapping table opens and every exception that the
    processing of a module raises is a [std::system_error], [build] returns
    normally and its effect on the index is that of processing every
    enumerated module in turn, whatever a module contributed before it
    raised.  Exceptions of other types are not caught by [build]. *)
Theorem build_catches_system_errors (stream : list scan_result)
    (include_libs : bool) (m : memory_map) :
  (forall name base m0 e,
     In (name, base) (read_mappings include_libs stream StdMap.empty) ->
     fst (process_file normalize w name base scope m0) = Throws e ->
     is_system_error e = true) ->
  (forall name base m0,
     In (name, base) (read_mappings include_libs stream StdMap.empty) ->
     fst (process_file normalize w name base scope m0) <> Undefined) ->
  build normalize w (Some stream) scope include_libs m
  = (Returns tt,
     fold_left (fun acc mb =>
                  snd (process_file normalize w (fst mb) (snd mb) scope acc))
               (read_mappings include_libs stream StdMap.empty) m).
Proof.
  intros Hsys Hdef. unfold build, get_loaded_files.
  now apply process_modules_system_errors.
Qed.
End BuildFacts.

(** C2 as stated fails.  /opt/app/bin/bad is no ELF file and the reader
    raises [elf::format_error], which is no [std::system_error]: the
    exception leaves [build], and /opt/app/bin/tool, which has debug
    information, is not indexed. *)
Lemma build_format_error_counterexample :
  build lexically_normal sample_world (Some bad_then_tool) ["/src"%string] true empty_map
  = (Throws elf_format_error, empty_map) /\
  find_line_addr
    (snd (process_file lexically_normal sample_world "/opt/app/bin/tool" 8323072
            ["/src"%string] empty_map)) 8327170
  = Some (mk_line "/src/a.c" 10).
Proof. split; reflexivity. Qed.

Lemma build_catches_system_errors_witness :
  fst (build lexically_normal sample_world (Some mmapfail_then_tool) ["/src"%string]
         true empty_map) = Returns tt /\
  find_line_addr
    (snd (build lexically_normal sample_world (Some mmapfail_then_tool)
            ["/src"%string] true empty_map)) 8327170
  = Some (mk_line "/src/a.c" 10).
Proof.
  rewrite (build_catches_system_errors lexically_normal sample_world ["/src"%string]
             mmapfail_then_tool true empty_map).
  - split; reflexivity.
  - intros name base m0 e [[= <- <-]|[[= <- <-]|[]]] Hthrow.
    + injection Hthrow as <-. reflexivity.
    + discriminate Hthrow.
  - intros name base m0 [[= <- <-]|[[= <- <-]|[]]] Hundef; discriminate Hundef.
Defined.

(* ================================================================== *)
(** * Further properties of the code *)

(** ** std::map: lookups after updates *)

Section StdMapUpdates.
Variables K V : Type.
Variable lt : K -> K -> bool.
Implicit Types (k : K) (v : V) (m : StdMap.t K V) (x : K * V).

Lemma find_replace_same k v m :
  StdMap.find lt k (StdMap.replace lt k v m)
  = match StdMap.find lt k m with Some _ => Some v | None => None end.
Proof.
  induction m as [|[k' v'] m IH]; simpl; auto.
  destruct (lt k' k) eqn:E1; simpl.
  - now rewrite E1.
  - destruct (lt k k') eqn:E2; simpl; now rewrite E1, E2.
Qed.

Lemma replace_idem k v m :
  StdMap.replace lt k v (StdMap.replace lt k v m) = StdMap.replace lt k v m.
Proof.
  induction m as [|[k' v'] m IH]; simpl; auto.
  destruct (lt k' k) eqn:E1; simpl.
  - now rewrite E1, IH.
  - destruct (lt k k') eqn:E2; simpl; now rewrite E1, E2.
Qed.

Lemma In_replace_key k v m x :
  In x (StdMap.replace lt k v m) -> exists x', In x' m /\ fst x = fst x'.
Proof.
  induction m as [|[k' v'] m IH]; simpl; [tauto|].
  destruct (lt k' k); [|destruct (lt k k')]; simpl.
  - intros [<-|H]; [eauto|]. destruct (IH H) as (x' & ? & ?). eauto.
  - intros [<-|H]; eauto.
  - intros [<-|H]; [exists (k', v'); auto|eauto].
Qed.

Lemma replace_sorted k v m :
  StronglySorted (fun x y => lt (fst x) (fst y) = true) m ->
  StronglySorted (fun x y => lt (fst x) (fst y) = true) (StdMap.replace lt k v m).
Proof.
  induction m as [|[k' v'] m IH]; intros Hs; simpl; auto.
  inversion Hs as [|? ? Hs' Hall]; subst.
  destruct (lt k' k); [|destruct (lt k k')]; auto.
  - constructor; auto. rewrite Forall_forall in *. intros x Hx.
    apply In_replace_key in Hx. destruct Hx as (x' & Hx' & ->). now apply Hall.
  - constructor; auto.
Qed.

Lemma emplace_idem k v m :
  lt k k = false ->
  StdMap.emplace lt k v (StdMap.emplace lt k v m) = StdMap.emplace lt k v m.
Proof.
  intros Hk. induction m as [|[k' v'] m IH]; simpl.
  - now rewrite Hk.
  - destruct (lt k k') eqn:E1; simpl.
    + now rewrite Hk.
    + destruct (lt k' k) eqn:E2; simpl; rewrite E1, E2; [now rewrite IH|reflexivity].
Qed.

Hypothesis lt_irrefl : forall a, lt a a = false.
Hypothesis lt_trans : forall a b c, lt a b = true -> lt b c = true -> lt a c = true.
Hypothesis lt_total : forall a b, lt a b = false -> lt b a = false -> a = b.

Lemma find_emplace_same k v m :
  StdMap.find lt k (StdMap.emplace lt k v m)
  = match StdMap.find lt k m with Some v' => Some v' | None => Some v end.
Proof.
  induction m as [|[k' v'] m IH]; simpl.
  - now rewrite lt_irrefl.
  - destruct (lt k k') eqn:E1; simpl.
    + now rewrite lt_irrefl, (lt_asym K lt lt_irrefl lt_trans k k' E1).
    + destruct (lt k' k) eqn:E2; simpl; rewrite E2, ?E1; auto.
Qed.

Lemma find_emplace_other k k0 v m :
  k0 <> k -> StdMap.find lt k0 (StdMap.emplace lt k v m) = StdMap.find lt k0 m.
Proof.
  intros Hne. induction m as [|[k' v'] m IH]; simpl.
  - destruct (lt k k0) eqn:E1; auto. destruct (lt k0 k) eqn:E2; auto.
    exfalso. apply Hne. now apply lt_total.
  - destruct (lt k k') eqn:E1; [|destruct (lt k' k) eqn:E2]; simpl; auto.
    + destruct (lt k k0) eqn:E3; auto.
      destruct (lt k0 k) eqn:E4.
      * rewrite (lt_asym K lt lt_irrefl lt_trans k0 k')
          by (now apply (lt_trans k0 k k')).
        now rewrite (lt_trans k0 k k').
      * exfalso. apply Hne. now apply lt_total.
    + destruct (lt k' k0); auto.
Qed.

Lemma find_replace_other k k0 v m :
  k0 <> k -> StdMap.find lt k0 (StdMap.replace lt k v m) = StdMap.find lt k0 m.
Proof.
  intros Hne. induction m as [|[k' v'] m IH]; simpl; auto.
  destruct (lt k' k) eqn:E1; [|destruct (lt k k') eqn:E2]; simpl; auto.
  - destruct (lt k' k0); auto.
  - assert (k' = k) by (now apply lt_total). subst k'.
    destruct (lt k k0) eqn:E3; auto. destruct (lt k0 k) eqn:E4; auto.
    exfalso. apply Hne. now apply lt_total.
Qed.

Lemma emplace_sorted_keys k v m :
  StronglySorted (fun x y => lt (fst x) (fst y) = true) m ->
  StronglySorted (fun x y => lt (fst x) (fst y) = true) (StdMap.emplace lt k v m).
Proof.
  induction m as [|[k' v'] m IH]; intros Hs; simpl.
  - repeat constructor.
  - inversion Hs as [|? ? Hs' Hall]; subst.
    destruct (lt k k') eqn:E1; [|destruct (lt k' k) eqn:E2]; auto.
    + constructor; auto. constructor; auto.
      rewrite Forall_forall in *. intros x Hx. simpl.
      apply (lt_trans k k' (fst x)); auto.
    + constructor; auto.
      rewrite Forall_forall in *. intros x Hx.
      apply In_emplace in Hx. destruct Hx as [->|Hx]; auto.
Qed.
End StdMapUpdates.

Lemma Z_ltb_irrefl (a : Z) : (a <? a) = false.
Proof. apply Z.ltb_irrefl. Qed.

Lemma Z_ltb_trans (a b c : Z) : (a <? b) = true -> (b <? c) = true -> (a <? c) = true.
Proof. rewrite !Z.ltb_lt. lia. Qed.

(** ** add_range: what it leaves in the index *)

Lemma add_range_eq (m : memory_map) (filename : string) (line_no : Z) (range : interval) :
  add_range m filename line_no range
  = mk_memory_map
      (StdMap.replace String.ltb filename
         (fst (get_line (snd (get_file m filename)) line_no))
         (_files (fst (get_file m filename))))
      (StdMap.emplace interval_lt range
         (snd (get_line (snd (get_file m filename)) line_no))
         (_ranges (fst (get_file m filename)))).
Proof.
  unfold add_range. destruct (get_file m filename) as [m1 f]. simpl.
  destruct (get_line f line_no) as [f' l]. reflexivity.
Qed.

Lemma get_file_find (m : memory_map) (filename : string) :
  StdMap.find String.ltb filename (_files (fst (get_file m filename)))
  = Some (snd (get_file m filename)).
Proof.
  unfold get_file.
  destruct (StdMap.find String.ltb filename (_files m)) as [f|] eqn:E; simpl; auto.
  rewrite (find_emplace_same _ _ String.ltb string_ltb_irrefl string_ltb_trans).
  now rewrite E.
Qed.

Lemma get_file_find_other (m : memory_map) (filename other : string) :
  other <> filename ->
  StdMap.find String.ltb other (_files (fst (get_file m filename)))
  = StdMap.find String.ltb other (_files m).
Proof.
  intros Hne. unfold get_file.
  destruct (StdMap.find String.ltb filename (_files m)); simpl; auto.
  apply find_emplace_other;
    [exact string_ltb_irrefl|exact string_ltb_trans|exact string_ltb_total|exact Hne].
Qed.

Lemma get_file_ranges (m : memory_map) (filename : string) :
  _ranges (fst (get_file m filename)) = _ranges m.
Proof.
  unfold get_file. now destruct (StdMap.find String.ltb filename (_files m)).
Qed.

Lemma get_line_find (f : file) (line_no : Z) :
  StdMap.find Z.ltb line_no (_lines (fst (get_line f line_no)))
  = Some (snd (get_line f line_no)).
Proof.
  unfold get_line.
  destruct (StdMap.find Z.ltb line_no (_lines f)) as [l|] eqn:E; simpl; auto.
  rewrite (find_emplace_same _ _ Z.ltb Z_ltb_irrefl Z_ltb_trans). now rewrite E.
Qed.

Lemma get_line_keeps (f : file) (line_no n : Z) (l : line) :
  StdMap.find Z.ltb n (_lines f) = Some l ->
  StdMap.find Z.ltb n (_lines (fst (get_line f line_no))) = Some l.
Proof.
  intros H. unfold get_line.
  destruct (StdMap.find Z.ltb line_no (_lines f)) as [l0|] eqn:E; simpl; auto.
  destruct (Z.eq_dec n line_no) as [->|Hne]; [congruence|].
  rewrite find_emplace_other;
    [exact H|exact Z_ltb_irrefl|exact Z_ltb_trans|exact Z_ltb_total|exact Hne].
Qed.

Lemma add_range_find_file (m : memory_map) (filename : string) (line_no : Z)
    (range : interval) :
  StdMap.find String.ltb filename (_files (add_range m filename line_no range))
  = Some (fst (get_line (snd (get_file m filename)) line_no)).
Proof.
  rewrite add_range_eq. simpl. rewrite find_replace_same.
  now rewrite get_file_find.
Qed.

Lemma add_range_find_other (m : memory_map) (filename other : string) (line_no : Z)
    (range : interval) :
  other <> filename ->
  StdMap.find String.ltb other (_files (add_range m filename line_no range))
  = StdMap.find String.ltb other (_files m).
Proof.
  intros Hne. rewrite add_range_eq. simpl.
  rewrite find_replace_other; [|exact string_ltb_total|exact Hne].
  now apply get_file_find_other.
Qed.

(** X1.  Adding again the entry that was just added changes nothing: the
    File and the Line are found, and [emplace] finds the range present. *)
Theorem add_range_idempotent (m : memory_map) (filename : string) (line_no : Z)
    (range : interval) :
  _base range < _limit range ->
  add_range (add_range m filename line_no range) filename line_no range
  = add_range m filename line_no range.
Proof.
  intros Hr.
  set (m2 := add_range m filename line_no range).
  set (f' := fst (get_line (snd (get_file m filename)) line_no)).
  set (l := snd (get_line (snd (get_file m filename)) line_no)).
  assert (Hf : get_file m2 filename = (m2, f')).
  { unfold get_file. unfold m2 at 1. now rewrite add_range_find_file. }
  assert (Hl : get_line f' line_no = (f', l)).
  { unfold get_line. unfold f' at 1. now rewrite get_line_find. }
  rewrite (add_range_eq m2). rewrite Hf. simpl. rewrite Hl. simpl.
  unfold m2. rewrite add_range_eq. simpl. fold f' l.
  rewrite replace_idem. f_equal.
  apply emplace_idem. unfold interval_lt. apply Z.leb_gt. exact Hr.
Qed.

Lemma add_range_idempotent_witness :
  add_range (add_range empty_map "/src/a.c" 10 (mk_interval 4096 4128))
            "/src/a.c" 10 (mk_interval 4096 4128)
  = add_range empty_map "/src/a.c" 10 (mk_interval 4096 4128).
Proof.
  apply (add_range_idempotent empty_map "/src/a.c" 10 (mk_interval 4096 4128)).
  simpl. lia.
Defined.

Lemma find_string_In (files : StdMap.t string file) (path : string) (f : file) :
  StdMap.find String.ltb path files = Some f -> In (path, f) files.
Proof.
  intros H. apply find_Some_In in H. destruct H as (k' & Hin & H1 & H2).
  now rewrite (string_ltb_total path k').
Qed.

Lemma get_file_registry (m : memory_map) (filename : string) :
  registry_ok m ->
  registry_ok (fst (get_file m filename)) /\
  file_ok filename (snd (get_file m filename)).
Proof.
  intros [Hs Hf].
  assert (Hm1 : registry_ok (fst (get_file m filename))).
  { unfold get_file.
    destruct (StdMap.find String.ltb filename (_files m)) as [f|] eqn:E; simpl;
      [split; auto|].
    split; simpl.
    - apply emplace_sorted_keys; auto. exact string_ltb_trans.
    - intros path f Hin. apply In_emplace in Hin.
      destruct Hin as [[= -> ->]|Hin]; [|now apply Hf].
      split; [reflexivity|]. split; [constructor|intros n l []]. }
  split; auto.
  apply Hm1. apply find_string_In. apply get_file_find.
Qed.

Lemma get_line_file_ok (path : string) (f : file) (line_no : Z) :
  file_ok path f ->
  file_ok path (fst (get_line f line_no)) /\
  snd (get_line f line_no) = mk_line path line_no.
Proof.
  intros (Hn & Hs & Hl). subst path.
  destruct (get_line_named f line_no Hl) as (Hsnd & Hname & Hlines).
  split; auto. split; auto. split; auto.
  unfold get_line.
  destruct (StdMap.find Z.ltb line_no (_lines f)); simpl; auto.
  apply emplace_sorted_keys; auto. exact Z_ltb_trans.
Qed.

Lemma add_range_registry (m : memory_map) (filename : string) (line_no : Z)
    (range : interval) :
  registry_ok m -> registry_ok (add_range m filename line_no range).
Proof.
  intros Hm. destruct (get_file_registry m filename Hm) as [[Hs1 Hf1] Hf0].
  destruct (get_line_file_ok _ _ line_no Hf0) as [Hf' _].
  rewrite add_range_eq. split; simpl.
  - now apply replace_sorted.
  - intros path f Hin. apply In_replace in Hin.
    destruct Hin as [Hin|(k' & [= -> ->] & H1 & H2)]; [now apply Hf1|].
    now rewrite (string_ltb_total k' filename).
Qed.

Lemma add_range_registered (m : memory_map) (filename : string) (line_no : Z)
    (range : interval) :
  registry_ok m -> ranges_registered m ->
  ranges_registered (add_range m filename line_no range).
Proof.
  intros Hm Hr r0 l0 Hin.
  destruct (get_file_registry m filename Hm) as [_ Hf0].
  destruct (get_line_file_ok _ _ line_no Hf0) as [_ Hl].
  assert (Hnew : StdMap.find Z.ltb line_no
                   (_lines (fst (get_line (snd (get_file m filename)) line_no)))
                 = Some (mk_line filename line_no))
    by (rewrite <- Hl; apply get_line_find).
  rewrite add_range_eq in Hin. simpl in Hin. rewrite Hl in Hin.
  apply In_emplace in Hin. rewrite get_file_ranges in Hin.
  destruct Hin as [[= -> ->]|Hin].
  - simpl. rewrite add_range_find_file. eauto.
  - destruct (Hr _ _ Hin) as (g & Hg & Hgl).
    destruct (String.eqb_spec (line_file l0) filename) as [E|Hne].
    + rewrite E in *. rewrite add_range_find_file.
      eexists. split; [reflexivity|].
      apply get_line_keeps. unfold get_file. now rewrite Hg.
    + rewrite add_range_find_other by exact Hne. eauto.
Qed.

Lemma add_ranges_registry_inv (es : list range_entry) (m : memory_map) :
  registry_ok m -> ranges_registered m ->
  registry_ok (add_ranges m es) /\ ranges_registered (add_ranges m es).
Proof.
  revert m. induction es as [|[[f n] r] es IH]; simpl; intros m Hm Hr; auto.
  apply IH; [now apply add_range_registry|now apply add_range_registered].
Qed.

Lemma empty_map_registry : registry_ok empty_map /\ ranges_registered empty_map.
Proof.
  split; [split; [constructor|intros path f []]|intros r l []].
Qed.

(** X2.  Whatever is added, the index keeps one File per path, stored under
    its own name in ascending order of the paths, and each File keeps one
    Line per number, in ascending order, each recording its file and
    number. *)
Theorem add_ranges_registry (es : list range_entry) :
  registry_ok (add_ranges empty_map es).
Proof.
  destruct empty_map_registry as [H1 H2].
  now destruct (add_ranges_registry_inv es empty_map H1 H2).
Qed.

(** X3.  A Line that a query by address returns is registered: its File is
    found under its file name, and that File holds this very Line under its
    number. *)
Theorem find_line_addr_registered (es : list range_entry) (a : Z) (l : line) :
  find_line_addr (add_ranges empty_map es) a = Some l ->
  exists f,
    StdMap.find String.ltb (line_file l) (_files (add_ranges empty_map es)) = Some f /\
    StdMap.find Z.ltb (line_number l) (_lines f) = Some l.
Proof.
  intros H. unfold find_line_addr in H. apply find_Some_In in H.
  destruct H as (r & Hin & _).
  destruct empty_map_registry as [H1 H2].
  destruct (add_ranges_registry_inv es empty_map H1 H2) as [_ Hr].
  exact (Hr _ _ Hin).
Qed.

Lemma find_line_addr_registered_witness :
  exists f,
    StdMap.find String.ltb "/src/a.c"%string
      (_files (add_ranges empty_map overlapping_entries)) = Some f /\
    StdMap.find Z.ltb 10 (_lines f) = Some (mk_line "/src/a.c" 10).
Proof.
  exact (find_line_addr_registered overlapping_entries 4100
           (mk_line "/src/a.c" 10) eq_refl).
Defined.

(* ================================================================== *)
(** ** Queries by name on an index that was filled by add_range *)

Lemma strongly_sorted_tail {A : Type} (R : A -> A -> Prop) (a b : list A) :
  StronglySorted R (a ++ b) -> StronglySorted R b.
Proof.
  induction a as [|x a IH]; simpl; auto.
  intros H. inversion H; subst. auto.
Qed.

Lemma is_suffix_refl (s : string) : is_suffix s s.
Proof. now exists EmptyString. Qed.

(** X4.  After [add_range] for a file and a line number [n] below [2^64],
    the query made of that file name, a colon and the decimal numeral of
    [n] succeeds. *)
Theorem add_range_then_find_line_name (m : memory_map) (filename : string)
    (digits : list Z) (range : interval) :
  find_char ":"%char filename = None ->
  is_numeral digits -> numeral_value digits < two64 ->
  exists l,
    find_line_name (add_range m filename (numeral_value digits) range)
                   (filename ++ String ":"%char (numeral_string digits))
    = Returns (Some l).
Proof.
  intros Hc Hn Hlt. rewrite (find_line_name_numeral _ _ _ Hc Hn Hlt).
  apply find_in_files_complete.
  exists filename,
    (fst (get_line (snd (get_file m filename)) (numeral_value digits))).
  split; [apply find_string_In, add_range_find_file|].
  split; [apply is_suffix_refl|].
  apply has_line_find. eexists. apply get_line_find.
Qed.

Lemma add_range_then_find_line_name_witness :
  exists l,
    find_line_name (add_range foo_index "/src/project/bar.cpp" 42 (mk_interval 8192 8200))
                   "/src/project/bar.cpp:42" = Returns (Some l).
Proof.
  apply (add_range_then_find_line_name foo_index "/src/project/bar.cpp" [4; 2]
           (mk_interval 8192 8200) eq_refl).
  - split; [discriminate|]. repeat constructor; lia.
  - reflexivity.
Defined.

(** The loop over [files()] stops at the first File, in the order of the
    paths, whose path ends with the name and that has the line. *)
Lemma find_in_files_first files filename n l :
  find_in_files files filename (Some n) = Returns (Some l) ->
  exists before path f after,
    files = before ++ (path, f) :: after /\
    is_suffix filename path /\
    StdMap.find Z.ltb n (_lines f) = Some l /\
    forall path' f', In (path', f') before ->
      ~ (is_suffix filename path' /\ has_line f' n = true).
Proof.
  induction files as [|[path f] files IH]; simpl; [discriminate|].
  pose proof (suffix_test filename path) as Ht.
  assert (Hrec : find_in_files files filename (Some n) = Returns (Some l) ->
                 ~ (is_suffix filename path /\ has_line f n = true) ->
                 exists before path0 f0 after,
                   (path, f) :: files = before ++ (path0, f0) :: after /\
                   is_suffix filename path0 /\
                   StdMap.find Z.ltb n (_lines f0) = Some l /\
                   forall path' f', In (path', f') before ->
                     ~ (is_suffix filename path' /\ has_line f' n = true)).
  { intros H Hno. destruct (IH H) as (before & p0 & f0 & after & -> & Hs & Hf & Hb).
    exists ((path, f) :: before), p0, f0, after. repeat split; auto.
    intros path' f' [[= <- <-]|Hin]; auto. }
  destruct (string_rfind filename path) as [p|].
  - destruct ((p + strlen filename =? strlen path)%nat) eqn:E1.
    + destruct (has_line f n) eqn:E2.
      * intros [= <-]. apply has_line_find in E2. destruct E2 as [l0 E2].
        exists [], path, f, files. rewrite (get_line_present _ _ _ E2).
        repeat split; auto. now apply Ht.
      * intros H. apply Hrec; auto. intros [_ Hl]. discriminate.
    + intros H. apply Hrec; auto. intros [Hs _]. apply Ht in Hs. discriminate.
  - intros H. apply Hrec; auto. intros [Hs _]. apply Ht in Hs. discriminate.
Qed.

(** X5.  On an index filled by [add_range], the Line that the query
    [<filename>:<n>] returns, with [<n>] the decimal numeral of a number
    below [2^64], has the number [n] and belongs to a File whose path ends
    with the name that was asked for; among the Files that match and have
    the line, it is the one with the least path. *)
Theorem find_line_name_result (es : list range_entry) (filename : string)
    (digits : list Z) (l : line) :
  find_char ":"%char filename = None ->
  is_numeral digits -> numeral_value digits < two64 ->
  find_line_name (add_ranges empty_map es)
                 (filename ++ String ":"%char (numeral_string digits))
  = Returns (Some l) ->
  line_number l = numeral_value digits /\
  is_suffix filename (line_file l) /\
  forall path f,
    In (path, f) (_files (add_ranges empty_map es)) ->
    is_suffix filename path -> has_line f (numeral_value digits) = true ->
    String.ltb path (line_file l) = false.
Proof.
  intros Hc Hn Hlt H. rewrite (find_line_name_numeral _ _ _ Hc Hn Hlt) in H.
  apply find_in_files_first in H.
  destruct H as (before & path0 & f0 & after & Hfiles & Hs & Hf & Hb).
  destruct empty_map_registry as [Hreg0 Hran0].
  destruct (add_ranges_registry_inv es empty_map Hreg0 Hran0) as [[Hsorted Hok] _].
  rewrite Hfiles in Hsorted, Hok.
  assert (Hl : l = mk_line path0 (numeral_value digits)).
  { destruct (Hok path0 f0) as (_ & _ & Hnamed); [apply in_or_app; right; now left|].
    apply Hnamed. apply find_Some_In in Hf. destruct Hf as (k' & Hin & H1 & H2).
    now rewrite (Z_ltb_total (numeral_value digits) k'). }
  subst l. simpl. repeat split; auto.
  intros path f Hin Hsuf Hhas. rewrite Hfiles in Hin.
  destruct (String.ltb path path0) eqn:E; auto. exfalso.
  apply in_app_or in Hin. destruct Hin as [Hin|[[= <- <-]|Hin]].
  - exact (Hb _ _ Hin (conj Hsuf Hhas)).
  - rewrite string_ltb_irrefl in E. discriminate.
  - apply strongly_sorted_tail in Hsorted.
    inversion Hsorted as [|? ? _ Hall]; subst.
    rewrite Forall_forall in Hall. specialize (Hall _ Hin). simpl in Hall.
    pose proof (string_ltb_trans _ _ _ E Hall) as Hcyc.
    rewrite string_ltb_irrefl in Hcyc. discriminate.
Qed.

Lemma find_line_name_result_witness :
  line_number (mk_line "/src/a.c" 10) = 10 /\
  is_suffix "a.c" (line_file (mk_line "/src/a.c" 10)).
Proof.
  assert (Hn : is_numeral [1; 0]).
  { split; [discriminate|]. repeat constructor; lia. }
  destruct (find_line_name_result overlapping_entries "a.c" [1; 0]
              (mk_line "/src/a.c" 10) eq_refl Hn eq_refl eq_refl) as (H1 & H2 & _).
  split; [exact H1|exact H2].
Defined.

Lemma parse_size_t_blank (s : string) :
  Forall (fun c => is_space c = true) (list_ascii_of_string s) ->
  parse_size_t s = None.
Proof.
  intros H. unfold parse_size_t.
  assert (E : skip_spaces s = EmptyString).
  { induction s as [|c s IH]; [reflexivity|].
    cbn [list_ascii_of_string] in H. inversion H as [|? ? Hc Hs]; subst.
    cbn [skip_spaces]. rewrite Hc. now apply IH. }
  now rewrite E.
Qed.

Lemma find_in_files_unwritten files filename :
  ((forall path f, In (path, f) files -> ~ is_suffix filename path) ->
   find_in_files files filename None = Returns None) /\
  ((exists path f, In (path, f) files /\ is_suffix filename path) ->
   find_in_files files filename None = Undefined).
Proof.
  induction files as [|[path f] files [IH1 IH2]].
  - split; [reflexivity|]. intros (? & ? & [] & _).
  - cbn [find_in_files]. pose proof (suffix_test filename path) as Ht.
    destruct (string_rfind filename path) as [p|].
    + destruct ((p + strlen filename =? strlen path)%nat) eqn:E.
      * split; [|reflexivity]. intros Hno. exfalso.
        apply (Hno path f); [now left|now apply Ht].
      * split.
        -- intros Hno. apply IH1. intros p0 f0 Hin. apply (Hno p0 f0). now right.
        -- intros (p0 & f0 & [[= <- <-]|Hin] & Hs).
           ++ apply Ht in Hs. discriminate.
           ++ apply IH2. exists p0, f0. now split.
    + split.
      * intros Hno. apply IH1. intros p0 f0 Hin. apply (Hno p0 f0). now right.
      * intros (p0 & f0 & [[= <- <-]|Hin] & Hs).
        -- apply Ht in Hs. discriminate.
        -- apply IH2. exists p0, f0. now split.
Qed.

(** X18.  A query whose text after the colon is empty or all white space:
    the extraction writes no line number.  The query returns nothing when
    no stored path ends with the name; when one does, the loop passes the
    number that was never written to [has_line], and the query has no
    defined result. *)
Theorem find_line_name_unwritten (m : memory_map) (filename line_str : string) :
  find_char ":"%char filename = None ->
  Forall (fun c => is_space c = true) (list_ascii_of_string line_str) ->
  ((forall path f, In (path, f) (_files m) -> ~ is_suffix filename path) ->
   find_line_name m (filename ++ String ":"%char line_str) = Returns None) /\
  ((exists path f, In (path, f) (_files m) /\ is_suffix filename path) ->
   find_line_name m (filename ++ String ":"%char line_str) = Undefined).
Proof.
  intros Hc Hblank. rewrite (find_line_name_parts m filename line_str Hc).
  rewrite (parse_size_t_blank line_str Hblank).
  apply find_in_files_unwritten.
Qed.

Lemma find_line_name_unwritten_witness :
  find_line_name foo_index "foo.cpp: " = Undefined /\
  find_line_name foo_index "bar.cpp:" = Returns None.
Proof.
  split.
  - apply (proj2 (find_line_name_unwritten foo_index "foo.cpp" " " eq_refl
                    ltac:(repeat constructor))).
    exists "/src/project/foo.cpp"%string.
    exists (mk_file "/src/project/foo.cpp"
              [(10, mk_line "/src/project/foo.cpp" 10)]).
    split; [left; reflexivity|]. now exists "/src/project/"%string.
  - apply (proj1 (find_line_name_unwritten foo_index "bar.cpp" EmptyString eq_refl
                    ltac:(constructor))).
    intros path f [[= <- <-]|[]] Hs. apply suffix_test in Hs. discriminate.
Defined.

(* ================================================================== *)
(** ** What the scope admits *)

(** X6.  A file is in scope exactly when one of the scope strings is a
    prefix, character by character, of its normalized path; so an empty
    scope string admits every file, and a scope admits what any part of it
    admits. *)
Theorem in_scope_prefix_match (normalize : string -> string) (file : string)
    (scope more : list string) :
  (in_scope normalize file scope = true <->
   exists s, In s scope /\ String.prefix s (normalize file) = true) /\
  in_scope normalize file (EmptyString :: scope) = true /\
  (in_scope normalize file scope = true ->
   in_scope normalize file (scope ++ more) = true /\
   in_scope normalize file (more ++ scope) = true).
Proof.
  split; [apply in_scope_prefix|]. split.
  - apply in_scope_prefix. exists EmptyString. split; [now left|apply prefix_empty].
  - intros H. apply in_scope_prefix in H. destruct H as (s & Hin & Hp).
    split; apply in_scope_prefix; exists s; split; auto; apply in_or_app; auto.
Qed.

Lemma in_scope_prefix_match_witness :
  in_scope lexically_normal "/src/./a.c" ["/usr"%string; "/src"%string] = true.
Proof.
  apply (proj2 (proj2 (in_scope_prefix_match lexically_normal "/src/./a.c"
                         ["/src"%string] ["/usr"%string]))).
  reflexivity.
Defined.

Lemma inline_entries_gate_aux (normalize : string -> string) (scope : list string)
    (d : die) (table : line_table) (load_address : Z)
    (es : list range_entry) (e : range_entry) :
  inline_entries normalize d table scope load_address = Returns es ->
  In e es ->
  exists site, entry_file e = site_call_file site /\
               in_scope normalize (site_call_file site) scope = true.
Proof.
  unfold inline_entries. intros H Hin.
  destruct (resolve_inline d table) as [site| |]; simpl in H; try discriminate.
  exists site.
  destruct ((0 <? strlen (site_decl_file site))%nat
            && (0 <? strlen (site_call_file site))%nat);
    [|injection H as <-; destruct Hin].
  destruct (in_scope normalize (site_decl_file site) scope);
    [injection H as <-; destruct Hin|].
  destruct (in_scope normalize (site_call_file site) scope) eqn:E4;
    [|injection H as <-; destruct Hin].
  simpl in H. split; auto.
  destruct (find_attribute d AT_ranges) as [rv|].
  - destruct (as_rangelist rv) as [rs| |]; simpl in H; try discriminate.
    injection H as <-. apply in_map_iff in Hin. now destruct Hin as (x & <- & _).
  - destruct (find_attribute d AT_low_pc) as [lo|];
      [|injection H as <-; destruct Hin].
    destruct (find_attribute d AT_high_pc) as [hi|];
      [|injection H as <-; destruct Hin].
    destruct (pc_of_value lo) as [low| |]; simpl in H; try discriminate.
    destruct (pc_of_value hi) as [high| |]; simpl in H; try discriminate.
    injection H as <-. now destruct Hin as [<-|[]].
Qed.

(** X7.  An inlined subroutine gives rise to entries only when its
    declaration file and its call file are both known, the call file is in
    scope and the declaration file is not; every entry is for the call file
    and the call line, with a range shifted by the load base. *)
Theorem inline_entries_gate (normalize : string -> string) (d : die)
    (table : line_table) (scope : list string) (load_address : Z)
    (es : list range_entry) (e : range_entry) :
  inline_entries normalize d table scope load_address = Returns es ->
  In e es ->
  exists site low high,
    resolve_inline d table = Returns site /\
    e = (site_call_file site, site_call_line site,
         interval_shift (mk_interval low high) load_address) /\
    site_decl_file site <> EmptyString /\ site_call_file site <> EmptyString /\
    in_scope normalize (site_call_file site) scope = true /\
    in_scope normalize (site_decl_file site) scope = false.
Proof.
  unfold inline_entries. intros H Hin.
  destruct (resolve_inline d table) as [site| |] eqn:Es; simpl in H; try discriminate.
  destruct ((0 <? strlen (site_decl_file site))%nat) eqn:E1;
    [|injection H as <-; destruct Hin].
  destruct ((0 <? strlen (site_call_file site))%nat) eqn:E2;
    [|injection H as <-; destruct Hin].
  simpl in H.
  destruct (in_scope normalize (site_decl_file site) scope) eqn:E3;
    [injection H as <-; destruct Hin|].
  destruct (in_scope normalize (site_call_file site) scope) eqn:E4;
    [|injection H as <-; destruct Hin].
  simpl in H.
  assert (Hd : site_decl_file site <> EmptyString)
    by (intros E; rewrite E in E1; discriminate).
  assert (Hc : site_call_file site <> EmptyString)
    by (intros E; rewrite E in E2; discriminate).
  destruct (find_attribute d AT_ranges) as [rv|].
  - destruct (as_rangelist rv) as [rs| |]; simpl in H; try discriminate.
    injection H as <-. apply in_map_iff in Hin. destruct Hin as ([low high] & <- & _).
    exists site, low, high. auto 10.
  - destruct (find_attribute d AT_low_pc) as [lo|];
      [|injection H as <-; destruct Hin].
    destruct (find_attribute d AT_high_pc) as [hi|];
      [|injection H as <-; destruct Hin].
    destruct (pc_of_value lo) as [low| |]; simpl in H; try discriminate.
    destruct (pc_of_value hi) as [high| |]; simpl in H; try discriminate.
    injection H as <-. destruct Hin as [<-|[]].
    exists site, low, high. auto 10.
Qed.

Lemma inline_entries_gate_witness :
  exists site low high,
    resolve_inline inlined_vec_get sample_table = Returns site /\
    ("/src/./a.c"%string, 10, mk_interval 4198408 4198416)
    = (site_call_file site, site_call_line site,
       interval_shift (mk_interval low high) 4194304) /\
    site_decl_file site <> EmptyString /\ site_call_file site <> EmptyString /\
    in_scope lexically_normal (site_call_file site) ["/src"%string] = true /\
    in_scope lexically_normal (site_decl_file site) ["/src"%string] = false.
Proof.
  apply (inline_entries_gate lexically_normal inlined_vec_get sample_table
           ["/src"%string] 4194304
           [("/src/./a.c"%string, 10, mk_interval 4198408 4198416)]).
  - reflexivity.
  - now left.
Defined.

(* ================================================================== *)
(** ** build adds nothing that is out of scope *)

Section ScopeFilter.
Variable normalize : string -> string.
Variable scope : list string.

Lemma grows_refl (m : memory_map) : grows_in_scope normalize scope m m.
Proof. exists []. split; [reflexivity|constructor]. Qed.

Lemma grows_trans (m1 m2 m3 : memory_map) :
  grows_in_scope normalize scope m1 m2 -> grows_in_scope normalize scope m2 m3 ->
  grows_in_scope normalize scope m1 m3.
Proof.
  intros (a & -> & Ha) (b & -> & Hb). exists (a ++ b).
  split; [symmetry; apply add_ranges_app|]. apply Forall_app. auto.
Qed.

Lemma line_table_entries_in_scope (load_address : Z) (rows : list line_entry)
    (st : walk_state) :
  Forall (fun e => in_scope normalize (entry_file e) scope = true)
         (line_table_entries normalize scope load_address st rows).
Proof.
  revert st. induction rows as [|cur rest IH]; intros st; simpl; [constructor|].
  apply Forall_app. split; auto.
  apply Forall_forall. intros e He. apply row_entry_In in He.
  destruct He as (_ & Hs & ->). exact Hs.
Qed.

Lemma inline_entries_in_scope (d : die) (table : line_table) (load_address : Z)
    (es : list range_entry) :
  inline_entries normalize d table scope load_address = Returns es ->
  Forall (fun e => in_scope normalize (entry_file e) scope = true) es.
Proof.
  intros H. apply Forall_forall. intros e He.
  destruct (inline_entries_gate_aux normalize scope d table load_address es e H He) as (site & Hf & Hs).
  now rewrite Hf.
Qed.

Lemma process_inlines_grows (table : line_table) (load_address : Z) :
  forall (d : die) (m : memory_map),
    grows_in_scope normalize scope m
      (snd (process_inlines normalize d table scope load_address m)).
Proof.
  fix IH 1. intros [|tag attrs origin spec children] m; [apply grows_refl|].
  cbn [process_inlines].
  set (here := match tag with
               | TAG_inlined_subroutine =>
                   inline_entries normalize (Die tag attrs origin spec children)
                                  table scope load_address
               | _ => Returns []
               end).
  assert (Hhere : forall es, here = Returns es ->
            Forall (fun e => in_scope normalize (entry_file e) scope = true) es).
  { intros es. unfold here. destruct tag;
      try (intros [= <-]; constructor).
    apply inline_entries_in_scope. }
  destruct here as [es| |]; try apply grows_refl.
  apply (grows_trans m (add_ranges m es)); [exists es; auto|].
  generalize (add_ranges m es). clear Hhere.
  induction children as [|c cs IHcs]; intros m'; [apply grows_refl|].
  pose proof (IH c m') as Hc.
  destruct (process_inlines normalize c table scope load_address m') as [[u|e|] m''];
    simpl in *; auto.
  apply (grows_trans m' m''); auto.
Qed.
End ScopeFilter.

Section ScopeFilterBuild.
Variable normalize : string -> string.
Variable scope : list string.

Lemma process_unit_grows (load_address : Z) (cu : compilation_unit) (m : memory_map) :
  grows_in_scope normalize scope m
    (snd (process_unit normalize scope load_address cu m)).
Proof.
  unfold process_unit.
  eapply grows_trans; [|apply process_inlines_grows].
  rewrite walk_rows_entries. eexists. split; [reflexivity|].
  apply line_table_entries_in_scope.
Qed.

Lemma process_units_grows (load_address : Z) (units : list compilation_unit)
    (m : memory_map) :
  grows_in_scope normalize scope m
    (snd (process_units normalize scope load_address units m)).
Proof.
  revert m. induction units as [|cu rest IH]; intros m; simpl; [apply grows_refl|].
  pose proof (process_unit_grows load_address cu m) as Hu.
  destruct (process_unit normalize scope load_address cu m) as [[u|e|] m']; simpl in *; auto.
  eapply grows_trans; eauto.
Qed.

Lemma process_file_grows (w : world) (name : string) (load_address : Z)
    (m : memory_map) :
  grows_in_scope normalize scope m
    (snd (process_file normalize w name load_address scope m)).
Proof.
  unfold process_file.
  destruct (locate_debug_executable w name) as [[f|]| |]; simpl; try apply grows_refl.
  destruct (elf_dwarf f) as [units| |]; simpl; try apply grows_refl.
  pose proof (process_units_grows load_address units m) as Hu.
  destruct (process_units normalize scope load_address units m) as [[u|e|] m'];
    simpl in *; auto.
Qed.

Lemma process_modules_grows (w : world) (modules : list (string * Z)) (m : memory_map) :
  grows_in_scope normalize scope m
    (snd (process_modules normalize w scope modules m)).
Proof.
  revert m. induction modules as [|[name base] rest IH]; intros m; simpl;
    [apply grows_refl|].
  pose proof (process_file_grows w name base m) as Hf.
  destruct (process_file normalize w name base scope m) as [[b|e|] m']; simpl in *; auto.
  - eapply grows_trans; eauto.
  - destruct (is_system_error e); simpl; auto. eapply grows_trans; eauto.
Qed.

Lemma build_grows (w : world) (maps : option (list scan_result)) (include_libs : bool)
    (m : memory_map) :
  grows_in_scope normalize scope m
    (snd (build normalize w maps scope include_libs m)).
Proof.
  unfold build. destruct (get_loaded_files maps include_libs); simpl;
    try apply grows_refl.
  apply process_modules_grows.
Qed.

(** The Lines of the ranges of an index come from the index it grew from or
    from the entries that were added. *)
Lemma add_ranges_sources (es : list range_entry) (m : memory_map) (r : interval)
    (l : line) :
  lines_named m ->
  In (r, l) (_ranges (add_ranges m es)) ->
  In (r, l) (_ranges m) \/ exists f n, In (f, n, r) es /\ l = mk_line f n.
Proof.
  revert m. induction es as [|[[f n] r0] es IH]; simpl; intros m Hm Hin; auto.
  destruct (IH _ (add_range_named m f n r0 Hm) Hin) as [H|(f1 & n1 & H & ->)].
  - rewrite (add_range_ranges m f n r0 Hm) in H. apply In_emplace in H.
    destruct H as [[= -> ->]|H]; auto. right. exists f, n. auto.
  - right. exists f1, n1. auto.
Qed.

(** X8.  Whatever the modules hold and however [build] ends, a Line that a
    query by address finds in an index built from the empty one names a file
    that passes the scope test. *)
Theorem build_lines_in_scope (w : world) (maps : option (list scan_result))
    (include_libs : bool) (a : Z) (l : line) :
  find_line_addr (snd (build normalize w maps scope include_libs empty_map)) a
  = Some l ->
  in_scope normalize (line_file l) scope = true.
Proof.
  intros H. unfold find_line_addr in H. apply find_Some_In in H.
  destruct H as (r & Hin & _).
  destruct (build_grows w maps include_libs empty_map) as (es & Heq & Hes).
  rewrite Heq in Hin.
  destruct (add_ranges_sources es empty_map r l empty_map_named Hin)
    as [[]|(f & n & Hin' & ->)].
  rewrite Forall_forall in Hes. exact (Hes _ Hin').
Qed.
End ScopeFilterBuild.

Lemma build_lines_in_scope_witness :
  in_scope lexically_normal (line_file (mk_line "/src/a.c" 10)) ["/src"%string] = true.
Proof.
  exact (build_lines_in_scope lexically_normal ["/src"%string] sample_world
           (Some mmapfail_then_tool) true 8327170 (mk_line "/src/a.c" 10) eq_refl).
Defined.

(* ================================================================== *)
(** ** From the line table to the query by address *)

(** An entry whose range shares no address with the ranges added before it
    is found at every address of its range. *)
Lemma add_ranges_lookup (before after : list range_entry) (f : string) (n : Z)
    (r : interval) (a : Z) :
  Forall (fun e => well_formed (entry_range e)) (before ++ (f, n, r) :: after) ->
  Forall (fun e => disjoint (entry_range e) r) before ->
  contains r a ->
  find_line_addr (add_ranges empty_map (before ++ (f, n, r) :: after)) a
  = Some (mk_line f n).
Proof.
  intros Hes Hdis Hc.
  assert (H0 : ranges_sorted (_ranges empty_map)) by (split; constructor).
  apply Forall_app in Hes. destruct Hes as [Hb He].
  inversion He as [|? ? Hr Hafter]; subst.
  rewrite add_ranges_app. simpl.
  destruct (add_ranges_invariant before empty_map Hb empty_map_named H0)
    as (Hs1 & _ & Hsrc1).
  pose proof (add_ranges_named before empty_map empty_map_named) as Hn1.
  set (m1 := add_ranges empty_map before) in *.
  pose proof (add_range_ranges m1 f n r Hn1) as Hr2.
  assert (Hs2 : ranges_sorted (_ranges (add_range m1 f n r)))
    by (rewrite Hr2; now apply emplace_sorted).
  assert (Hin2 : In (r, mk_line f n) (_ranges (add_range m1 f n r))).
  { rewrite Hr2. apply emplace_new. intros [r0 l0] Hin0. simpl.
    destruct (Hsrc1 _ _ Hin0) as [[]|(f0 & n0 & Hin' & _)].
    rewrite Forall_forall in Hdis. specialize (Hdis _ Hin').
    unfold disjoint, entry_range in Hdis. simpl in Hdis. tauto. }
  fold (add_ranges (add_range m1 f n r) after).
  destruct (add_ranges_invariant after _ Hafter (add_range_named m1 f n r Hn1) Hs2)
    as (Hs3 & Hkeep & _).
  unfold find_line_addr. apply (find_sorted_contains _ r); auto.
Qed.

Lemma strongly_sorted_before {A : Type} (R : A -> A -> Prop) (a b : list A) (x : A) :
  StronglySorted R (a ++ x :: b) -> Forall (fun y => R y x) a.
Proof.
  induction a as [|y a IH]; simpl; intros H; [constructor|].
  inversion H as [|? ? Hs Hall]; subst. constructor; auto.
  rewrite Forall_forall in Hall. apply Hall. apply in_or_app. right. now left.
Qed.

Section WalkLookup.
Variable normalize : string -> string.
Variable scope : list string.
Variable load_address : Z.
Hypothesis load_nonneg : 0 <= load_address.

Lemma line_table_entries_app (a b : list line_entry) (st : walk_state) :
  line_table_entries normalize scope load_address st (a ++ b)
  = line_table_entries normalize scope load_address st a
    ++ line_table_entries normalize scope load_address
         (fold_left (next_state normalize) a st) b.
Proof.
  revert st. induction a as [|r a IH]; intros st; simpl; auto.
  now rewrite IH, app_assoc.
Qed.

(** On an ascending table every entry is a range between the addresses of
    two rows (or from the address the walk started with), shifted by the
    load base without wrapping. *)
Lemma line_table_entries_ranges (rows : list line_entry) (st : walk_state)
    (e : range_entry) :
  ascending_rows load_address rows ->
  0 <= prev_address st ->
  Forall (fun r => prev_address st <= row_address r) rows ->
  In e (line_table_entries normalize scope load_address st rows) ->
  exists b c,
    entry_range e = mk_interval (b + load_address) (c + load_address) /\
    0 <= b /\ b <= c /\ c + load_address < two64 /\
    exists r, In r rows /\ c = row_address r.
Proof.
  revert st. induction rows as [|cur rest IH]; intros st [Hs Hb] Hp Hle Hin;
    [destruct Hin|].
  simpl in Hin. apply in_app_or in Hin.
  inversion Hs as [|? ? Hs' Hall]; subst.
  inversion Hb as [|? ? [Hc0 Hc1] Hb']; subst.
  inversion Hle as [|? ? Hpc Hle']; subst.
  destruct Hin as [Hin|Hin].
  - apply row_entry_In in Hin. destruct Hin as (_ & _ & ->).
    exists (prev_address st), (row_address cur).
    unfold entry_range, interval_shift. simpl.
    rewrite !wrap64_small by (unfold is_uintptr; lia).
    split; [reflexivity|]. split; [exact Hp|]. split; [exact Hpc|].
    split; [exact Hc1|]. exists cur. split; [now left|reflexivity].
  - destruct (IH (next_state normalize st cur) (conj Hs' Hb')) with (3 := Hin)
      as (b & c & He & Hb0 & Hbc & Hc & r & Hr & Hcr).
    + unfold next_state. destruct (row_end_sequence cur); simpl; lia.
    + unfold next_state. destruct (row_end_sequence cur); simpl.
      * revert Hb'. apply Forall_impl. intros r [? _]. lia.
      * exact Hall.
    + exists b, c. repeat split; auto. exists r. split; auto. now right.
Qed.

(** X9.  On a line table with ascending addresses, an address between a row
    in scope that does not end a sequence and the row after it is found,
    once shifted by the load base, as the file and line of that row. *)
Theorem walk_rows_lookup (rows pre post : list line_entry) (p cur : line_entry)
    (x : Z) :
  ascending_rows load_address rows ->
  rows = pre ++ p :: cur :: post ->
  row_end_sequence p = false ->
  row_address p <> 0 ->
  in_scope normalize (normalize (row_file_path p)) scope = true ->
  row_address p <= x < row_address cur ->
  find_line_addr (walk_rows normalize scope load_address walk_start rows empty_map)
                 (load_address + x)
  = Some (mk_line (normalize (row_file_path p)) (row_line p)).
Proof.
  intros Hasc -> Hend Hnz Hscope Hx.
  rewrite walk_rows_entries.
  assert (Hstart : Forall (fun r => prev_address walk_start <= row_address r)
                          (pre ++ p :: cur :: post)).
  { destruct Hasc as [_ Hb]. revert Hb. apply Forall_impl. intros r [? _].
    simpl. lia. }
  assert (Hwf : Forall (fun e => well_formed (entry_range e))
                  (line_table_entries normalize scope load_address walk_start
                     (pre ++ p :: cur :: post))).
  { apply Forall_forall. intros e He.
    destruct (line_table_entries_ranges _ walk_start e Hasc (Z.le_refl 0) Hstart He)
      as (b & c & -> & Hb0 & Hbc & Hc & _).
    unfold well_formed. simpl. lia. }
  change (pre ++ p :: cur :: post) with (pre ++ [p] ++ cur :: post) in *.
  rewrite app_assoc in *.
  rewrite line_table_entries_app in *.
  set (before := line_table_entries normalize scope load_address walk_start
                   (pre ++ [p])) in *.
  assert (Hst : fold_left (next_state normalize) (pre ++ [p]) walk_start
                = mk_walk (normalize (row_file_path p)) (row_line p) (row_address p)).
  { rewrite fold_left_app. simpl. unfold next_state at 1. now rewrite Hend. }
  rewrite Hst in *. cbn [line_table_entries] in *.
  assert (Hrow : row_entry normalize scope load_address
                   (mk_walk (normalize (row_file_path p)) (row_line p) (row_address p))
                   cur
                 = [(normalize (row_file_path p), row_line p,
                     interval_shift (mk_interval (row_address p) (row_address cur))
                                    load_address)]).
  { unfold row_entry. simpl. rewrite Hscope.
    destruct (row_address p =? 0) eqn:E; [apply Z.eqb_eq in E; contradiction|].
    reflexivity. }
  rewrite Hrow in *. simpl in Hwf |- *.
  destruct Hasc as [Hsorted Hbounds].
  assert (Hp : 0 <= row_address p /\ row_address p + load_address < two64).
  { rewrite Forall_forall in Hbounds. apply Hbounds.
    apply in_or_app. left. apply in_or_app. right. now left. }
  assert (Hcur : 0 <= row_address cur /\ row_address cur + load_address < two64).
  { rewrite Forall_forall in Hbounds. apply Hbounds.
    apply in_or_app. right. now left. }
  assert (Hshift : interval_shift (mk_interval (row_address p) (row_address cur))
                                  load_address
                   = mk_interval (row_address p + load_address)
                                 (row_address cur + load_address)).
  { unfold interval_shift. simpl.
    now rewrite !wrap64_small by (unfold is_uintptr; lia). }
  rewrite Hshift in *.
  apply add_ranges_lookup; auto.
  - apply Forall_forall. intros e He.
    assert (Hpre : ascending_rows load_address (pre ++ [p])).
    { split.
      - rewrite <- app_assoc in Hsorted. simpl in Hsorted.
        clear - Hsorted. induction pre as [|y pre IH]; simpl in *.
        + repeat constructor.
        + inversion Hsorted as [|? ? Hs Hall]; subst. constructor; auto.
          rewrite Forall_forall in *. intros z Hz. apply Hall.
          apply in_app_or in Hz. apply in_or_app.
          destruct Hz as [Hz|[<-|[]]]; auto. right. now left.
      - apply Forall_app in Hbounds. tauto. }
    assert (Hstart' : Forall (fun r => prev_address walk_start <= row_address r)
                             (pre ++ [p])).
    { apply Forall_app in Hstart. tauto. }
    destruct (line_table_entries_ranges _ walk_start e Hpre (Z.le_refl 0) Hstart' He)
      as (b & c & Hr & Hb0 & Hbc & Hc & r & Hin & ->).
    left. unfold interval_lt. rewrite Hr. simpl. apply Z.leb_le.
    enough (row_address r <= row_address p) by lia.
    apply in_app_or in Hin. destruct Hin as [Hin|[<-|[]]]; [|lia].
    rewrite <- app_assoc in Hsorted. simpl in Hsorted.
    apply strongly_sorted_before in Hsorted.
    rewrite Forall_forall in Hsorted. now apply Hsorted.
  - unfold contains. simpl. lia.
Qed.
End WalkLookup.

Lemma walk_rows_lookup_witness :
  find_line_addr (walk_rows lexically_normal ["/src"%string] 4194304 walk_start
                    sample_rows empty_map) (4194304 + 4100)
  = Some (mk_line "/src/a.c" 10).
Proof.
  apply (walk_rows_lookup lexically_normal ["/src"%string] 4194304) with
    (pre := []) (cur := mk_row 4104 "/usr/include/v.h" 42 false)
    (post := [mk_row 4112 "/src/./a.c" 11 false; mk_row 4128 "/src/./a.c" 11 true])
    (p := mk_row 4096 "/src/./a.c" 10 false); try reflexivity; simpl; try lia.
  unfold ascending_rows, sample_rows, two64.
  split; repeat constructor; simpl; lia.
Defined.

(* ================================================================== *)
(** ** Resolving and locating a module *)

Lemma search_PATH_first (w : world) (dirs : list string) (filename p : string) :
  search_PATH w dirs filename = p ->
  (p = EmptyString /\
   forall dir, In dir dirs -> fs_exists w (path_append dir filename) = false) \/
  (exists before dir after,
     dirs = before ++ dir :: after /\ p = path_append dir filename /\
     fs_exists w p = true /\
     forall d, In d before -> fs_exists w (path_append d filename) = false).
Proof.
  revert p. induction dirs as [|dir rest IH]; simpl; intros p Hp.
  - left. split; auto. intros dir [].
  - destruct (fs_exists w (path_append dir filename)) eqn:E.
    + right. exists [], dir, rest. subst p. repeat split; auto. intros d [].
    + destruct (IH p Hp) as [[-> Hnone]|(before & d0 & after & -> & -> & Hex & Hb)].
      * left. split; auto. intros d [<-|Hd]; auto.
      * right. exists (dir :: before), d0, after. repeat split; auto.
        intros d [<-|Hd]; auto.
Qed.

(** X10.  The path of a module: an absolute name is taken as it is, without
    a look at the file system; a name with a separator is made canonical; a
    bare name becomes the join with the first directory of PATH under which
    it exists, and the empty path when there is none. *)
Theorem get_full_path_cases (w : world) (filename p : string) :
  get_full_path w filename = Returns p ->
  (first_char_is "/"%char filename = true /\ p = filename) \/
  (first_char_is "/"%char filename = false /\
   find_char "/"%char filename <> None /\ fs_canonical w filename = Returns p) \/
  (find_char "/"%char filename = None /\
   ((p = EmptyString /\
     forall dir, In dir (split_on ":"%char (env_PATH w)) ->
                 fs_exists w (path_append dir filename) = false) \/
    (exists before dir after,
       split_on ":"%char (env_PATH w) = before ++ dir :: after /\
       p = path_append dir filename /\ fs_exists w p = true /\
       forall d, In d before -> fs_exists w (path_append d filename) = false))).
Proof.
  unfold get_full_path. destruct (first_char_is "/"%char filename) eqn:E.
  - intros [= <-]. now left.
  - destruct (find_char "/"%char filename) eqn:Ef.
    + intros H. right. left. repeat split; auto. discriminate.
    + intros [= Hp]. right. right. split; auto. now apply search_PATH_first.
Qed.

Lemma get_full_path_cases_witness :
  (first_char_is "/"%char "/opt/app/bin/tool" = true /\
   "/opt/app/bin/tool"%string = "/opt/app/bin/tool"%string) \/
  (first_char_is "/"%char "/opt/app/bin/tool" = false /\
   find_char "/"%char "/opt/app/bin/tool" <> None /\
   fs_canonical sample_world "/opt/app/bin/tool" = Returns "/opt/app/bin/tool"%string) \/
  (find_char "/"%char "/opt/app/bin/tool" = None /\
   (("/opt/app/bin/tool"%string = EmptyString /\
     forall dir, In dir (split_on ":"%char (env_PATH sample_world)) ->
                 fs_exists sample_world (path_append dir "/opt/app/bin/tool") = false) \/
    (exists before dir after,
       split_on ":"%char (env_PATH sample_world) = before ++ dir :: after /\
       "/opt/app/bin/tool"%string = path_append dir "/opt/app/bin/tool" /\
       fs_exists sample_world "/opt/app/bin/tool" = true /\
       forall d, In d before ->
                 fs_exists sample_world (path_append d "/opt/app/bin/tool") = false))).
Proof.
  exact (get_full_path_cases sample_world "/opt/app/bin/tool" "/opt/app/bin/tool"
           eq_refl).
Defined.

Lemma try_search_paths_debug_info (w : world) (paths : list string) (f : elf) :
  try_search_paths w paths = Returns (Some f) -> has_debug_info f = true.
Proof.
  induction paths as [|p rest IH]; simpl; [discriminate|].
  destruct (fs_open w p) as [[g| |]|]; simpl; auto; try discriminate.
  destruct (has_debug_info g) eqn:E; auto. now intros [= <-].
Qed.

(** X11.  An image that the locator returns has a debug-info section,
    whether it is the module itself or a separate debug file. *)
Theorem locate_debug_executable_has_debug_info (w : world) (filename : string)
    (f : elf) :
  locate_debug_executable w filename = Returns (Some f) ->
  has_debug_info f = true.
Proof.
  unfold locate_debug_executable.
  destruct (get_full_path w filename) as [full| |]; simpl; try discriminate.
  destruct (strlen full =? 0)%nat; [discriminate|].
  destruct (fs_open w full) as [[g| |]|]; simpl; try discriminate.
  destruct (has_debug_info g) eqn:E.
  - now intros [= <-].
  - destruct (find_build_id g) as [id| |]; cbn [obind]; try discriminate.
    destruct (debug_link_paths _ _) as [link_paths| |]; cbn [obind];
      try discriminate.
    apply try_search_paths_debug_info.
Qed.

Lemma locate_debug_executable_has_debug_info_witness :
  has_debug_info tool_debug = true.
Proof.
  exact (locate_debug_executable_has_debug_info sample_world "/opt/app/bin/tool"
           tool_debug eq_refl).
Defined.

(** X12.  A module with an absolute path whose file cannot be opened, or
    cannot be mapped, is passed over: [build] goes on with the next module
    and the index is as it was. *)
Theorem unreadable_module_skipped (normalize : string -> string) (w : world)
    (scope : list string) (name : string) (base : Z) (rest : list (string * Z))
    (m : memory_map) :
  first_char_is "/"%char name = true ->
  fs_open w name = None \/ fs_open w name = Some (Throws std_system_error) ->
  process_modules normalize w scope ((name, base) :: rest) m
  = process_modules normalize w scope rest m.
Proof.
  intros Habs Hopen. cbn [process_modules]. unfold process_file.
  unfold locate_debug_executable, get_full_path. rewrite Habs. cbn [obind].
  destruct name as [|c name]; [discriminate|]. cbn [strlen String.length Nat.eqb].
  destruct Hopen as [->| ->]; reflexivity.
Qed.

Lemma unreadable_module_skipped_witness :
  process_modules lexically_normal sample_world ["/src"%string]
    [("/opt/app/bin/missing"%string, 4194304); ("/opt/app/bin/tool"%string, 8323072)]
    empty_map
  = process_modules lexically_normal sample_world ["/src"%string]
      [("/opt/app/bin/tool"%string, 8323072)] empty_map.
Proof.
  apply unreadable_module_skipped; [reflexivity|left; reflexivity].
Defined.

(* ================================================================== *)
(** ** What the module enumerator reports *)

Lemma candidates_qualify (stream : list scan_result) (path : string) (base : Z) :
  In (path, base) (candidates stream) ->
  exists r, In (8, r) stream /\ path = map_path r /\ base = map_base r /\
            map_offset r = 0 /\ char_at 2 (map_perms r) = "x"%char /\
            first_char_is "/"%char path = true.
Proof.
  induction stream as [|[rc r] rest IH]; simpl; [intros []|].
  destruct (rc =? 8) eqn:E; [|intros []]. apply Z.eqb_eq in E. subst rc.
  intros Hin. apply in_app_or in Hin. destruct Hin as [Hin|Hin].
  - unfold is_executable_mapping in Hin. simpl in Hin.
    destruct (map_offset r =? 0) eqn:E1; [|destruct Hin].
    destruct (Ascii.eqb (char_at 2 (map_perms r)) "x") eqn:E2; [|destruct Hin].
    destruct (first_char_is "/" (map_path r)) eqn:E3; [|destruct Hin].
    simpl in Hin. destruct Hin as [[= <- <-]|[]].
    exists r. apply Z.eqb_eq in E1. apply Ascii.eqb_eq in E2. auto 10.
  - destruct (IH Hin) as (r0 & Hr0 & H). exists r0. split; auto.
Qed.

Lemma fold_assign_In (cs : list (string * Z)) (m : StdMap.t string Z) (x : string * Z) :
  In x (fold_left (fun m c => StdMap.assign String.ltb (fst c) (snd c) m) cs m) ->
  In x m \/ In x cs.
Proof.
  revert m. induction cs as [|[p b] cs IH]; simpl; intros m H; auto.
  destruct (IH _ H) as [H'|H']; auto.
  apply In_assign in H'; [|exact string_ltb_total].
  destruct H' as [->|H']; auto.
Qed.

(** X13.  Every module that the enumerator reports was read in full from
    the mapping table, is mapped at file offset 0 with the execute
    permission, and has an absolute path; its base is the base of such a
    mapping. *)
Theorem get_loaded_files_qualify (stream : list scan_result) (include_libs : bool)
    (result : StdMap.t string Z) (path : string) (base : Z) :
  get_loaded_files (Some stream) include_libs = Returns result ->
  In (path, base) result ->
  exists r, In (8, r) stream /\ path = map_path r /\ base = map_base r /\
            map_offset r = 0 /\ char_at 2 (map_perms r) = "x"%char /\
            first_char_is "/"%char path = true.
Proof.
  unfold get_loaded_files. intros [= <-] Hin. apply candidates_qualify.
  destruct include_libs.
  - rewrite read_mappings_candidates in Hin. apply fold_assign_In in Hin.
    destruct Hin as [[]|Hin]. exact Hin.
  - rewrite read_mappings_first in Hin.
    destruct (candidates stream) as [|c cs]; [destruct Hin|].
    destruct Hin as [<-|[]]. now left.
Qed.

Lemma get_loaded_files_qualify_witness :
  exists r, In (8, r) sample_maps /\ "/lib/libc.so"%string = map_path r /\
            8323072 = map_base r /\ map_offset r = 0 /\
            char_at 2 (map_perms r) = "x"%char /\
            first_char_is "/"%char "/lib/libc.so" = true.
Proof.
  apply (get_loaded_files_qualify sample_maps true
           [("/lib/libc.so"%string, 8323072); ("/usr/bin/app"%string, 6291456)]);
    [reflexivity|now left].
Defined.

Lemma read_mappings_stops (include_libs : bool) (before after : list scan_result)
    (rc : Z) (r : mapping) (result : StdMap.t string Z) :
  rc <> 8 ->
  read_mappings include_libs (before ++ (rc, r) :: after) result
  = read_mappings include_libs before result.
Proof.
  intros Hrc. revert result. induction before as [|[rc0 r0] before IH]; intros result.
  - simpl. unfold is_executable_mapping.
    apply Z.eqb_neq in Hrc. rewrite Hrc. simpl.
    now destruct (negb include_libs && (StdMap.size result =? 1)).
  - simpl. destruct (negb include_libs && (StdMap.size result =? 1)); auto.
    destruct (rc0 =? 8); auto.
Qed.

(** X14.  The enumeration ends at the first record of the mapping table
    that [fscanf] does not read in full, such as a mapping without a path:
    what follows it is not reported. *)
Theorem get_loaded_files_stops (include_libs : bool) (before after : list scan_result)
    (rc : Z) (r : mapping) :
  rc <> 8 ->
  get_loaded_files (Some (before ++ (rc, r) :: after)) include_libs
  = get_loaded_files (Some before) include_libs.
Proof.
  intros Hrc. unfold get_loaded_files. f_equal. now apply read_mappings_stops.
Qed.

Lemma get_loaded_files_stops_witness :
  get_loaded_files
    (Some ([executable_mapping 4194304 "/usr/bin/app"]
           ++ (7, mk_mapping 6291456 6295552 "rw-p" 0 0 0 0 EmptyString)
           :: [executable_mapping 8323072 "/lib/libc.so"])) true
  = get_loaded_files (Some [executable_mapping 4194304 "/usr/bin/app"]) true.
Proof.
  apply get_loaded_files_stops. discriminate.
Defined.

(* ================================================================== *)
(** ** The build id *)

Lemma hex_value_digit (n : Z) : 0 <= n < 16 -> hex_value (hex_digit n) = Some n.
Proof.
  intros H. unfold hex_value, hex_digit.
  destruct (n <? 10) eqn:E.
  - apply Z.ltb_lt in E. rewrite N_ascii_embedding by lia.
    replace (Z.of_N (Z.to_N (48 + n))) with (48 + n) by lia.
    destruct (48 <=? 48 + n) eqn:E1; [|apply Z.leb_gt in E1; lia].
    destruct (48 + n <=? 57) eqn:E2; [|apply Z.leb_gt in E2; lia].
    cbn [andb]. f_equal. lia.
  - apply Z.ltb_ge in E. rewrite N_ascii_embedding by lia.
    replace (Z.of_N (Z.to_N (87 + n))) with (87 + n) by lia.
    destruct (87 + n <=? 57) eqn:E2; [apply Z.leb_le in E2; lia|].
    rewrite andb_false_r.
    destruct (97 <=? 87 + n) eqn:E3; [|apply Z.leb_gt in E3; lia].
    destruct (87 + n <=? 102) eqn:E4; [|apply Z.leb_gt in E4; lia].
    cbn [andb]. f_equal. lia.
Qed.

Lemma decode_hex_string (bytes : list Z) :
  Forall is_byte bytes -> decode_hex (hex_string bytes) = Some bytes.
Proof.
  induction 1 as [|b bytes Hb _ IH]; [reflexivity|]. unfold is_byte in Hb.
  cbn [hex_string hex_byte append decode_hex].
  rewrite !hex_value_digit, IH.
  - do 2 f_equal. symmetry. apply Z.div_mod. lia.
  - apply Z.mod_pos_bound. lia.
  - split; [apply Z.div_pos; lia|apply Z.div_lt_upper_bound; lia].
Qed.

Lemma first_build_id_bytes (ns : list note) (desc : list Z) :
  Forall note_ok ns -> first_build_id ns = Some desc -> Forall is_byte desc.
Proof.
  induction 1 as [|n ns Hn _ IH]; [discriminate|]. cbn [first_build_id].
  destruct (note_type n =? NT_GNU_BUILD_ID); auto.
  intros [= <-]. apply Hn.
Qed.

Lemma image_notes_ok (secs : list section) (notes : list (list note)) :
  Forall2 section_notes secs notes -> Forall note_ok (List.concat notes).
Proof.
  induction 1 as [|s ns secs notes Hs _ IH]; [constructor|].
  cbn [List.concat]. apply Forall_app. split; auto.
  unfold section_notes in Hs. destruct (sec_type s); [apply Hs|subst; constructor].
Qed.

(** X15.  On an image whose note sections hold notes, each laid out as
    three little-endian words (name size, descriptor size, type) followed
    by the name and the descriptor, [find_build_id] goes through the
    sections in order, passes the sections of other types and, note by
    note, the notes of other types, and returns the descriptor of the first
    build-id note, two lowercase hexadecimal digits to the byte; it returns
    the empty text when no note is a build-id note.  Decoding the text gives
    the bytes of the descriptor back. *)
Theorem find_build_id_decodes (f : elf) (notes : list (list note)) :
  image_notes f notes ->
  find_build_id f = Returns (build_id_text notes) /\
  (forall desc, first_build_id (List.concat notes) = Some desc ->
     decode_hex (build_id_text notes) = Some desc) /\
  (first_build_id (List.concat notes) = None -> find_build_id f = Returns EmptyString).
Proof.
  intros H. pose proof (find_build_id_layout f notes H) as Hid.
  split; [exact Hid|]. unfold build_id_text in *. split.
  - intros desc E. rewrite E. apply decode_hex_string.
    apply (first_build_id_bytes (List.concat notes)); auto.
    exact (image_notes_ok _ _ H).
  - intros E. now rewrite E in Hid.
Qed.

Lemma find_build_id_decodes_witness :
  find_build_id linked_image = Returns "abcdef0123456789"%string /\
  decode_hex "abcdef0123456789" = Some [171; 205; 239; 1; 35; 69; 103; 137].
Proof.
  assert (H : image_notes linked_image linked_image_notes).
  { repeat constructor; repeat split; unfold is_byte, two32; simpl; try lia;
      repeat constructor; lia. }
  destruct (find_build_id_decodes linked_image linked_image_notes H) as (H1 & H2 & _).
  split; [exact H1|exact (H2 _ eq_refl)].
Defined.

(* ================================================================== *)
(** ** An exception that build does not catch *)

Section BuildStops.
Variable normalize : string -> string.
Variable w : world.
Variable scope : list string.

Lemma process_modules_app (a b : list (string * Z)) (m : memory_map) :
  process_modules normalize w scope (a ++ b) m
  = match process_modules normalize w scope a m with
    | (Returns _, m') => process_modules normalize w scope b m'
    | stopped => stopped
    end.
Proof.
  revert m. induction a as [|[name base] a IH]; intros m; simpl; auto.
  destruct (process_file normalize w name base scope m) as [[r|e|] m']; auto.
  destruct (is_system_error e); auto.
Qed.

(** X16.  When the processing of a module raises an exception that is no
    [std::system_error], [build] ends with that exception: the modules
    before it have been processed, what the module added before the
    exception stays in the index, and no later module is processed. *)
Theorem process_modules_stops (before after : list (string * Z)) (name : string)
    (base : Z) (m m' : memory_map) (e : exception) :
  (forall n b m0 e0,
     In (n, b) before ->
     fst (process_file normalize w n b scope m0) = Throws e0 ->
     is_system_error e0 = true) ->
  (forall n b m0,
     In (n, b) before ->
     fst (process_file normalize w n b scope m0) <> Undefined) ->
  process_file normalize w name base scope
    (fold_left (fun acc mb =>
                  snd (process_file normalize w (fst mb) (snd mb) scope acc))
               before m)
  = (Throws e, m') ->
  is_system_error e = false ->
  process_modules normalize w scope (before ++ (name, base) :: after) m
  = (Throws e, m').
Proof.
  intros Hsys Hdef Hthrow He.
  rewrite process_modules_app.
  rewrite (process_modules_system_errors normalize w scope before m Hsys Hdef).
  cbn [process_modules]. now rewrite Hthrow, He.
Qed.
End BuildStops.

Lemma process_modules_stops_witness :
  process_modules lexically_normal sample_world ["/src"%string]
    ([("/opt/app/bin/mmapfail"%string, 4194304)]
     ++ ("/opt/app/bin/bad"%string, 6291456)
     :: [("/opt/app/bin/tool"%string, 8323072)]) empty_map
  = (Throws elf_format_error, empty_map).
Proof.
  apply process_modules_stops.
  - intros n b m0 e0 [[= <- <-]|[]] Hthrow. injection Hthrow as <-. reflexivity.
  - intros n b m0 [[= <- <-]|[]] Hundef. discriminate Hundef.
  - reflexivity.
  - reflexivity.
Defined.

(* ================================================================== *)
(** ** The inline attributor reaches every inlined subroutine *)

Section InlineWalk.
Variable normalize : string -> string.
Variable table : line_table.
Variable scope : list string.
Variable load_address : Z.

(** X17.  When reading the attributes of the inlined subroutines of a tree
    raises nothing, [process_inlines] returns normally and has added the
    entries of every inlined subroutine of the tree, at any depth and under
    entries of any tag, in document order. *)
Theorem process_inlines_all_nodes :
  forall (d : die) (m : memory_map),
    (forall n, In n (inlined_nodes d) ->
       exists es, inline_entries normalize n table scope load_address = Returns es) ->
    process_inlines normalize d table scope load_address m
    = (Returns tt,
       add_ranges m (flat_map (entries_of normalize table scope load_address)
                              (inlined_nodes d))).
Proof.
  fix IH 1. intros [|tag attrs origin spec children] m Hret; [reflexivity|].
  cbn [process_inlines inlined_nodes] in *.
  set (d := Die tag attrs origin spec children) in *.
  assert (Hhere : exists es,
            match tag with
            | TAG_inlined_subroutine =>
                inline_entries normalize d table scope load_address
            | _ => Returns []
            end = Returns es /\
            flat_map (entries_of normalize table scope load_address)
                     (match tag with TAG_inlined_subroutine => [d] | _ => [] end)
            = es).
  { destruct tag; try (exists []; split; reflexivity).
    destruct (Hret d) as [es Hes]; [now left|].
    exists es. split; auto. simpl. unfold entries_of at 1.
    rewrite Hes. apply app_nil_r. }
  destruct Hhere as (es & -> & Hflat).
  rewrite flat_map_app, Hflat, add_ranges_app.
  assert (Hkids : forall n,
            In n ((fix each (cs : list die) : list die :=
                     match cs with
                     | [] => []
                     | child :: cs' => inlined_nodes child ++ each cs'
                     end) children) ->
            exists es', inline_entries normalize n table scope load_address
                        = Returns es').
  { intros n Hn. apply Hret. apply in_or_app. now right. }
  clear Hret Hflat. clearbody d. clear d.
  generalize (add_ranges m es). clear m es.
  induction children as [|c cs IHcs]; intros m; [reflexivity|].
  rewrite (IH c m) by (intros n Hn; apply Hkids; apply in_or_app; now left).
  rewrite IHcs by (intros n Hn; apply Hkids; apply in_or_app; now right).
  now rewrite flat_map_app, add_ranges_app.
Qed.
End InlineWalk.

Lemma process_inlines_all_nodes_witness :
  process_inlines lexically_normal nested_root sample_table ["/src"%string] 4194304
                  empty_map
  = (Returns tt,
     add_ranges empty_map [("/src/./a.c"%string, 10, mk_interval 4198408 4198416)]).
Proof.
  rewrite (process_inlines_all_nodes lexically_normal sample_table ["/src"%string]
             4194304 nested_root empty_map).
  - reflexivity.
  - intros n [<-|[]]. eexists. reflexivity.
Defined.
